(** * Layout reconstruction and quality evaluation of the handwriting pipeline

    A shallow embedding of [scripts/evaluate.py] (IoU matching, precision and
    recall, Average Precision, mAP, CER/WER) and of [scripts/postprocess.py]
    (line clustering and text merging), with the properties the specification
    states about them.

    Conventions of the embedding.
    - Python [int] is [Z]; Python [float] is idealised as an exact rational
      [Q] (no NaN); a value that numpy reports as [nan] is an explicit
      [None]. Where the rounding of a float decides what a script returns,
      the rational is replaced by the binary64 number nearest to it
      ([Double.nearest]) and the arithmetic is that of doubles: in the
      two-decimal label [calculate_map] formats a threshold into, and in the
      mean height, the product and the gap test of [merge_line_text].
    - A Python exception is the [Raise] constructor of [result].
    - A [DetectionBox] is a mutable object: lists hold references ([loc]) into
      a [heap], and the only write of the clustering code, [box.line_id = _],
      is a heap update. *)

From Stdlib Require Import ZArith QArith Qround Qabs String Ascii DecimalString List Bool Lia Lqa Permutation Sorted.
From Stdlib Require SpecFloat.
Import ListNotations.

Local Open Scope Z_scope.

(** ** Python runtime pieces used by both scripts *)
Module Py.

(** The exceptions the two scripts can raise. *)
Inductive exn : Type :=
| IndexError
| KeyError (key : string)
| ValueError (msg : string).

Inductive result (A : Type) : Type :=
| Ok (a : A)
| Raise (e : exn).
Arguments Ok {A} a.
Arguments Raise {A} e.

Definition bind {A B : Type} (m : result A) (k : A -> result B) : result B :=
  match m with
  | Ok a => k a
  | Raise e => Raise e
  end.

(** [a < b] on floats. *)
Definition Qlt_bool (a b : Q) : bool := negb (Qle_bool b a).

(** [max(a, b)]: the first argument is kept unless the second is greater. *)
Definition py_max (a b : Q) : Q := if Qlt_bool a b then b else a.

(** The position a list index denotes: a negative index counts from the end. *)
Definition py_index (n : nat) (i : Z) : option nat :=
  let j := if i <? 0 then i + Z.of_nat n else i in
  if (j <? 0) || (Z.of_nat n <=? j) then None else Some (Z.to_nat j).

Fixpoint list_set {A : Type} (l : list A) (k : nat) (v : A) : list A :=
  match l, k with
  | [], _ => []
  | _ :: t, O => v :: t
  | x :: t, S k' => x :: list_set t k' v
  end.

(** [l[i]] *)
Definition py_getitem {A : Type} (l : list A) (i : Z) : result A :=
  match py_index (length l) i with
  | Some k =>
      match nth_error l k with
      | Some a => Ok a
      | None => Raise IndexError
      end
  | None => Raise IndexError
  end.

(** [l[i] = v] *)
Definition py_setitem {A : Type} (l : list A) (i : Z) (v : A) : result (list A) :=
  match py_index (length l) i with
  | Some k => Ok (list_set l k v)
  | None => Raise IndexError
  end.

(** [sorted(l, key=key)] and [l.sort(key=key)]: ascending and stable. *)
Section Sorting.
Context {A : Type} (key : A -> Q).

Fixpoint insert_asc (x : A) (l : list A) : list A :=
  match l with
  | [] => [x]
  | y :: l' => if Qlt_bool (key y) (key x) then y :: insert_asc x l' else x :: l
  end.

Definition sorted (l : list A) : list A := fold_right insert_asc [] l.

(** [sorted(l, key=key, reverse=True)]: descending, and still stable. *)
Fixpoint insert_desc (x : A) (l : list A) : list A :=
  match l with
  | [] => [x]
  | y :: l' => if Qlt_bool (key x) (key y) then y :: insert_desc x l' else x :: l
  end.

Definition sorted_reverse (l : list A) : list A := fold_right insert_desc [] l.
End Sorting.

(** [sum] over integers and over floats. *)
Definition sumZ (l : list Z) : Z := fold_left Z.add l 0.
Definition sumQ (l : list Q) : Q := fold_left Qplus l (0%Q).

(** [np.cumsum] *)
Fixpoint cumsum_from (acc : Z) (l : list Z) : list Z :=
  match l with
  | [] => []
  | x :: t => (acc + x) :: cumsum_from (acc + x) t
  end.
Definition np_cumsum (l : list Z) : list Z := cumsum_from 0 l.

(** [np.mean]: the mean of an empty list is [nan], here [None]. *)
Definition np_mean (l : list Q) : option Q :=
  match l with
  | [] => None
  | _ => Some (sumQ l / inject_Z (Z.of_nat (length l)))%Q
  end.

(** [not l] *)
Definition is_empty {A : Type} (l : list A) : bool :=
  match l with [] => true | _ => false end.

(** [enumerate(l)] *)
Definition enumerate {A : Type} (l : list A) : list (Z * A) :=
  combine (map Z.of_nat (seq 0 (length l))) l.

End Py.

Notation "x <- m ;; k" := (Py.bind m (fun x => k))
  (at level 61, m at next level, right associativity).
Notation "' p <- m ;; k" := (Py.bind m (fun p => k))
  (at level 61, p pattern, m at next level, right associativity).

(** ** [scripts/evaluate.py]: detection metrics *)
(** ** Doubles

    Python's [float] as the binary64 format: a number is a signed zero, a
    signed infinity, nan, or [(-1)^s * m * 2^e] with a mantissa [m] below
    [2^53]. The operations round to nearest, ties to even. *)
Module Double.
Import SpecFloat.

Definition prec : Z := 53.
Definition emax : Z := 1024.

Definition float : Type := spec_float.

(** An int as the operand of a division: its exact value. *)
Definition of_int (n : Z) : float :=
  match n with
  | Z0 => S754_zero false
  | Zpos p => S754_finite false p 0
  | Zneg p => S754_finite true p 0
  end.

(** [a / b] for two ints, [b] not 0: the double nearest to the quotient.
    A quotient too large for a double (2^1024 and more, where Python raises
    OverflowError) is far from any pixel coordinate; here it is an
    infinity. *)
Definition truediv (a b : Z) : float := SFdiv prec emax (of_int a) (of_int b).

(** The double an idealised float is in the program: the one nearest to the
    rational. For [3 # 10] it is the double of the literal [0.3]; for the
    exact value of a double it is that double. *)
Definition nearest (q : Q) : float := truediv (Qnum q) (Zpos (Qden q)).

(** [x * y] *)
Definition mul (x y : float) : float := SFmul prec emax x y.

(** The sign bit. *)
Definition signbit (x : float) : bool :=
  match x with
  | S754_zero s | S754_infinity s | S754_finite s _ _ => s
  | S754_nan => false
  end.

(** The number that a zero or a finite double is. *)
Definition value (x : float) : Q :=
  match x with
  | S754_finite s m e =>
      let n := if s then Zneg m else Zpos m in
      match e with
      | Zneg p => n # (2 ^ p)
      | _ => inject_Z (n * 2 ^ e)
      end
  | _ => 0%Q
  end.

(** [n > x] for an int [n] and a float [x]: Python compares the two numbers
    exactly; nothing is greater than nan. *)
Definition int_gt (n : Z) (x : float) : bool :=
  match x with
  | S754_nan => false
  | S754_infinity s => s
  | _ => Py.Qlt_bool (value x) (inject_Z n)
  end.


End Double.

Module Evaluate.
Import Py.

(** A box [[x1, y1, x2, y2]]. *)
Record Box : Type := mkBox { bx1 : Z; by1 : Z; bx2 : Z; by2 : Z }.

(** A prediction dict: ['box'] is required, ['confidence'] is read with
    [.get('confidence', 0)]. *)
Record Prediction : Type := mkPrediction {
  pred_box : Box;
  pred_confidence : option Q
}.

(** A ground-truth dict: ['box']. *)
Record GroundTruth : Type := mkGroundTruth { gt_box : Box }.

Definition calculate_iou (box1 box2 : Box) : Q :=
  let x1_1 := bx1 box1 in let y1_1 := by1 box1 in
  let x2_1 := bx2 box1 in let y2_1 := by2 box1 in
  let x1_2 := bx1 box2 in let y1_2 := by1 box2 in
  let x2_2 := bx2 box2 in let y2_2 := by2 box2 in
  let x1_i := Z.max x1_1 x1_2 in
  let y1_i := Z.max y1_1 y1_2 in
  let x2_i := Z.min x2_1 x2_2 in
  let y2_i := Z.min y2_1 y2_2 in
  if (x2_i <=? x1_i) || (y2_i <=? y1_i) then 0%Q
  else
    let intersection := (x2_i - x1_i) * (y2_i - y1_i) in
    let area1 := (x2_1 - x1_1) * (y2_1 - y1_1) in
    let area2 := (x2_2 - x1_2) * (y2_2 - y1_2) in
    let union := area1 + area2 - intersection in
    if 0 <? union then (inject_Z intersection / inject_Z union)%Q else 0%Q.

(** The loop [for i in range(len(precisions) - 2, -1, -1)] of [calculate_ap]:
    [idxs] lists the indices in the order the loop visits them. *)
Fixpoint monotone_loop (idxs : list Z) (precisions : list Q) : result (list Q) :=
  match idxs with
  | [] => Ok precisions
  | i :: rest =>
      a <- py_getitem precisions i ;;
      b <- py_getitem precisions (i + 1) ;;
      precisions' <- py_setitem precisions i (py_max a b) ;;
      monotone_loop rest precisions'
  end.

(** The loop [for i in range(1, len(recalls))] of [calculate_ap]. *)
Fixpoint ap_loop (idxs : list Z) (precisions recalls : list Q) (ap : Q) : result Q :=
  match idxs with
  | [] => Ok ap
  | i :: rest =>
      r <- py_getitem recalls i ;;
      r_prev <- py_getitem recalls (i - 1) ;;
      if negb (Qeq_bool r r_prev) then
        p <- py_getitem precisions i ;;
        ap_loop rest precisions recalls (ap + (r - r_prev) * p)%Q
      else ap_loop rest precisions recalls ap
  end.

(** [range(lo, hi)] and [range(n - 1, -1, -1)]. *)
Definition range (lo hi : nat) : list Z := map Z.of_nat (seq lo (hi - lo)%nat).
Definition range_down (n : nat) : list Z := rev (range 0 n).

Definition calculate_ap (precisions recalls : list Q) : result Q :=
  let precisions := [0%Q] ++ precisions ++ [0%Q] in
  let recalls := [0%Q] ++ recalls ++ [1%Q] in
  precisions <- monotone_loop (range_down (length precisions - 1)%nat) precisions ;;
  ap_loop (range 1 (length recalls)) precisions recalls 0%Q.

(** The result dict of [evaluate_detection]: the four metrics are always
    present, the counts only on the general path. *)
Record Counts : Type := mkCounts {
  num_predictions : Z;
  num_ground_truths : Z;
  true_positives : Z;
  false_positives : Z;
  false_negatives : Z
}.

Record DetectionResult : Type := mkDetectionResult {
  precision : Q;
  recall : Q;
  ap : Q;
  f1 : Q;
  counts : option Counts
}.

Definition confidence_key (x : Prediction) : Q :=
  match pred_confidence x with
  | Some c => c
  | None => 0%Q
  end.

(** The inner loop [for gt_idx, gt in enumerate(ground_truths)]; [gts] is
    what is left of the enumeration and [gt_idx] its first index. *)
Fixpoint find_best_gt (pred_box : Box) (gts : list GroundTruth) (gt_matched : list bool)
    (gt_idx : Z) (best_iou : Q) (best_gt_idx : Z) : result (Q * Z) :=
  match gts with
  | [] => Ok (best_iou, best_gt_idx)
  | gt :: rest =>
      m <- py_getitem gt_matched gt_idx ;;
      if (m : bool) then
        find_best_gt pred_box rest gt_matched (gt_idx + 1) best_iou best_gt_idx
      else
        let iou := calculate_iou pred_box (gt_box gt) in
        if Qlt_bool best_iou iou
        then find_best_gt pred_box rest gt_matched (gt_idx + 1) iou gt_idx
        else find_best_gt pred_box rest gt_matched (gt_idx + 1) best_iou best_gt_idx
  end.

(** The state of the loop [for pred in sorted_preds]. *)
Record MatchState : Type := mkMatchState {
  gt_matched : list bool;
  tp : list Z;
  fp : list Z
}.

Fixpoint match_predictions (sorted_preds : list Prediction)
    (ground_truths : list GroundTruth) (iou_threshold : Q) (st : MatchState)
    : result MatchState :=
  match sorted_preds with
  | [] => Ok st
  | pred :: rest =>
      ' (best_iou, best_gt_idx) <-
        find_best_gt (pred_box pred) ground_truths (gt_matched st) 0 0%Q (-1) ;;
      if Qle_bool iou_threshold best_iou then
        gt_matched' <- py_setitem (gt_matched st) best_gt_idx true ;;
        match_predictions rest ground_truths iou_threshold
          (mkMatchState gt_matched' (tp st ++ [1]) (fp st ++ [0]))
      else
        match_predictions rest ground_truths iou_threshold
          (mkMatchState (gt_matched st) (tp st ++ [0]) (fp st ++ [1]))
  end.

(** Elementwise [a / (a + b)] and [a / n] on numpy integer arrays. *)
Definition precisions_of (tp_cumsum fp_cumsum : list Z) : list Q :=
  map (fun '(t, f) => (inject_Z t / inject_Z (t + f))%Q) (combine tp_cumsum fp_cumsum).
Definition recalls_of (tp_cumsum : list Z) (num_gt : Z) : list Q :=
  map (fun t => (inject_Z t / inject_Z num_gt)%Q) tp_cumsum.

(** [xs[-1] if len(xs) > 0 else 0.0] *)
Definition last_or_zero (xs : list Q) : result Q :=
  if (0 <? length xs)%nat then py_getitem xs (-1) else Ok 0%Q.

Definition evaluate_detection (predictions : list Prediction)
    (ground_truths : list GroundTruth) (iou_threshold : Q) : result DetectionResult :=
  if is_empty predictions && is_empty ground_truths then
    Ok (mkDetectionResult 1 1 1 1 None)
  else if is_empty predictions then
    Ok (mkDetectionResult 0 0 0 0 None)
  else if is_empty ground_truths then
    Ok (mkDetectionResult 0 0 0 0 None)
  else
    let sorted_preds := sorted_reverse confidence_key predictions in
    let num_gt := Z.of_nat (length ground_truths) in
    st <- match_predictions sorted_preds ground_truths iou_threshold
            (mkMatchState (repeat false (length ground_truths)) [] []) ;;
    let tp_cumsum := np_cumsum (tp st) in
    let fp_cumsum := np_cumsum (fp st) in
    let precisions := precisions_of tp_cumsum fp_cumsum in
    let recalls := recalls_of tp_cumsum num_gt in
    ap <- calculate_ap precisions recalls ;;
    final_precision <- last_or_zero precisions ;;
    final_recall <- last_or_zero recalls ;;
    let f1 :=
      if Qlt_bool 0 (final_precision + final_recall)
      then (2 * final_precision * final_recall / (final_precision + final_recall))%Q
      else 0%Q in
    Ok (mkDetectionResult final_precision final_recall ap f1
          (Some (mkCounts (Z.of_nat (length predictions)) num_gt
                   (sumZ (tp st)) (sumZ (fp st)) (num_gt - sumZ (tp st))))).

(** *** mAP over several thresholds *)

(** A Python [dict] with string keys, in insertion order. *)
Definition dict : Type := list (string * Q).

(** [d[k] = v] *)
Fixpoint dict_setitem (d : dict) (k : string) (v : Q) : dict :=
  match d with
  | [] => [(k, v)]
  | (k', v') :: d' =>
      if String.eqb k' k then (k', v) :: d' else (k', v') :: dict_setitem d' k v
  end.

(** [d.get(k)], [None] when the key is absent. *)
Fixpoint dict_lookup (d : dict) (k : string) : option Q :=
  match d with
  | [] => None
  | (k', v') :: d' => if String.eqb k' k then Some v' else dict_lookup d' k
  end.

(** [d.get(k, default)] *)
Definition dict_get (d : dict) (k : string) (default : Q) : Q :=
  match dict_lookup d k with
  | Some v => v
  | None => default
  end.

(** [d[k]] *)
Definition dict_getitem (d : dict) (k : string) : result Q :=
  match dict_lookup d k with
  | Some v => Ok v
  | None => Raise (KeyError k)
  end.

(** Rounding to the nearest integer, ties to even, as float formatting does. *)
Definition round_half_even (x : Q) : Z :=
  let f := Qfloor x in
  let r := (x - inject_Z f)%Q in
  if Qlt_bool r (1 # 2) then f
  else if Qlt_bool (1 # 2) r then f + 1
  else if Z.even f then f else f + 1.

Definition two_digits (n : Z) : string :=
  let s := NilZero.string_of_uint (N.to_uint (Z.to_N n)) in
  if n <? 10 then String "0"%char s else s.

(** [f'{t:.2f}'] for a double [t]: the decimal with two places nearest to
    the number the double is, ties to even, after the sign of the double. *)
Definition format_2f (t : Double.float) : string :=
  match t with
  | SpecFloat.S754_nan => "nan"%string
  | SpecFloat.S754_infinity s => (if s then "-inf" else "inf")%string
  | _ =>
      let n := round_half_even (Qabs (Double.value t) * 100)%Q in
      let sign := (if Double.signbit t then "-" else EmptyString)%string in
      (sign ++ NilZero.string_of_uint (N.to_uint (Z.to_N (n / 100))) ++ "."
       ++ two_digits (n mod 100))%string
  end.

(** [f'AP@{iou_thresh:.2f}']: the label is formatted from the double that
    the threshold is. *)
Definition ap_label (iou_thresh : Q) : string :=
  ("AP@" ++ format_2f (Double.nearest iou_thresh))%string.

Definition default_iou_thresholds : list Q :=
  [ 5 # 10; 55 # 100; 6 # 10; 65 # 100; 7 # 10; 75 # 100; 8 # 10; 85 # 100; 9 # 10; 95 # 100 ].

(** The loop [for iou_thresh in iou_thresholds] filling [aps]. *)
Fixpoint ap_per_threshold (all_preds : list Prediction) (all_gts : list GroundTruth)
    (iou_thresholds : list Q) (aps : dict) : result dict :=
  match iou_thresholds with
  | [] => Ok aps
  | iou_thresh :: rest =>
      res <- evaluate_detection all_preds all_gts iou_thresh ;;
      ap_per_threshold all_preds all_gts rest (dict_setitem aps (ap_label iou_thresh) (ap res))
  end.

(** The comprehension [[aps[f'AP@{t:.2f}'] for t in iou_thresholds]]. *)
Fixpoint ap_values (aps : dict) (iou_thresholds : list Q) : result (list Q) :=
  match iou_thresholds with
  | [] => Ok []
  | t :: rest =>
      v <- dict_getitem aps (ap_label t) ;;
      vs <- ap_values aps rest ;;
      Ok (v :: vs)
  end.

(** The result dict of [calculate_map]; [mAP_50_95] is [None] when numpy
    yields [nan]. *)
Record MapResult : Type := mkMapResult {
  mAP_50 : Q;
  mAP_50_95 : option Q;
  AP_per_threshold : dict
}.

Definition calculate_map (all_predictions : list (list Prediction))
    (all_ground_truths : list (list GroundTruth)) (iou_thresholds : option (list Q))
    : result MapResult :=
  let iou_thresholds :=
    match iou_thresholds with
    | None => default_iou_thresholds
    | Some ts => ts
    end in
  let all_preds := concat all_predictions in
  let all_gts := concat all_ground_truths in
  aps <- ap_per_threshold all_preds all_gts iou_thresholds [] ;;
  let map_50 := dict_get aps "AP@0.50"%string 0%Q in
  vs <- ap_values aps iou_thresholds ;;
  let map_50_95 := np_mean vs in
  Ok (mkMapResult map_50 map_50_95 aps).

(** *** Text metrics *)

(** Modelled from the spec: [editdistance.eval], of the third-party package
    [editdistance], which the repository imports and does not contain; the
    specification calls what it returns the Levenshtein edit distance with
    unit cost for substitution, insertion and deletion. This is the defining
    recurrence of that distance over two sequences. *)
Section EditDistance.
Context {A : Type} (eqb : A -> A -> bool).

Definition min3 (a b c : nat) : nat := Nat.min a (Nat.min b c).

Fixpoint editdistance_eval (a b : list A) : nat :=
  match a with
  | [] => length b
  | x :: a' =>
      (fix against (b : list A) : nat :=
         match b with
         | [] => length a
         | y :: b' =>
             min3 (editdistance_eval a' b + 1)
                  (against b' + 1)
                  (editdistance_eval a' b' + (if eqb x y then 0 else 1))
         end) b
  end.
End EditDistance.

(** The characters of a [str]. *)
Definition chars (s : string) : list ascii := list_ascii_of_string s.

Definition calculate_cer (prediction ground_truth : string) : Q :=
  if is_empty (chars ground_truth) then
    if is_empty (chars prediction) then 0%Q else 1%Q
  else
    let distance := editdistance_eval Ascii.eqb (chars prediction) (chars ground_truth) in
    (inject_Z (Z.of_nat distance) / inject_Z (Z.of_nat (length (chars ground_truth))))%Q.

(** [c.isspace()] for the code points below 256. *)
Definition is_space (c : ascii) : bool :=
  let n := nat_of_ascii c in
  ((9 <=? n) && (n <=? 13) || (28 <=? n) && (n <=? 32) || (n =? 133) || (n =? 160))%nat.

(** [s.split()]: the maximal runs of non-whitespace characters. *)
Fixpoint split_ws (s : list ascii) (word : list ascii) : list (list ascii) :=
  match s with
  | [] => if is_empty word then [] else [word]
  | c :: s' =>
      if is_space c then
        if is_empty word then split_ws s' [] else word :: split_ws s' []
      else split_ws s' (word ++ [c])
  end.
Definition split (s : string) : list (list ascii) := split_ws (chars s) [].

Definition word_eqb (u v : list ascii) : bool :=
  String.eqb (string_of_list_ascii u) (string_of_list_ascii v).

Section Ocr.
(** [jiwer.wer(reference, hypothesis)], a third-party package: [None] when
    the import or the call raises, which the bare [except:] swallows. *)
Variable jiwer_wer : string -> string -> option Q.
(** The square root [np.std] takes. *)
Variable np_sqrt : Q -> Q.

Definition calculate_wer (prediction ground_truth : string) : Q :=
  match jiwer_wer ground_truth prediction with
  | Some w => w
  | None =>
      let pred_words := split prediction in
      let gt_words := split ground_truth in
      if is_empty gt_words then
        if is_empty pred_words then 0%Q else 1%Q
      else
        let distance := editdistance_eval word_eqb pred_words gt_words in
        (inject_Z (Z.of_nat distance) / inject_Z (Z.of_nat (length gt_words)))%Q
  end.

(** [np.std]: the root of the mean squared deviation from the mean. *)
Definition np_std (l : list Q) : option Q :=
  match np_mean l with
  | None => None
  | Some m =>
      match np_mean (map (fun x => ((x - m) * (x - m))%Q) l) with
      | None => None
      | Some v => Some (np_sqrt v)
      end
  end.

Record Sample : Type := mkSample {
  sample_CER : Q;
  sample_WER : Q;
  sample_prediction : string;
  sample_ground_truth : string
}.

(** The keys of the result dict that only the non-empty path sets. *)
Record OcrDetails : Type := mkOcrDetails {
  CER_std : option Q;
  WER_std : option Q;
  per_sample : list Sample
}.

(** The result dict of [evaluate_ocr]; a mean is [None] when it is [nan]. *)
Record OcrResult : Type := mkOcrResult {
  CER : option Q;
  WER : option Q;
  num_samples : Z;
  details : option OcrDetails
}.

Definition evaluate_ocr (predictions ground_truths : list string) : result OcrResult :=
  if negb (length predictions =? length ground_truths)%nat then
    Raise (ValueError "Predictions and ground truths must have same length"%string)
  else if is_empty predictions then
    Ok (mkOcrResult (Some 0%Q) (Some 0%Q) 0 None)
  else
    let cers := map (fun '(pred, gt) => calculate_cer pred gt) (combine predictions ground_truths) in
    let wers := map (fun '(pred, gt) => calculate_wer pred gt) (combine predictions ground_truths) in
    Ok (mkOcrResult (np_mean cers) (np_mean wers) (Z.of_nat (length predictions))
          (Some (mkOcrDetails (np_std cers) (np_std wers)
                   (map (fun '(c, w, p, g) => mkSample c w p g)
                        (combine (combine (combine cers wers) predictions) ground_truths))))).
End Ocr.

End Evaluate.

(** ** [scripts/postprocess.py]: line clustering and text merging *)
Module Postprocess.
Import Py.

(** The dataclass [DetectionBox]. *)
Record DetectionBox : Type := mkDetectionBox {
  id : Z;
  x1 : Z;
  y1 : Z;
  x2 : Z;
  y2 : Z;
  confidence : Q;
  ocr_text : string;
  ocr_confidence : Q;
  line_id : Z
}.

Definition center_x (self : DetectionBox) : Q := (inject_Z (x1 self + x2 self) / 2)%Q.
Definition center_y (self : DetectionBox) : Q := (inject_Z (y1 self + y2 self) / 2)%Q.
Definition width (self : DetectionBox) : Z := x2 self - x1 self.
Definition height (self : DetectionBox) : Z := y2 self - y1 self.

Definition vertical_overlap (self other : DetectionBox) : Q :=
  let y_overlap := Z.max 0 (Z.min (y2 self) (y2 other) - Z.max (y1 self) (y1 other)) in
  let min_height := Z.min (height self) (height other) in
  if 0 <? min_height then (inject_Z y_overlap / inject_Z min_height)%Q else 0%Q.

Definition horizontal_distance (self other : DetectionBox) : Z :=
  if x2 self <? x1 other then x1 other - x2 self
  else if x2 other <? x1 self then x1 self - x2 other
  else 0.

(** One entry of [data['detections']]; every key is read with [.get]. *)
Record Detection : Type := mkDetection {
  det_id : option Z;
  det_box : option (list Z);
  det_confidence : option Q;
  det_ocr_text : option string;
  det_ocr_confidence : option Q
}.

Definition get_default {A : Type} (o : option A) (default : A) : A :=
  match o with
  | Some a => a
  | None => default
  end.

(** The loop [for det in detections] of [parse_detections]. *)
Fixpoint parse_loop (detections : list Detection) (boxes : list DetectionBox)
    : result (list DetectionBox) :=
  match detections with
  | [] => Ok boxes
  | det :: rest =>
      let box_coords := get_default (det_box det) [0; 0; 0; 0] in
      c0 <- py_getitem box_coords 0 ;;
      c1 <- py_getitem box_coords 1 ;;
      c2 <- py_getitem box_coords 2 ;;
      c3 <- py_getitem box_coords 3 ;;
      parse_loop rest
        (boxes ++ [ mkDetectionBox
                      (get_default (det_id det) (Z.of_nat (length boxes)))
                      c0 c1 c2 c3
                      (get_default (det_confidence det) 0%Q)
                      (get_default (det_ocr_text det) EmptyString)
                      (get_default (det_ocr_confidence det) 0%Q)
                      (-1) ])
  end.

(** [data] is the value of [data.get('detections')], [None] when the key is
    absent. *)
Definition parse_detections (data : option (list Detection)) : result (list DetectionBox) :=
  let detections := get_default data [] in
  parse_loop detections [].

(** Objects and references: a list of boxes is a list of references into the
    heap, so that [box.line_id = line_id] is seen through every list that
    holds the box. *)
Definition loc : Type := nat.
Definition heap : Type := loc -> DetectionBox.

Definition with_line_id (b : DetectionBox) (v : Z) : DetectionBox :=
  mkDetectionBox (id b) (x1 b) (y1 b) (x2 b) (y2 b) (confidence b)
                 (ocr_text b) (ocr_confidence b) v.

(** [box.line_id = v] for the object at [l]. *)
Definition set_line_id (h : heap) (l : loc) (v : Z) : heap :=
  fun l' => if Nat.eqb l' l then with_line_id (h l') v else h l'.

(** Fresh objects for a list of box values, and the list that refers to them. *)
Definition alloc (boxes : list DetectionBox) : heap :=
  fun l => nth l boxes (mkDetectionBox 0 0 0 0 0 0 EmptyString 0 (-1)).
Definition refs (boxes : list DetectionBox) : list loc := seq 0 (length boxes).

(** [i in used] *)
Definition mem (i : Z) (used : list Z) : bool := existsb (Z.eqb i) used.

Section Clustering.
Variable h : heap.
Variable y_overlap_threshold : Q.

(** The loop [for line_box in current_line] with its [break]: does some box
    of the line overlap [other] enough? *)
Definition joins (current_line : list loc) (other : loc) : bool :=
  existsb (fun line_box =>
             Qle_bool y_overlap_threshold (vertical_overlap (h line_box) (h other)))
          current_line.

(** The loop [for other in sorted_boxes] that grows [current_line]. *)
Fixpoint collect_line (others : list loc) (current_line : list loc) (used : list Z)
    : list loc * list Z :=
  match others with
  | [] => (current_line, used)
  | other :: rest =>
      if mem (id (h other)) used then collect_line rest current_line used
      else if joins current_line other
      then collect_line rest (current_line ++ [other]) (id (h other) :: used)
      else collect_line rest current_line used
  end.

(** The loop [for box in sorted_boxes]; [todo] is what is left of it. *)
Fixpoint build_lines (sorted_boxes todo : list loc) (lines : list (list loc))
    (used : list Z) : list (list loc) :=
  match todo with
  | [] => lines
  | box :: rest =>
      if mem (id (h box)) used then build_lines sorted_boxes rest lines used
      else
        let '(current_line, used') :=
          collect_line sorted_boxes [box] (id (h box) :: used) in
        let current_line := sorted (fun b => center_x (h b)) current_line in
        build_lines sorted_boxes rest (lines ++ [current_line]) used'
  end.

(** [sum(b.center_y for b in line) / len(line)] *)
Definition mean_center_y (line : list loc) : Q :=
  (sumQ (map (fun b => center_y (h b)) line) / inject_Z (Z.of_nat (length line)))%Q.
End Clustering.

(** The loop [for box in line: box.line_id = line_id]. *)
Fixpoint assign_line (h : heap) (line : list loc) (line_id : Z) : heap :=
  match line with
  | [] => h
  | box :: rest => assign_line (set_line_id h box line_id) rest line_id
  end.

(** The loop [for line_id, line in enumerate(lines)]. *)
Fixpoint assign_line_ids (h : heap) (lines : list (Z * list loc)) : heap :=
  match lines with
  | [] => h
  | (line_id, line) :: rest => assign_line_ids (assign_line h line line_id) rest
  end.

(** The heap after the call, and the returned list of lines. *)
Definition group_into_lines (h : heap) (boxes : list loc) (y_overlap_threshold : Q)
    : heap * list (list loc) :=
  if is_empty boxes then (h, [])
  else
    let sorted_boxes := sorted (fun b => center_y (h b)) boxes in
    let lines := build_lines h y_overlap_threshold sorted_boxes sorted_boxes [] [] in
    let lines := sorted (mean_center_y h) lines in
    (assign_line_ids h (enumerate lines), lines).

Definition default_y_overlap_threshold : Q := 5 # 10.
Definition default_space_threshold : Q := 3 # 10.

(** The loop [for i, box in enumerate(line)] of [merge_line_text]. *)
Fixpoint merge_loop (line : list DetectionBox) (space_pixels : Double.float)
    (todo : list (Z * DetectionBox)) (text_parts : list string) : result (list string) :=
  match todo with
  | [] => Ok text_parts
  | (i, box) :: rest =>
      if 0 <? i then
        prev_box <- py_getitem line (i - 1) ;;
        let gap := x1 box - x2 prev_box in
        let text_parts :=
          if Double.int_gt gap space_pixels then text_parts ++ [" "%string]
          else text_parts in
        merge_loop line space_pixels rest (text_parts ++ [ocr_text box])
      else merge_loop line space_pixels rest (text_parts ++ [ocr_text box])
  end.

Definition merge_line_text (line : list DetectionBox) (space_threshold : Q) : result string :=
  if is_empty line then Ok EmptyString
  else
    let avg_height := Double.truediv (sumZ (map height line)) (Z.of_nat (length line)) in
    let space_pixels := Double.mul avg_height (Double.nearest space_threshold) in
    text_parts <- merge_loop line space_pixels (enumerate line) [] ;;
    Ok (String.concat EmptyString text_parts).

End Postprocess.

(** ** Vocabulary of the specification *)
Module Spec.
Import Py Evaluate Postprocess.

(** The validation error of [evaluate_ocr]. *)
Definition length_mismatch : exn :=
  ValueError "Predictions and ground truths must have same length".

(** Two box values that agree on every field but [line_id]. *)
Definition same_except_line_id (a b : DetectionBox) : Prop :=
  id a = id b /\ x1 a = x1 b /\ y1 a = y1 b /\ x2 a = x2 b /\ y2 a = y2 b
  /\ confidence a = confidence b /\ ocr_text a = ocr_text b
  /\ ocr_confidence a = ocr_confidence b.

(** The within-line merge in the specification's words: [avg_height] is the
    mean box height of the line; before the text of [cur] comes a single
    space exactly when [cur.x1 - prev.x2 > avg_height * spaceThreshold],
    the mean and the product being the doubles the program computes. *)
Definition avg_height (line : list DetectionBox) : Double.float :=
  Double.truediv (sumZ (map height line)) (Z.of_nat (length line)).

Definition wide_gap (line : list DetectionBox) (space_threshold : Q)
    (prev cur : DetectionBox) : bool :=
  Double.int_gt (x1 cur - x2 prev)
                (Double.mul (avg_height line) (Double.nearest space_threshold)).

Definition separator (line : list DetectionBox) (space_threshold : Q)
    (prev cur : DetectionBox) : string :=
  if wide_gap line space_threshold prev cur then " "%string else EmptyString.

Fixpoint merge_pairs (line : list DetectionBox) (space_threshold : Q)
    (prev : DetectionBox) (rest : list DetectionBox) : string :=
  match rest with
  | [] => EmptyString
  | cur :: rest' =>
      (separator line space_threshold prev cur ++ ocr_text cur
       ++ merge_pairs line space_threshold cur rest')%string
  end.

(** The strings the loop of [merge_line_text] appends from the second box on. *)
Fixpoint pair_parts (line : list DetectionBox) (space_threshold : Q)
    (prev : DetectionBox) (rest : list DetectionBox) : list string :=
  match rest with
  | [] => []
  | cur :: rest' =>
      (if wide_gap line space_threshold prev cur then [" "%string] else [])
      ++ [ocr_text cur] ++ pair_parts line space_threshold cur rest'
  end.

Definition merged_text (line : list DetectionBox) (space_threshold : Q) : string :=
  match line with
  | [] => EmptyString
  | first :: rest => (ocr_text first ++ merge_pairs line space_threshold first rest)%string
  end.

(** *** Readings of the loops of [evaluate.py] *)

(** How many flags of [gt_matched] are set. *)
Fixpoint count_true (l : list bool) : nat :=
  match l with
  | [] => 0%nat
  | b :: l' => ((if b then 1 else 0) + count_true l')%nat
  end.

(** What the inner loop of [evaluate_detection] holds in [best_iou] and
    [best_gt_idx]: still the initial pair, or a positive IoU with a ground
    truth that is not matched yet. *)
Definition best_ok (gt_matched : list bool) (best_iou : Q) (best_gt_idx : Z) : Prop :=
  (best_gt_idx = -1 /\ (best_iou == 0)%Q)
  \/ (0 <= best_gt_idx
      /\ nth_error gt_matched (Z.to_nat best_gt_idx) = Some false
      /\ (0 < best_iou)%Q).

(** The running maximum from the end that the first loop of [calculate_ap]
    leaves in [precisions]. *)
Fixpoint envelope (precisions : list Q) : list Q :=
  match precisions with
  | [] => []
  | p :: rest =>
      match envelope rest with
      | [] => [p]
      | (q :: _) as e => py_max p q :: e
      end
  end.

(** The sum the second loop of [calculate_ap] accumulates, over what follows
    [r_prev] in [recalls] and the precisions at the same positions. *)
Fixpoint ap_sum (r_prev : Q) (recalls precisions : list Q) (ap : Q) : Q :=
  match recalls, precisions with
  | r :: recalls', p :: precisions' =>
      ap_sum r recalls' precisions'
        (if negb (Qeq_bool r r_prev) then ap + (r - r_prev) * p else ap)%Q
  | _, _ => ap
  end.

(** A sequence that never decreases, starting no lower than [prev]. *)
Fixpoint nondecreasing (prev : Q) (l : list Q) : Prop :=
  match l with
  | [] => True
  | x :: l' => (prev <= x)%Q /\ nondecreasing x l'
  end.

(** The last element of a sequence that follows [prev], or [prev]. *)
Fixpoint final (prev : Q) (l : list Q) : Q :=
  match l with
  | [] => prev
  | x :: l' => final x l'
  end.

(** A number between 0 and 1. *)
Definition unit_interval (x : Q) : Prop := (0 <= x /\ x <= 1)%Q.

(** Edit scripts with unit costs: [edit_script a b n] when [a] becomes [b]
    by keeping characters and [n] single-character substitutions, deletions
    and insertions. The Levenshtein distance is the least such [n]. *)
Inductive edit_script {A : Type} : list A -> list A -> nat -> Prop :=
| edit_done : edit_script [] [] 0
| edit_keep : forall x a b n, edit_script a b n -> edit_script (x :: a) (x :: b) n
| edit_substitute : forall x y a b n, edit_script a b n -> edit_script (x :: a) (y :: b) (S n)
| edit_delete : forall x a b n, edit_script a b n -> edit_script (x :: a) b (S n)
| edit_insert : forall y a b n, edit_script a b n -> edit_script a (y :: b) (S n).

(** [AP@t]: the Average Precision [evaluate_detection] reports at threshold
    [t] (it never raises; 0 stands for the case that cannot happen). *)
Definition ap_at (all_preds : list Prediction) (all_gts : list GroundTruth) (t : Q) : Q :=
  match evaluate_detection all_preds all_gts t with
  | Ok r => ap r
  | Raise _ => 0%Q
  end.

(** The thresholds [calculate_map] works with. *)
Definition thresholds_of (iou_thresholds : option (list Q)) : list Q :=
  match iou_thresholds with
  | None => default_iou_thresholds
  | Some ts => ts
  end.

(** The arithmetic mean of a non-empty list. *)
Definition arithmetic_mean (l : list Q) : Q :=
  (sumQ l / inject_Z (Z.of_nat (length l)))%Q.

(** The invariant of the two clustering loops: [assigned] lists the boxes put
    on a line so far (finished lines and the current one), [used] holds
    exactly their ids. *)
Definition clustering_inv (h : heap) (sorted_boxes assigned : list loc) (used : list Z) : Prop :=
  NoDup assigned
  /\ incl assigned sorted_boxes
  /\ (forall b, In b sorted_boxes -> (mem (id (h b)) used = true <-> In b assigned)).

End Spec.

(** ** Sample inputs *)
Module Samples.
Import Py Evaluate Postprocess.

(** The two boxes of the specification's clustering scenario, followed by a
    box of zero width and a box of zero height. *)
Definition sample_detections : list Detection :=
  [ mkDetection (Some 0) (Some [0; 0; 50; 20]) (Some (9 # 10)) (Some "A"%string) None;
    mkDetection (Some 1) (Some [60; 2; 110; 22]) (Some (8 # 10)) (Some "B"%string) None;
    mkDetection (Some 2) (Some [10; 100; 10; 140]) (Some (7 # 10)) (Some "C"%string) None;
    mkDetection (Some 3) (Some [0; 200; 50; 200]) (Some (6 # 10)) (Some "D"%string) None ].

Definition sample_boxes : list DetectionBox :=
  [ mkDetectionBox 0 0 0 50 20 (9 # 10) "A" 0 (-1);
    mkDetectionBox 1 60 2 110 22 (8 # 10) "B" 0 (-1);
    mkDetectionBox 2 10 100 10 140 (7 # 10) "C" 0 (-1);
    mkDetectionBox 3 0 200 50 200 (6 # 10) "D" 0 (-1) ].

(** The detection data of the script's [--demo] run. *)
Definition demo_predictions : list Prediction :=
  [ mkPrediction (mkBox 10 10 100 50) (Some (9 # 10));
    mkPrediction (mkBox 120 10 200 50) (Some (85 # 100));
    mkPrediction (mkBox 10 60 150 100) (Some (7 # 10)) ].
Definition demo_ground_truths : list GroundTruth :=
  [ mkGroundTruth (mkBox 12 8 98 52);
    mkGroundTruth (mkBox 118 12 198 48);
    mkGroundTruth (mkBox 8 58 148 102) ].

(** Two predictions and a single ground truth: the first prediction is the
    ground-truth box itself, the second lies far away from it. *)
Definition stray_predictions : list Prediction :=
  [ mkPrediction (mkBox 0 0 10 10) (Some (9 # 10));
    mkPrediction (mkBox 100 100 110 110) (Some (5 # 10)) ].
Definition single_ground_truth : list GroundTruth :=
  [ mkGroundTruth (mkBox 0 0 10 10) ].

(** One prediction that is the ground-truth box itself. *)
Definition exact_prediction : list Prediction :=
  [ mkPrediction (mkBox 0 0 10 10) (Some (9 # 10)) ].

End Samples.

(** ** [scripts/postprocess.py]: the transcript and the pipeline *)
Module Transcript.
Import Py Evaluate Postprocess.

(** [s.lstrip()] and [s.rstrip()] on the characters of a string. *)
Fixpoint lstrip (s : list ascii) : list ascii :=
  match s with
  | [] => []
  | c :: s' => if is_space c then lstrip s' else s
  end.

Definition rstrip (s : list ascii) : list ascii := rev (lstrip (rev s)).

(** [s.strip()] *)
Definition strip (s : string) : string :=
  string_of_list_ascii (rstrip (lstrip (chars s))).

(** The default [line_separator], a newline. *)
Definition default_line_separator : string := String (ascii_of_nat 10) EmptyString.

(** The loop [for line in lines] of [merge_all_text]; [merge_line_text] is
    called with its default [space_threshold]. *)
Fixpoint merge_all_loop (lines : list (list DetectionBox)) (line_texts : list string)
    : result (list string) :=
  match lines with
  | [] => Ok line_texts
  | line :: rest =>
      line_text <- merge_line_text line default_space_threshold ;;
      if negb (is_empty (chars (strip line_text)))
      then merge_all_loop rest (line_texts ++ [strip line_text])
      else merge_all_loop rest line_texts
  end.

Definition merge_all_text (lines : list (list DetectionBox)) (line_separator : string)
    : result string :=
  line_texts <- merge_all_loop lines [] ;;
  Ok (String.concat line_separator line_texts).

(** A detection dict as [postprocess_detections] sees it: the keys
    [parse_detections] reads, and [line_id], which the function writes. *)
Record DetectionDict : Type := mkDetectionDict {
  dd_detection : Detection;
  dd_line_id : option Z
}.

(** One entry of [data['lines']]. *)
Record LineEntry : Type := mkLineEntry {
  le_line_id : Z;
  le_text : string;
  le_box_ids : list Z;
  le_num_boxes : Z
}.

(** What [postprocess_detections] leaves in [data]: the detections, the
    lines and the aggregated text. *)
Record Postprocessed : Type := mkPostprocessed {
  pp_detections : option (list DetectionDict);
  pp_lines : list LineEntry;
  pp_aggregated_text : string
}.

(** The dict [box_dict], from ids to box objects, in insertion order. *)
Definition box_dict : Type := list (Z * loc).

Fixpoint box_dict_setitem (d : box_dict) (k : Z) (v : loc) : box_dict :=
  match d with
  | [] => [(k, v)]
  | (k', v') :: d' =>
      if Z.eqb k' k then (k', v) :: d' else (k', v') :: box_dict_setitem d' k v
  end.

Fixpoint box_dict_lookup (d : box_dict) (k : Z) : option loc :=
  match d with
  | [] => None
  | (k', v') :: d' => if Z.eqb k' k then Some v' else box_dict_lookup d' k
  end.

(** [{b.id: b for b in boxes}] *)
Definition make_box_dict (h : heap) (boxes : list loc) : box_dict :=
  fold_left (fun d b => box_dict_setitem d (id (h b)) b) boxes [].

(** The body of the loop [for det in data.get('detections', [])] that
    writes [det['line_id']]. *)
Definition annotate (h : heap) (d : box_dict) (det : DetectionDict) : DetectionDict :=
  match det_id (dd_detection det) with
  | Some the_id =>
      match box_dict_lookup d the_id with
      | Some b => mkDetectionDict (dd_detection det) (Some (line_id (h b)))
      | None => det
      end
  | None => det
  end.

(** The loop [for line_id, line in enumerate(lines)] that fills
    [data['lines']]. *)
Fixpoint line_entries (h : heap) (space_threshold : Q) (lines : list (Z * list loc))
    : result (list LineEntry) :=
  match lines with
  | [] => Ok []
  | (the_line_id, line) :: rest =>
      line_text <- merge_line_text (map h line) space_threshold ;;
      entries <- line_entries h space_threshold rest ;;
      Ok (mkLineEntry the_line_id line_text (map (fun b => id (h b)) line)
            (Z.of_nat (length line)) :: entries)
  end.

Definition postprocess_detections (data : option (list DetectionDict))
    (y_overlap_threshold space_threshold : Q) : result Postprocessed :=
  boxes <- parse_detections (option_map (map dd_detection) data) ;;
  if is_empty boxes then Ok (mkPostprocessed data [] EmptyString)
  else
    let grouped := group_into_lines (alloc boxes) (refs boxes) y_overlap_threshold in
    let h := fst grouped in
    let lines := snd grouped in
    let d := make_box_dict h (refs boxes) in
    let detections := option_map (map (annotate h d)) data in
    entries <- line_entries h space_threshold (enumerate lines) ;;
    aggregated_text <- merge_all_text (map (map h) lines) default_line_separator ;;
    Ok (mkPostprocessed detections entries aggregated_text).

End Transcript.

(** ** Further vocabulary: geometry *)
Module Geometry.
Import Py Evaluate Postprocess.


(** The two boxes share a region of positive area. *)
Definition interiors_overlap (a b : Box) : Prop :=
  Z.max (bx1 a) (bx1 b) < Z.min (bx2 a) (bx2 b)
  /\ Z.max (by1 a) (by1 b) < Z.min (by2 a) (by2 b).

End Geometry.

(** ** Further vocabulary: lines *)
Module Lines.
Import Py Evaluate Postprocess Spec Transcript.


(** The lines of the transcript: the stripped text of every line, those that
    are blank left out. *)
Definition transcript_pieces (lines : list (list DetectionBox)) : list string :=
  filter (fun p => negb (is_empty (chars p)))
         (map (fun line => strip (merged_text line default_space_threshold)) lines).

(** The entry of [data['lines']] for the line at index [k]. *)
Definition entry_of (h : heap) (space_threshold : Q) (k : Z) (line : list loc) : LineEntry :=
  mkLineEntry k (merged_text (map h line) space_threshold)
              (map (fun b => id (h b)) line) (Z.of_nat (length line)).

(** The detections [postprocess_detections] parses. *)
Definition detections_of (data : option (list DetectionDict)) : list Detection :=
  get_default (option_map (map dd_detection) data) [].

(** The id of the object at a reference. *)
Definition id_at (h : heap) (b : loc) : Z := id (h b).

(** What the two clustering loops keep for every input, whether its ids
    repeat or not: the boxes put on lines so far have pairwise distinct ids,
    come from the input, and [used] holds exactly their ids. *)
Definition ids_inv (h : heap) (sorted_boxes assigned : list loc) (used : list Z) : Prop :=
  NoDup (map (id_at h) assigned)
  /\ incl assigned sorted_boxes
  /\ (forall i, mem i used = true <-> In i (map (id_at h) assigned)).

(** How [current_line] comes about: a first box, then boxes appended one at
    a time, each overlapping some box already on the line. *)
Inductive grown (h : heap) (y_overlap_threshold : Q) : list loc -> Prop :=
| grown_seed : forall box, grown h y_overlap_threshold [box]
| grown_join : forall current_line other,
    grown h y_overlap_threshold current_line ->
    joins h y_overlap_threshold current_line other = true ->
    grown h y_overlap_threshold (current_line ++ [other]).

(** Every box that shares its line with another box overlaps, by at least
    the threshold, some other box of the line. *)
Definition overlap_partners (h : heap) (y_overlap_threshold : Q) (line : list loc) : Prop :=
  forall b,
    In b line ->
    (exists other, In other line /\ other <> b) ->
    exists partner,
      In partner line /\ partner <> b
      /\ (y_overlap_threshold <= vertical_overlap (h partner) (h b))%Q.

(** Boxes in reading order, and lines in reading order. *)
Definition left_to_right (h : heap) (line : list loc) : Prop :=
  Sorted.StronglySorted (fun a b => (center_x (h a) <= center_x (h b))%Q) line.

Definition top_to_bottom (h : heap) (lines : list (list loc)) : Prop :=
  Sorted.StronglySorted
    (fun l l' => (mean_center_y h l <= mean_center_y h l')%Q) lines.

(** What every finished line satisfies. *)
Definition line_good (h : heap) (y_overlap_threshold : Q) (line : list loc) : Prop :=
  line <> [] /\ left_to_right h line /\ overlap_partners h y_overlap_threshold line.

(** [det.get('box', [0, 0, 0, 0])] *)
Definition coords_of (det : Detection) : list Z :=
  get_default (det_box det) [0; 0; 0; 0].



(** A box whose x-interval is not inverted. *)
Definition x_ordered (b : DetectionBox) : Prop := x1 b <= x2 b.

End Lines.

Import Py Evaluate Postprocess Spec Samples.

(** * Properties *)

(** ** Trivial cases of [evaluate_detection] *)

(** C5: with no prediction and no ground truth the four metrics are 1; with
    exactly one of the two lists empty they are all 0 (a number, not NaN),
    whatever the IoU threshold. *)
Theorem evaluate_detection_empty_cases :
  forall iou_threshold : Q,
    evaluate_detection [] [] iou_threshold = Ok (mkDetectionResult 1 1 1 1 None)
    /\ (forall gt gts,
          evaluate_detection [] (gt :: gts) iou_threshold
          = Ok (mkDetectionResult 0 0 0 0 None))
    /\ (forall pred preds,
          evaluate_detection (pred :: preds) [] iou_threshold
          = Ok (mkDetectionResult 0 0 0 0 None)).
Proof.
  intro iou_threshold. repeat split; intros; reflexivity.
Qed.

(** ** Validation in [evaluate_ocr] *)

(** C8: [evaluate_ocr] raises exactly when the two lists differ in length,
    and what it raises then is the ValueError; on two empty lists it returns
    CER 0, WER 0 and zero samples. *)
Theorem evaluate_ocr_raises_iff_length_mismatch :
  forall (jiwer_wer : string -> string -> option Q) (np_sqrt : Q -> Q)
         (predictions ground_truths : list string),
    ((exists e, evaluate_ocr jiwer_wer np_sqrt predictions ground_truths = Raise e)
     <-> length predictions <> length ground_truths)
    /\ (forall e, evaluate_ocr jiwer_wer np_sqrt predictions ground_truths = Raise e ->
                  e = length_mismatch)
    /\ evaluate_ocr jiwer_wer np_sqrt [] []
       = Ok (mkOcrResult (Some 0%Q) (Some 0%Q) 0 None).
Proof.
  intros jiwer_wer np_sqrt predictions ground_truths.
  unfold evaluate_ocr.
  destruct (Nat.eqb_spec (length predictions) (length ground_truths)) as [Heq | Hne];
    cbn [negb].
  - repeat split.
    + intros [e He]. destruct (is_empty predictions); discriminate He.
    + intro Hne. contradiction.
    + intros e He. destruct (is_empty predictions); discriminate He.
  - repeat split.
    + intros _. exact Hne.
    + intros _. eexists. reflexivity.
    + intros e He. inversion He. reflexivity.
Qed.

Lemma evaluate_ocr_raises_iff_length_mismatch_witness :
  evaluate_ocr (fun _ _ => None) (fun v => v) ["a"%string] [] = Raise length_mismatch.
Proof.
  destruct (evaluate_ocr_raises_iff_length_mismatch
              (fun _ _ => None) (fun v => v) ["a"%string] [])
    as (Hiff & Hvalue & _).
  destruct (proj2 Hiff) as [e He]; [cbn; discriminate |].
  rewrite He. f_equal. exact (Hvalue e He).
Defined.

(** ** What clustering writes *)

Lemma same_except_line_id_refl : forall a, same_except_line_id a a.
Proof. intro a. repeat split. Qed.

Lemma same_except_line_id_trans :
  forall a b c,
    same_except_line_id a b -> same_except_line_id b c -> same_except_line_id a c.
Proof.
  unfold same_except_line_id. intros a b c Hab Hbc.
  decompose [and] Hab. decompose [and] Hbc. repeat split; congruence.
Qed.

Lemma set_line_id_frame :
  forall h l v l', same_except_line_id (h l') (set_line_id h l v l').
Proof.
  intros h l v l'. unfold set_line_id.
  destruct (Nat.eqb l' l); repeat split.
Qed.

Lemma assign_line_frame :
  forall line h v l, same_except_line_id (h l) (assign_line h line v l).
Proof.
  induction line as [| box rest IH]; intros h v l; cbn [assign_line].
  - apply same_except_line_id_refl.
  - eapply same_except_line_id_trans; [apply set_line_id_frame | apply IH].
Qed.

Lemma assign_line_ids_frame :
  forall lines h l, same_except_line_id (h l) (assign_line_ids h lines l).
Proof.
  induction lines as [| [v line] rest IH]; intros h l; cbn [assign_line_ids].
  - apply same_except_line_id_refl.
  - eapply same_except_line_id_trans; [apply assign_line_frame | apply IH].
Qed.

(** C10: after [group_into_lines], every box object (those of the input list
    among them) has the id, coordinates, confidence, text and text confidence
    it had before; only [line_id] may differ. *)
Theorem group_into_lines_frame :
  forall (h : heap) (boxes : list loc) (y_overlap_threshold : Q) (l : loc),
    same_except_line_id (h l) (fst (group_into_lines h boxes y_overlap_threshold) l).
Proof.
  intros h boxes thr l. unfold group_into_lines.
  destruct (is_empty boxes); cbn [fst].
  - apply same_except_line_id_refl.
  - apply assign_line_ids_frame.
Qed.

(** ** Merging the text of a line *)

Lemma py_index_of_nat :
  forall (n k : nat), (k < n)%nat -> py_index n (Z.of_nat k) = Some k.
Proof.
  intros n k H. unfold py_index.
  destruct (Z.ltb_spec (Z.of_nat k) 0); [lia |].
  destruct (Z.ltb_spec (Z.of_nat k) 0); [lia |].
  destruct (Z.leb_spec (Z.of_nat n) (Z.of_nat k)); [lia |].
  cbn. now rewrite Nat2Z.id.
Qed.

Lemma py_index_last :
  forall (n : nat), (0 < n)%nat -> py_index n (-1) = Some (n - 1)%nat.
Proof.
  intros n H. unfold py_index.
  change (-1 <? 0) with true. cbn iota.
  destruct (Z.ltb_spec (-1 + Z.of_nat n) 0); [lia |].
  destruct (Z.leb_spec (Z.of_nat n) (-1 + Z.of_nat n)); [lia |].
  cbn [orb]. f_equal. lia.
Qed.

Lemma py_getitem_of_nat :
  forall (A : Type) (l : list A) (k : nat) (a : A),
    nth_error l k = Some a -> py_getitem l (Z.of_nat k) = Ok a.
Proof.
  intros A l k a Hk.
  assert (Hlt : (k < length l)%nat) by (apply nth_error_Some; congruence).
  unfold py_getitem. rewrite py_index_of_nat by exact Hlt.
  rewrite Hk. reflexivity.
Qed.

Lemma merge_loop_pairs :
  forall (line : list DetectionBox) (space_threshold : Q)
         (suffix before : list DetectionBox) (prev : DetectionBox) (text_parts : list string),
    line = before ++ prev :: suffix ->
    merge_loop line (Double.mul (avg_height line) (Double.nearest space_threshold))
      (combine (map Z.of_nat (seq (S (length before)) (length suffix))) suffix) text_parts
    = Ok (text_parts ++ pair_parts line space_threshold prev suffix).
Proof.
  intros line space_threshold.
  induction suffix as [| cur rest IH]; intros before prev text_parts Hline.
  - cbn. rewrite app_nil_r. reflexivity.
  - cbn [length seq map combine merge_loop pair_parts].
    replace (0 <? Z.of_nat (S (length before))) with true
      by (symmetry; apply Z.ltb_lt; lia).
    replace (Z.of_nat (S (length before)) - 1) with (Z.of_nat (length before)) by lia.
    rewrite (py_getitem_of_nat _ line (length before) prev).
    2:{ rewrite Hline, nth_error_app2 by lia. rewrite Nat.sub_diag. reflexivity. }
    cbn [bind].
    specialize (IH (before ++ [prev]) cur).
    rewrite length_app in IH. cbn [length] in IH.
    replace (length before + 1)%nat with (S (length before)) in IH by lia.
    rewrite IH by (rewrite <- app_assoc; exact Hline).
    unfold wide_gap.
    destruct (Double.int_gt (x1 cur - x2 prev)
                (Double.mul (avg_height line) (Double.nearest space_threshold)));
      rewrite <- ?app_assoc; reflexivity.
Qed.

Lemma append_empty_r : forall s : string, (s ++ EmptyString)%string = s.
Proof.
  induction s as [| c s IH]; cbn; [reflexivity | now rewrite IH].
Qed.

Lemma concat_empty_cons :
  forall (x : string) (xs : list string),
    String.concat EmptyString (x :: xs) = (x ++ String.concat EmptyString xs)%string.
Proof.
  intros x [| y ys]; cbn.
  - now rewrite append_empty_r.
  - reflexivity.
Qed.

Lemma concat_pair_parts :
  forall line space_threshold rest prev,
    String.concat EmptyString (pair_parts line space_threshold prev rest)
    = merge_pairs line space_threshold prev rest.
Proof.
  intros line space_threshold.
  induction rest as [| cur rest IH]; intro prev; cbn [pair_parts merge_pairs].
  - reflexivity.
  - unfold separator.
    destruct (wide_gap line space_threshold prev cur); cbn [app];
      rewrite ?concat_empty_cons, IH; reflexivity.
Qed.

Lemma merge_line_text_merged_text :
  forall (line : list DetectionBox) (space_threshold : Q),
    merge_line_text line space_threshold = Ok (merged_text line space_threshold).
Proof.
  intros [| first rest] space_threshold; [reflexivity |].
  unfold merge_line_text. cbn [is_empty].
  change (Double.truediv (sumZ (map height (first :: rest)))
                         (Z.of_nat (length (first :: rest))))
    with (avg_height (first :: rest)).
  unfold enumerate. cbn [length seq map combine merge_loop].
  change (0 <? Z.of_nat 0) with false. cbn iota.
  rewrite (merge_loop_pairs (first :: rest) space_threshold rest [] first) by reflexivity.
  cbn [bind app merged_text].
  rewrite concat_empty_cons, concat_pair_parts. reflexivity.
Qed.

Lemma Qlt_bool_iff : forall a b : Q, Qlt_bool a b = true <-> (a < b)%Q.
Proof.
  intros a b. unfold Qlt_bool. rewrite negb_true_iff. split.
  - intro H. apply Qnot_le_lt. intro Hle. apply Qle_bool_iff in Hle. congruence.
  - intro H. destruct (Qle_bool b a) eqn:E; [| reflexivity].
    apply Qle_bool_iff in E. exfalso. exact (Qlt_not_le _ _ H E).
Qed.

(** The gap test on a finite product is the comparison of two numbers. *)
Lemma int_gt_value :
  forall (n : Z) (x : Double.float),
    x <> SpecFloat.S754_nan ->
    (forall s, x <> SpecFloat.S754_infinity s) ->
    (Double.int_gt n x = true <-> (Double.value x < inject_Z n)%Q).
Proof.
  intros n x Hnan Hinf.
  destruct x as [s | s | | s m e]; cbn [Double.int_gt];
    [apply Qlt_bool_iff | | | apply Qlt_bool_iff].
  - exfalso. exact (Hinf s eq_refl).
  - exfalso. exact (Hnan eq_refl).
Qed.

(** C6: the text of a non-empty line is the first box's text followed, for
    each adjacent pair [(prev, cur)], by a single space exactly when
    [cur.x1 - prev.x2 > avg_height * space_threshold] and then by [cur]'s
    text, where the mean height and the product are the doubles the program
    computes and the comparison is exact; for [A = [0,0,50,20]],
    [B = [60,2,110,22]] with the default threshold 0.3 the gap 10 exceeds
    the product, so the result is A's text, a space, B's text. The rounding
    is the program's: for three boxes of heights 20, 25, 25 the product is
    6.999999999999999, so gaps of 7 get their space; for two boxes of height
    10 the product is 3.0, so a gap of 3 gets none. *)
Theorem merge_line_text_spaces :
  (forall (first : DetectionBox) (rest : list DetectionBox) (space_threshold : Q),
      merge_line_text (first :: rest) space_threshold
      = Ok (ocr_text first ++ merge_pairs (first :: rest) space_threshold first rest)%string)
  /\ (forall prev cur line space_threshold,
        separator line space_threshold prev cur
        = if Double.int_gt (x1 cur - x2 prev)
                           (Double.mul (Double.truediv (sumZ (map height line))
                                                       (Z.of_nat (length line)))
                                       (Double.nearest space_threshold))
          then " "%string else EmptyString)
  /\ (forall prev cur line space_threshold s m e,
        Double.mul (Double.truediv (sumZ (map height line)) (Z.of_nat (length line)))
                   (Double.nearest space_threshold)
        = SpecFloat.S754_finite s m e ->
        (separator line space_threshold prev cur = " "%string
         <-> (Double.value (SpecFloat.S754_finite s m e) < inject_Z (x1 cur - x2 prev))%Q))
  /\ (forall idA idB confA confB textA textB ocA ocB lA lB,
        merge_line_text
          [ mkDetectionBox idA 0 0 50 20 confA textA ocA lA;
            mkDetectionBox idB 60 2 110 22 confB textB ocB lB ]
          default_space_threshold
        = Ok (textA ++ " " ++ textB)%string)
  /\ (forall textA textB textC,
        merge_line_text
          [ mkDetectionBox 0 0 0 10 20 1 textA 1 (-1);
            mkDetectionBox 1 17 0 27 25 1 textB 1 (-1);
            mkDetectionBox 2 34 0 44 25 1 textC 1 (-1) ]
          default_space_threshold
        = Ok (textA ++ " " ++ textB ++ " " ++ textC)%string)
  /\ (forall textA textB,
        merge_line_text
          [ mkDetectionBox 0 0 0 10 10 1 textA 1 (-1);
            mkDetectionBox 1 13 0 23 10 1 textB 1 (-1) ]
          default_space_threshold
        = Ok (textA ++ textB)%string).
Proof.
  split; [| split; [| split; [| split; [| split]]]].
  - intros first rest space_threshold.
    apply (merge_line_text_merged_text (first :: rest)).
  - reflexivity.
  - intros prev cur line space_threshold s m e Hproduct.
    unfold separator, wide_gap, avg_height. rewrite Hproduct.
    rewrite <- int_gt_value by (intros; discriminate).
    destruct (Double.int_gt (x1 cur - x2 prev) (SpecFloat.S754_finite s m e));
      split; intro H; try reflexivity; discriminate H.
  - intros. rewrite merge_line_text_merged_text. cbn [merged_text merge_pairs ocr_text].
    replace (separator _ _ _ _) with " "%string by (symmetry; vm_compute; reflexivity).
    rewrite append_empty_r. reflexivity.
  - intros. rewrite merge_line_text_merged_text. cbn [merged_text merge_pairs ocr_text].
    replace (separator _ _ _ (mkDetectionBox 1 17 0 27 25 1 textB 1 (-1)))
      with " "%string by (symmetry; vm_compute; reflexivity).
    replace (separator _ _ _ (mkDetectionBox 2 34 0 44 25 1 textC 1 (-1)))
      with " "%string by (symmetry; vm_compute; reflexivity).
    rewrite append_empty_r. reflexivity.
  - intros. rewrite merge_line_text_merged_text. cbn [merged_text merge_pairs ocr_text].
    replace (separator _ _ _ _) with EmptyString by (symmetry; vm_compute; reflexivity).
    rewrite append_empty_r. reflexivity.
Qed.

(** ** Sorting keeps the elements *)

Lemma insert_asc_perm :
  forall (A : Type) (key : A -> Q) (x : A) (l : list A),
    Permutation (insert_asc key x l) (x :: l).
Proof.
  intros A key x. induction l as [| y l IH]; cbn [insert_asc].
  - apply Permutation_refl.
  - destruct (Qlt_bool (key y) (key x)).
    + eapply perm_trans; [apply perm_skip, IH | apply perm_swap].
    + apply Permutation_refl.
Qed.

Lemma sorted_perm :
  forall (A : Type) (key : A -> Q) (l : list A), Permutation (sorted key l) l.
Proof.
  intros A key. induction l as [| x l IH]; cbn [sorted fold_right].
  - apply perm_nil.
  - eapply perm_trans; [apply insert_asc_perm | apply perm_skip, IH].
Qed.

Lemma insert_desc_perm :
  forall (A : Type) (key : A -> Q) (x : A) (l : list A),
    Permutation (insert_desc key x l) (x :: l).
Proof.
  intros A key x. induction l as [| y l IH]; cbn [insert_desc].
  - apply Permutation_refl.
  - destruct (Qlt_bool (key x) (key y)).
    + eapply perm_trans; [apply perm_skip, IH | apply perm_swap].
    + apply Permutation_refl.
Qed.

Lemma sorted_reverse_perm :
  forall (A : Type) (key : A -> Q) (l : list A), Permutation (sorted_reverse key l) l.
Proof.
  intros A key. induction l as [| x l IH]; cbn [sorted_reverse fold_right].
  - apply perm_nil.
  - eapply perm_trans; [apply insert_desc_perm | apply perm_skip, IH].
Qed.

Lemma Permutation_concat_lists :
  forall (A : Type) (l l' : list (list A)),
    Permutation l l' -> Permutation (concat l) (concat l').
Proof.
  intros A l l' H. induction H; cbn [concat].
  - apply perm_nil.
  - apply Permutation_app_head. assumption.
  - rewrite !app_assoc. apply Permutation_app_tail, Permutation_app_comm.
  - eapply perm_trans; eassumption.
Qed.

(** ** Line clustering is a partition *)

Lemma mem_true_iff : forall i used, mem i used = true <-> In i used.
Proof.
  intros i used. unfold mem. rewrite existsb_exists. split.
  - intros [j [Hin Heq]]. apply Z.eqb_eq in Heq. now subst.
  - intro Hin. exists i. split; [assumption | apply Z.eqb_refl].
Qed.

Lemma NoDup_map_injective :
  forall (A B : Type) (f : A -> B) (l : list A) (a b : A),
    NoDup (map f l) -> In a l -> In b l -> f a = f b -> a = b.
Proof.
  intros A B f. induction l as [| x l IH]; intros a b Hnd Ha Hb Hf; [contradiction |].
  cbn [map] in Hnd. inversion Hnd as [| y ys Hnotin Hnd']; subst.
  destruct Ha as [Ha | Ha], Hb as [Hb | Hb]; subst.
  - reflexivity.
  - exfalso. apply Hnotin. rewrite Hf. now apply in_map.
  - exfalso. apply Hnotin. rewrite <- Hf. now apply in_map.
  - now apply IH.
Qed.

Section ClusteringFacts.
Variable h : heap.
Variable y_overlap_threshold : Q.
Variable sorted_boxes : list loc.
Hypothesis ids_distinct : NoDup (map (fun b => id (h b)) sorted_boxes).

Lemma clustering_inv_perm :
  forall assigned assigned' used,
    Permutation assigned assigned' ->
    clustering_inv h sorted_boxes assigned used ->
    clustering_inv h sorted_boxes assigned' used.
Proof.
  intros assigned assigned' used Hperm (Hnd & Hincl & Hused).
  repeat split.
  - eapply Permutation_NoDup; eassumption.
  - intros b Hb. apply Hincl. eapply Permutation_in; [apply Permutation_sym |]; eassumption.
  - intro Hm. eapply Permutation_in; [eassumption |]. now apply Hused.
  - intro Hb. apply Hused; [assumption |].
    eapply Permutation_in; [apply Permutation_sym |]; eassumption.
Qed.

(** Marking a box that is not yet used and putting it on a line. *)
Lemma clustering_inv_add :
  forall assigned used box,
    In box sorted_boxes ->
    mem (id (h box)) used = false ->
    clustering_inv h sorted_boxes assigned used ->
    clustering_inv h sorted_boxes (assigned ++ [box]) (id (h box) :: used).
Proof.
  intros assigned used box Hbox Hfresh (Hnd & Hincl & Hused).
  assert (Hnotin : ~ In box assigned).
  { intro Hin. apply Hused in Hin; [congruence | assumption]. }
  repeat split.
  - eapply Permutation_NoDup; [apply Permutation_cons_append |].
    now constructor.
  - intros b Hb. apply in_app_or in Hb. destruct Hb as [Hb | [Hb | []]].
    + now apply Hincl.
    + now subst.
  - intro Hm. apply in_or_app. unfold mem in Hm. cbn [existsb] in Hm.
    apply orb_true_iff in Hm. destruct Hm as [Heq | Hm].
    + right. left. apply Z.eqb_eq in Heq.
      apply (NoDup_map_injective _ _ (fun b => id (h b)) sorted_boxes); auto.
    + left. now apply Hused.
  - intro Hb. apply in_app_or in Hb. unfold mem. cbn [existsb].
    apply orb_true_iff. destruct Hb as [Hb | [Hb | []]].
    + right. now apply Hused.
    + left. subst. apply Z.eqb_refl.
Qed.

Lemma collect_line_inv :
  forall others current_line used finished,
    incl others sorted_boxes ->
    clustering_inv h sorted_boxes (finished ++ current_line) used ->
    clustering_inv h sorted_boxes
      (finished ++ fst (collect_line h y_overlap_threshold others current_line used))
      (snd (collect_line h y_overlap_threshold others current_line used))
    /\ (forall i, mem i used = true ->
                  mem i (snd (collect_line h y_overlap_threshold others current_line used)) = true).
Proof.
  induction others as [| other rest IH]; intros current_line used finished Hincl Hinv;
    cbn [collect_line].
  - cbn [fst snd]. split; [assumption | auto].
  - assert (Hrest : incl rest sorted_boxes) by (intros b Hb; apply Hincl; now right).
    destruct (mem (id (h other)) used) eqn:Hused; [now apply IH |].
    destruct (joins h y_overlap_threshold current_line other); [| now apply IH].
    specialize (IH (current_line ++ [other]) (id (h other) :: used) finished Hrest).
    destruct IH as [IHinv IHmono].
    + rewrite app_assoc. apply clustering_inv_add; [apply Hincl; now left | assumption ..].
    + split; [assumption |].
      intros i Hi. apply IHmono. unfold mem. cbn [existsb]. apply orb_true_iff. now right.
Qed.

Lemma build_lines_inv :
  forall todo lines used,
    incl todo sorted_boxes ->
    clustering_inv h sorted_boxes (concat lines) used ->
    exists used',
      clustering_inv h sorted_boxes
        (concat (build_lines h y_overlap_threshold sorted_boxes todo lines used)) used'
      /\ (forall i, mem i used = true -> mem i used' = true)
      /\ (forall b, In b todo -> mem (id (h b)) used' = true).
Proof.
  induction todo as [| box rest IH]; intros lines used Hincl Hinv; cbn [build_lines].
  - exists used. split; [exact Hinv | split; [auto | intros b []]].
  - assert (Hrest : incl rest sorted_boxes) by (intros b Hb; apply Hincl; now right).
    destruct (mem (id (h box)) used) eqn:Hused.
    + destruct (IH lines used Hrest Hinv) as (used' & Hinv' & Hmono & Hdone).
      exists used'. split; [exact Hinv' | split; [assumption |]].
      intros b [Hb | Hb]; [subst; now apply Hmono | now apply Hdone].
    + pose proof (collect_line_inv sorted_boxes [box] (id (h box) :: used) (concat lines)
                    (incl_refl _)) as Hcollect.
      destruct (collect_line h y_overlap_threshold sorted_boxes [box] (id (h box) :: used))
        as [current_line used1] eqn:Hcl.
      cbn [fst snd] in Hcollect.
      destruct Hcollect as [Hinv1 Hmono1].
      { apply clustering_inv_add; [apply Hincl; now left | assumption ..]. }
      destruct (IH (lines ++ [sorted (fun b => center_x (h b)) current_line]) used1 Hrest)
        as (used' & Hinv' & Hmono & Hdone).
      { rewrite concat_app. cbn [concat]. rewrite app_nil_r.
        eapply clustering_inv_perm; [| exact Hinv1].
        apply Permutation_app_head, Permutation_sym, sorted_perm. }
      exists used'.
      assert (Hstep : forall i, mem i (id (h box) :: used) = true -> mem i used' = true)
        by (intros i Hi; now apply Hmono, Hmono1).
      split; [exact Hinv' | split].
      * intros i Hi. apply Hstep. unfold mem. cbn [existsb]. apply orb_true_iff. now right.
      * intros b [Hb | Hb]; [| now apply Hdone].
        subst. apply Hstep. unfold mem. cbn [existsb]. now rewrite Z.eqb_refl.
Qed.

(** All of [sorted_boxes], each once, ends up on the lines. *)
Lemma build_lines_partition :
  Permutation (concat (build_lines h y_overlap_threshold sorted_boxes sorted_boxes [] []))
              sorted_boxes.
Proof.
  destruct (build_lines_inv sorted_boxes [] [] (incl_refl _))
    as (used' & (Hnd & Hincl & Hused) & _ & Hdone).
  { repeat split; cbn; [constructor | intros b [] | discriminate | intros []]. }
  apply NoDup_Permutation.
  - assumption.
  - eapply NoDup_map_inv. exact ids_distinct.
  - intro b. split; [apply Hincl |].
    intro Hb. apply Hused; [assumption | now apply Hdone].
Qed.
End ClusteringFacts.

(** *** Line ids *)

Lemma set_line_id_other :
  forall h l v l', l' <> l -> set_line_id h l v l' = h l'.
Proof.
  intros h l v l' Hne. unfold set_line_id.
  destruct (Nat.eqb_spec l' l); [contradiction | reflexivity].
Qed.

Lemma set_line_id_same :
  forall h l v, line_id (set_line_id h l v l) = v.
Proof.
  intros h l v. unfold set_line_id. rewrite Nat.eqb_refl. reflexivity.
Qed.

Lemma assign_line_notin :
  forall line h v b, ~ In b line -> assign_line h line v b = h b.
Proof.
  induction line as [| box rest IH]; intros h v b Hnotin; cbn [assign_line].
  - reflexivity.
  - rewrite IH by (intro Hin; apply Hnotin; now right).
    apply set_line_id_other. intro Heq. apply Hnotin. now left.
Qed.

Lemma assign_line_in :
  forall line h v b, In b line -> line_id (assign_line h line v b) = v.
Proof.
  induction line as [| box rest IH]; intros h v b Hin; [contradiction |].
  cbn [assign_line].
  destruct (in_dec Nat.eq_dec b rest) as [Hrest | Hrest].
  - now apply IH.
  - destruct Hin as [Heq | Hin]; [subst | contradiction].
    rewrite assign_line_notin by assumption. apply set_line_id_same.
Qed.

Lemma assign_line_ids_notin :
  forall (lines : list (list loc)) (idxs : list Z) h b,
    ~ In b (concat lines) -> assign_line_ids h (combine idxs lines) b = h b.
Proof.
  induction lines as [| line rest IH]; intros idxs h b Hnotin.
  - destruct idxs; reflexivity.
  - destruct idxs as [| i idxs]; [reflexivity |].
    cbn [combine assign_line_ids]. cbn [concat] in Hnotin.
    rewrite IH by (intro Hin; apply Hnotin, in_or_app; now right).
    apply assign_line_notin. intro Hin. apply Hnotin, in_or_app. now left.
Qed.

Lemma NoDup_app_disjoint :
  forall (A : Type) (l1 l2 : list A) (a : A),
    NoDup (l1 ++ l2) -> In a l1 -> ~ In a l2.
Proof.
  intros A. induction l1 as [| x l1 IH]; intros l2 a Hnd Hin1 Hin2; [contradiction |].
  cbn [app] in Hnd. inversion Hnd as [| y ys Hx Hnd']; subst.
  destruct Hin1 as [-> | Hin1].
  - apply Hx, in_or_app. now right.
  - exact (IH l2 a Hnd' Hin1 Hin2).
Qed.

Lemma assign_line_ids_enumerated :
  forall (lines : list (list loc)) (start : nat) h k line b,
    NoDup (concat lines) ->
    nth_error lines k = Some line ->
    In b line ->
    line_id (assign_line_ids h (combine (map Z.of_nat (seq start (length lines))) lines) b)
    = Z.of_nat (start + k).
Proof.
  induction lines as [| line0 rest IH]; intros start h k line b Hnd Hk Hin.
  - destruct k; discriminate Hk.
  - cbn [length seq map combine assign_line_ids]. cbn [concat] in Hnd.
    destruct k as [| k].
    + cbn in Hk. injection Hk as ->.
      rewrite assign_line_ids_notin.
      * rewrite Nat.add_0_r. now apply assign_line_in.
      * exact (NoDup_app_disjoint _ _ _ b Hnd Hin).
    + cbn in Hk.
      rewrite (IH (S start) _ k line b); [f_equal; lia | | assumption | assumption].
      eapply NoDup_app_remove_l. exact Hnd.
Qed.

Lemma NoDup_concat_unique :
  forall (A : Type) (lines : list (list A)) (i j : nat) (li lj : list A) (b : A),
    NoDup (concat lines) ->
    nth_error lines i = Some li -> nth_error lines j = Some lj ->
    In b li -> In b lj -> i = j.
Proof.
  intros A. induction lines as [| line rest IH]; intros i j li lj b Hnd Hi Hj Hbi Hbj.
  - destruct i; discriminate Hi.
  - cbn [concat] in Hnd.
    pose proof (NoDup_app_disjoint _ _ _ b Hnd) as Hdisj.
    pose proof (NoDup_app_remove_l _ _ Hnd) as Hrest.
    destruct i as [| i], j as [| j]; cbn in Hi, Hj.
    + reflexivity.
    + injection Hi as ->. exfalso. apply (Hdisj Hbi).
      apply in_concat. exists lj. split; [eapply nth_error_In; eassumption | assumption].
    + injection Hj as ->. exfalso. apply (Hdisj Hbj).
      apply in_concat. exists li. split; [eapply nth_error_In; eassumption | assumption].
    + f_equal. eapply IH; eassumption.
Qed.

Lemma group_into_lines_perm :
  forall (h : heap) (boxes : list loc) (y_overlap_threshold : Q),
    NoDup (map (fun b => id (h b)) boxes) ->
    Permutation (concat (snd (group_into_lines h boxes y_overlap_threshold))) boxes.
Proof.
  intros h boxes thr Hids. unfold group_into_lines.
  destruct boxes as [| box0 rest] eqn:Hboxes; cbn [is_empty snd].
  - apply perm_nil.
  - rewrite <- Hboxes in *. clear Hboxes.
    set (sorted_boxes := sorted (fun b => center_y (h b)) boxes).
    assert (Hsorted : Permutation sorted_boxes boxes) by apply sorted_perm.
    eapply perm_trans; [apply Permutation_concat_lists, sorted_perm |].
    eapply perm_trans; [| exact Hsorted].
    apply build_lines_partition.
    eapply Permutation_NoDup; [| exact Hids].
    apply Permutation_map, Permutation_sym, Hsorted.
Qed.

(** C4: when the ids of the input boxes are pairwise distinct, the lines
    returned by [group_into_lines] hold exactly the input boxes, each once;
    no box is on two lines; and every input box is on a line whose index is
    the [line_id] the box carries afterwards. *)
Theorem group_into_lines_partition :
  forall (h : heap) (boxes : list loc) (y_overlap_threshold : Q),
    NoDup (map (fun b => id (h b)) boxes) ->
    let h' := fst (group_into_lines h boxes y_overlap_threshold) in
    let lines := snd (group_into_lines h boxes y_overlap_threshold) in
    Permutation (concat lines) boxes
    /\ (forall i j li lj b,
          nth_error lines i = Some li -> nth_error lines j = Some lj ->
          In b li -> In b lj -> i = j)
    /\ (forall b, In b boxes ->
          exists k line,
            nth_error lines k = Some line /\ In b line
            /\ line_id (h' b) = Z.of_nat k).
Proof.
  intros h boxes thr Hids h' lines.
  assert (Hperm : Permutation (concat lines) boxes)
    by (apply group_into_lines_perm; exact Hids).
  assert (Hnd : NoDup (concat lines)).
  { eapply Permutation_NoDup; [apply Permutation_sym, Hperm |].
    eapply NoDup_map_inv. exact Hids. }
  split; [exact Hperm | split].
  - intros i j li lj b. now apply NoDup_concat_unique.
  - intros b Hb.
    assert (Hin : In b (concat lines))
      by (eapply Permutation_in; [apply Permutation_sym, Hperm | exact Hb]).
    apply in_concat in Hin. destruct Hin as (line & Hline & Hbline).
    apply In_nth_error in Hline. destruct Hline as [k Hk].
    exists k, line. split; [exact Hk | split; [exact Hbline |]].
    subst h' lines. revert Hnd Hk. unfold group_into_lines.
    destruct (is_empty boxes); cbn [fst snd].
    + intros _ Hk. destruct k; discriminate Hk.
    + intros Hnd Hk. unfold enumerate.
      rewrite (assign_line_ids_enumerated _ 0%nat h k line b Hnd Hk Hbline).
      reflexivity.
Qed.

(** [NoDup] of a list of concrete numbers. *)
Ltac nodup_concrete :=
  vm_compute;
  repeat (apply NoDup_cons; [cbn; intuition discriminate |]);
  apply NoDup_nil.

Lemma group_into_lines_partition_witness :
  NoDup (map (fun b => id (alloc sample_boxes b)) (refs sample_boxes))
  /\ (let h' := fst (group_into_lines (alloc sample_boxes) (refs sample_boxes)
                       default_y_overlap_threshold) in
      let lines := snd (group_into_lines (alloc sample_boxes) (refs sample_boxes)
                          default_y_overlap_threshold) in
      Permutation (concat lines) (refs sample_boxes)
      /\ (forall i j li lj b,
            nth_error lines i = Some li -> nth_error lines j = Some lj ->
            In b li -> In b lj -> i = j)
      /\ (forall b, In b (refs sample_boxes) ->
            exists k line,
              nth_error lines k = Some line /\ In b line
              /\ line_id (h' b) = Z.of_nat k)).
Proof.
  split.
  - nodup_concrete.
  - apply (group_into_lines_partition (alloc sample_boxes) (refs sample_boxes)
             default_y_overlap_threshold).
    nodup_concrete.
Defined.

(** ** Boxes of invalid geometry *)

Lemma py_getitem_of_nat_inv :
  forall (A : Type) (l : list A) (k : nat) (a : A),
    py_getitem l (Z.of_nat k) = Ok a -> nth_error l k = Some a.
Proof.
  intros A l k a. unfold py_getitem.
  destruct (lt_dec k (length l)) as [Hlt | Hge].
  - rewrite py_index_of_nat by exact Hlt.
    destruct (nth_error l k); [intro H; now inversion H | discriminate].
  - unfold py_index.
    destruct (Z.ltb_spec (Z.of_nat k) 0); [lia |].
    destruct (Z.ltb_spec (Z.of_nat k) 0); [lia |].
    destruct (Z.leb_spec (Z.of_nat (length l)) (Z.of_nat k)); [| lia].
    cbn [orb]. discriminate.
Qed.

Lemma parse_loop_keeps_all :
  forall (detections : list Detection) (acc boxes : list DetectionBox),
    parse_loop detections acc = Ok boxes ->
    exists new,
      boxes = acc ++ new
      /\ length new = length detections
      /\ forall i det,
           nth_error detections i = Some det ->
           exists b,
             nth_error new i = Some b
             /\ [x1 b; y1 b; x2 b; y2 b] = firstn 4 (get_default (det_box det) [0; 0; 0; 0]).
Proof.
  induction detections as [| det rest IH]; intros acc boxes Hparse; cbn [parse_loop] in Hparse.
  - inversion Hparse; subst. exists []. rewrite app_nil_r.
    split; [reflexivity | split; [reflexivity |]].
    intros i det Hi. destruct i; discriminate Hi.
  - set (box_coords := get_default (det_box det) [0; 0; 0; 0]) in *.
    destruct (py_getitem box_coords 0) as [c0 |] eqn:E0; [| discriminate Hparse].
    destruct (py_getitem box_coords 1) as [c1 |] eqn:E1; [| discriminate Hparse].
    destruct (py_getitem box_coords 2) as [c2 |] eqn:E2; [| discriminate Hparse].
    destruct (py_getitem box_coords 3) as [c3 |] eqn:E3; [| discriminate Hparse].
    cbn [bind] in Hparse.
    apply IH in Hparse. destruct Hparse as (new & Hboxes & Hlen & Hcoords).
    eexists (_ :: new). split; [| split].
    + rewrite Hboxes, <- app_assoc. reflexivity.
    + cbn [length]. now rewrite Hlen.
    + intros i det' Hi. destruct i as [| i]; [| now apply Hcoords].
      cbn in Hi. injection Hi as <-. eexists. split; [reflexivity |].
      cbn [x1 y1 x2 y2]. fold box_coords.
      apply (py_getitem_of_nat_inv _ box_coords 0) in E0.
      apply (py_getitem_of_nat_inv _ box_coords 1) in E1.
      apply (py_getitem_of_nat_inv _ box_coords 2) in E2.
      apply (py_getitem_of_nat_inv _ box_coords 3) in E3.
      destruct box_coords as [| a0 [| a1 [| a2 [| a3 more]]]]; cbn in *; congruence.
Qed.

(** C3, as the code has it: no box is rejected for its geometry.
    [parse_detections] builds one box per detection with the coordinates as
    they were given, and [group_into_lines], for input of pairwise distinct
    ids, puts every input box on a line, those with [x2 <= x1] or [y2 <= y1]
    like the others. *)
Theorem invalid_geometry_is_clustered :
  (forall (detections : list Detection) (boxes : list DetectionBox),
      parse_detections (Some detections) = Ok boxes ->
      length boxes = length detections
      /\ forall i det,
           nth_error detections i = Some det ->
           exists b,
             nth_error boxes i = Some b
             /\ [x1 b; y1 b; x2 b; y2 b] = firstn 4 (get_default (det_box det) [0; 0; 0; 0]))
  /\ (forall (h : heap) (boxes : list loc) (y_overlap_threshold : Q) (b : loc),
        NoDup (map (fun b => id (h b)) boxes) ->
        In b boxes ->
        In b (concat (snd (group_into_lines h boxes y_overlap_threshold)))).
Proof.
  split.
  - intros detections boxes Hparse. unfold parse_detections in Hparse.
    cbn [get_default] in Hparse.
    apply parse_loop_keeps_all in Hparse.
    destruct Hparse as (new & Hboxes & Hlen & Hcoords).
    cbn [app] in Hboxes. subst new. split; assumption.
  - intros h boxes thr b Hids Hb.
    eapply Permutation_in; [| exact Hb].
    apply Permutation_sym, group_into_lines_perm, Hids.
Qed.

Lemma invalid_geometry_is_clustered_witness :
  In 2%nat (concat (snd (group_into_lines (alloc sample_boxes) (refs sample_boxes)
                           default_y_overlap_threshold))).
Proof.
  apply (proj2 invalid_geometry_is_clustered).
  - nodup_concrete.
  - vm_compute. intuition.
Defined.

(** The claim as the specification states it fails: the zero-width box
    [[10,100,10,140]] and the zero-height box [[0,200,50,200]] are parsed and
    each ends up on an output line. *)
Lemma invalid_geometry_not_rejected :
  parse_detections (Some sample_detections) = Ok sample_boxes
  /\ (exists b, nth_error sample_boxes 2 = Some b /\ x2 b <= x1 b)
  /\ (exists b, nth_error sample_boxes 3 = Some b /\ y2 b <= y1 b)
  /\ snd (group_into_lines (alloc sample_boxes) (refs sample_boxes)
            default_y_overlap_threshold)
     = [[0; 1]; [2]; [3]]%nat.
Proof.
  split; [reflexivity | split; [| split]].
  - eexists. split; [reflexivity | cbn; lia].
  - eexists. split; [reflexivity | cbn; lia].
  - vm_compute. reflexivity.
Qed.

(** ** Greedy matching *)

Lemma length_list_set :
  forall (A : Type) (l : list A) (k : nat) (v : A), length (list_set l k v) = length l.
Proof.
  intros A. induction l as [| x l IH]; intros k v; [reflexivity |].
  destruct k; cbn; [reflexivity | now rewrite IH].
Qed.

Lemma count_true_le_length : forall l, (count_true l <= length l)%nat.
Proof.
  induction l as [| [|] l IH]; cbn; lia.
Qed.

Lemma count_true_list_set :
  forall (l : list bool) (k : nat),
    nth_error l k = Some false ->
    count_true (list_set l k true) = S (count_true l).
Proof.
  induction l as [| x l IH]; intros k Hk; [destruct k; discriminate Hk |].
  destruct k as [| k]; cbn in *.
  - injection Hk as ->. reflexivity.
  - rewrite IH by exact Hk. lia.
Qed.

Lemma count_true_app :
  forall l l', count_true (l ++ l') = (count_true l + count_true l')%nat.
Proof.
  induction l as [| [|] l IH]; intro l'; cbn; rewrite ?IH; lia.
Qed.

Section Matching.
Variable ground_truths : list GroundTruth.
Variable iou_threshold : Q.

Lemma best_ok_nonneg :
  forall gt_matched best_iou best_gt_idx,
    best_ok gt_matched best_iou best_gt_idx -> (0 <= best_iou)%Q.
Proof.
  intros gm bi bidx [[_ H] | (_ & _ & H)].
  - rewrite H. apply Qle_refl.
  - now apply Qlt_le_weak.
Qed.

(** The inner loop never raises, and keeps [best_ok]. *)
Lemma find_best_gt_ok :
  forall (pred_box : Box) (gts : list GroundTruth) (gt_matched : list bool)
         (k : nat) (best_iou : Q) (best_gt_idx : Z),
    (k + length gts = length gt_matched)%nat ->
    best_ok gt_matched best_iou best_gt_idx ->
    exists best_iou' best_gt_idx',
      find_best_gt pred_box gts gt_matched (Z.of_nat k) best_iou best_gt_idx
      = Ok (best_iou', best_gt_idx')
      /\ best_ok gt_matched best_iou' best_gt_idx'.
Proof.
  intros pred_box. induction gts as [| gt rest IH];
    intros gm k bi bidx Hlen Hok; cbn [find_best_gt].
  - exists bi, bidx. split; [reflexivity | assumption].
  - cbn [length] in Hlen.
    destruct (nth_error gm k) as [m |] eqn:Hm.
    2:{ apply nth_error_None in Hm. lia. }
    rewrite (py_getitem_of_nat _ gm k m Hm). cbn [bind].
    replace (Z.of_nat k + 1) with (Z.of_nat (S k)) by lia.
    destruct m.
    + apply IH; [lia | assumption].
    + destruct (Qlt_bool bi (calculate_iou pred_box (gt_box gt))) eqn:Hlt.
      * apply IH; [lia |]. right. rewrite Nat2Z.id.
        split; [lia | split; [exact Hm |]].
        apply Qlt_bool_iff in Hlt.
        eapply Qle_lt_trans; [eapply best_ok_nonneg; eassumption | exact Hlt].
      * apply IH; [lia | assumption].
Qed.

(** The loop over the predictions never raises. Its flags are one 0/1 pair
    per prediction; for a positive threshold every true positive sets a
    flag of [gt_matched] that was clear. *)
Lemma match_predictions_ok :
  forall (preds : list Prediction) (st : MatchState),
    (0 < length ground_truths)%nat ->
    length (gt_matched st) = length ground_truths ->
    exists st' flags,
      match_predictions preds ground_truths iou_threshold st = Ok st'
      /\ length (gt_matched st') = length ground_truths
      /\ tp st' = tp st ++ map Z.b2z flags
      /\ fp st' = fp st ++ map (fun b => Z.b2z (negb b)) flags
      /\ length flags = length preds
      /\ ((0 < iou_threshold)%Q ->
          count_true (gt_matched st')
          = (count_true (gt_matched st) + count_true flags)%nat).
Proof.
  induction preds as [| pred rest IH]; intros st Hpos Hlen; cbn [match_predictions].
  - exists st, []. cbn. rewrite !app_nil_r.
    repeat split; try reflexivity; try assumption. intros _. lia.
  - destruct (find_best_gt_ok (pred_box pred) ground_truths (gt_matched st) 0 0%Q (-1))
      as (bi & bidx & Hfind & Hok).
    { cbn. lia. }
    { left. split; [reflexivity | apply Qeq_refl]. }
    change (Z.of_nat 0) with 0 in Hfind. rewrite Hfind. cbn [bind].
    destruct (Qle_bool iou_threshold bi) eqn:Hthr.
    + assert (Hset : exists k,
                 py_setitem (gt_matched st) bidx true = Ok (list_set (gt_matched st) k true)
                 /\ ((0 < iou_threshold)%Q -> nth_error (gt_matched st) k = Some false)).
      { destruct Hok as [[Hidx Hzero] | (Hidx & Hnth & Hbi)].
        - subst bidx. exists (length (gt_matched st) - 1)%nat.
          unfold py_setitem. rewrite py_index_last by lia.
          split; [reflexivity |]. intro Hthr_pos. exfalso.
          apply Qle_bool_iff in Hthr. rewrite Hzero in Hthr.
          exact (Qlt_not_le _ _ Hthr_pos Hthr).
        - exists (Z.to_nat bidx). unfold py_setitem.
          assert (Hlt : (Z.to_nat bidx < length (gt_matched st))%nat)
            by (apply nth_error_Some; congruence).
          rewrite <- (Z2Nat.id bidx) at 1 by exact Hidx.
          rewrite py_index_of_nat by exact Hlt.
          split; [reflexivity | intros _; exact Hnth]. }
      destruct Hset as (k & Hset & Hfresh). rewrite Hset. cbn [bind].
      destruct (IH (mkMatchState (list_set (gt_matched st) k true)
                      (tp st ++ [1]) (fp st ++ [0])) Hpos)
        as (st' & flags & Hrun & Hlen' & Htp & Hfp & Hflags & Hcount).
      { cbn [gt_matched]. now rewrite length_list_set. }
      exists st', (true :: flags). cbn [gt_matched tp fp] in *.
      split; [exact Hrun | split; [exact Hlen' |]].
      split; [rewrite Htp, <- app_assoc; reflexivity |].
      split; [rewrite Hfp, <- app_assoc; reflexivity |].
      split; [cbn; now rewrite Hflags |].
      intro Hthr_pos. rewrite (Hcount Hthr_pos).
      rewrite count_true_list_set by (now apply Hfresh). cbn [count_true]. lia.
    + destruct (IH (mkMatchState (gt_matched st) (tp st ++ [0]) (fp st ++ [1])) Hpos Hlen)
        as (st' & flags & Hrun & Hlen' & Htp & Hfp & Hflags & Hcount).
      exists st', (false :: flags). cbn [gt_matched tp fp] in *.
      split; [exact Hrun | split; [exact Hlen' |]].
      split; [rewrite Htp, <- app_assoc; reflexivity |].
      split; [rewrite Hfp, <- app_assoc; reflexivity |].
      split; [cbn; now rewrite Hflags |].
      intro Hthr_pos. rewrite (Hcount Hthr_pos). cbn [count_true]. lia.
Qed.
End Matching.

(** ** Average Precision *)

Lemma py_index_out_of_range :
  forall (n k : nat), (n <= k)%nat -> py_index n (Z.of_nat k) = None.
Proof.
  intros n k H. unfold py_index.
  destruct (Z.ltb_spec (Z.of_nat k) 0); [lia |].
  destruct (Z.ltb_spec (Z.of_nat k) 0); [lia |].
  destruct (Z.leb_spec (Z.of_nat n) (Z.of_nat k)); [reflexivity | lia].
Qed.

Lemma py_setitem_of_nat :
  forall (A : Type) (l : list A) (k : nat) (v : A),
    (k < length l)%nat -> py_setitem l (Z.of_nat k) v = Ok (list_set l k v).
Proof.
  intros A l k v Hlt. unfold py_setitem. now rewrite py_index_of_nat.
Qed.

Lemma py_getitem_cons_succ :
  forall (A : Type) (x : A) (l : list A) (k : nat),
    py_getitem (x :: l) (Z.of_nat (S k)) = py_getitem l (Z.of_nat k).
Proof.
  intros A x l k. unfold py_getitem. cbn [length].
  destruct (lt_dec k (length l)) as [Hlt | Hge].
  - rewrite !py_index_of_nat by lia. reflexivity.
  - rewrite !py_index_out_of_range by lia. reflexivity.
Qed.

Lemma py_setitem_cons_succ :
  forall (A : Type) (x : A) (l : list A) (k : nat) (v : A),
    py_setitem (x :: l) (Z.of_nat (S k)) v
    = (l' <- py_setitem l (Z.of_nat k) v ;; Ok (x :: l')).
Proof.
  intros A x l k v. unfold py_setitem. cbn [length].
  destruct (lt_dec k (length l)) as [Hlt | Hge].
  - rewrite !py_index_of_nat by lia. reflexivity.
  - rewrite !py_index_out_of_range by lia. reflexivity.
Qed.

Lemma monotone_loop_app :
  forall (idxs idxs' : list Z) (precisions : list Q),
    monotone_loop (idxs ++ idxs') precisions
    = (precisions' <- monotone_loop idxs precisions ;; monotone_loop idxs' precisions').
Proof.
  induction idxs as [| i rest IH]; intros idxs' precisions; cbn [app monotone_loop].
  - reflexivity.
  - destruct (py_getitem precisions i) as [a |]; cbn [bind]; [| reflexivity].
    destruct (py_getitem precisions (i + 1)) as [b |]; cbn [bind]; [| reflexivity].
    destruct (py_setitem precisions i (py_max a b)); cbn [bind]; [apply IH | reflexivity].
Qed.

(** Running the loop on positions past the head leaves the head alone. *)
Lemma monotone_loop_shift :
  forall (ks : list nat) (x : Q) (l : list Q),
    monotone_loop (map (fun k => Z.of_nat (S k)) ks) (x :: l)
    = (l' <- monotone_loop (map Z.of_nat ks) l ;; Ok (x :: l')).
Proof.
  induction ks as [| k rest IH]; intros x l; cbn [map monotone_loop].
  - reflexivity.
  - replace (Z.of_nat (S k) + 1) with (Z.of_nat (S (S k))) by lia.
    rewrite !py_getitem_cons_succ.
    replace (Z.of_nat k + 1) with (Z.of_nat (S k)) by lia.
    destruct (py_getitem l (Z.of_nat k)) as [a |]; cbn [bind]; [| reflexivity].
    destruct (py_getitem l (Z.of_nat (S k))) as [b |]; cbn [bind]; [| reflexivity].
    rewrite py_setitem_cons_succ.
    destruct (py_setitem l (Z.of_nat k) (py_max a b)) as [l' |]; cbn [bind];
      [apply IH | reflexivity].
Qed.

Lemma length_envelope : forall p, length (envelope p) = length p.
Proof.
  induction p as [| x rest IH]; [reflexivity |].
  cbn [envelope]. revert IH. destruct (envelope rest); cbn [length]; intro IH; lia.
Qed.

Lemma range_down_succ :
  forall m : nat,
    range_down (S m) = map (fun k => Z.of_nat (S k)) (rev (seq 0 m)) ++ [0].
Proof.
  intro m. unfold range_down, range. rewrite Nat.sub_0_r.
  cbn [seq map rev]. rewrite <- seq_shift, !map_map, map_rev. reflexivity.
Qed.

(** The first loop of [calculate_ap] computes the running maximum. *)
Lemma monotone_loop_envelope :
  forall precisions : list Q,
    monotone_loop (range_down (length precisions - 1)) precisions
    = Ok (envelope precisions).
Proof.
  induction precisions as [| x rest IH]; [reflexivity |].
  cbn [length]. replace (S (length rest) - 1)%nat with (length rest) by lia.
  destruct rest as [| y rest']; [reflexivity |].
  remember (y :: rest') as rest eqn:Hrest.
  assert (Hlen : length rest = S (length rest')) by (subst rest; reflexivity).
  rewrite Hlen in *. rewrite range_down_succ, monotone_loop_app, monotone_loop_shift.
  replace (S (length rest') - 1)%nat with (length rest') in IH by lia.
  unfold range_down, range in IH. rewrite Nat.sub_0_r, <- map_rev in IH.
  rewrite IH. cbn [bind envelope].
  pose proof (length_envelope rest) as Hle.
  destruct (envelope rest) as [| q e]; [cbn in Hle; lia |].
  cbn [monotone_loop].
  pose proof (py_getitem_of_nat _ (x :: q :: e) 0 x eq_refl) as H0.
  pose proof (py_getitem_of_nat _ (x :: q :: e) 1 q eq_refl) as H1.
  pose proof (py_setitem_of_nat _ (x :: q :: e) 0 (py_max x q)) as H2.
  cbn [Z.of_nat Pos.of_succ_nat Pos.succ] in H0, H1, H2.
  change (0 + 1) with 1. rewrite H0, H1. cbn [bind].
  rewrite H2 by (cbn; lia). reflexivity.
Qed.

(** The second loop of [calculate_ap] accumulates [ap_sum]. *)
Lemma ap_loop_sum :
  forall (rs ps beforeR beforeP : list Q) (r_prev p_prev ap : Q) (recalls precisions : list Q),
    recalls = beforeR ++ r_prev :: rs ->
    precisions = beforeP ++ p_prev :: ps ->
    length beforeR = length beforeP ->
    length ps = length rs ->
    ap_loop (map Z.of_nat (seq (S (length beforeR)) (length rs))) precisions recalls ap
    = Ok (ap_sum r_prev rs ps ap).
Proof.
  induction rs as [| r rs' IH];
    intros ps beforeR beforeP r_prev p_prev ap recalls precisions HR HP Hbefore Hlen.
  - destruct ps; reflexivity.
  - destruct ps as [| p ps']; [discriminate Hlen |].
    cbn [length seq map ap_loop ap_sum].
    rewrite (py_getitem_of_nat _ recalls (S (length beforeR)) r).
    2:{ rewrite HR, nth_error_app2 by lia.
        replace (S (length beforeR) - length beforeR)%nat with 1%nat by lia. reflexivity. }
    replace (Z.of_nat (S (length beforeR)) - 1) with (Z.of_nat (length beforeR)) by lia.
    rewrite (py_getitem_of_nat _ recalls (length beforeR) r_prev).
    2:{ rewrite HR, nth_error_app2 by lia. rewrite Nat.sub_diag. reflexivity. }
    cbn [bind].
    assert (Hnext :
              forall ap',
                ap_loop (map Z.of_nat (seq (S (S (length beforeR))) (length rs')))
                  precisions recalls ap'
                = Ok (ap_sum r rs' ps' ap')).
    { intro ap'.
      specialize (IH ps' (beforeR ++ [r_prev]) (beforeP ++ [p_prev]) r p ap' recalls precisions).
      rewrite !length_app in IH. cbn [length] in IH.
      replace (length beforeR + 1)%nat with (S (length beforeR)) in IH by lia.
      apply IH.
      - rewrite <- app_assoc. exact HR.
      - rewrite <- app_assoc. exact HP.
      - lia.
      - cbn [length] in Hlen. lia. }
    destruct (negb (Qeq_bool r r_prev)).
    + rewrite (py_getitem_of_nat _ precisions (S (length beforeR)) p).
      2:{ rewrite HP, nth_error_app2 by lia.
          replace (S (length beforeR) - length beforeP)%nat with 1%nat by lia. reflexivity. }
      cbn [bind]. apply Hnext.
    + apply Hnext.
Qed.

(** [calculate_ap] on two lists of one length never raises; this is what it
    returns. *)
Lemma calculate_ap_eq :
  forall precisions recalls : list Q,
    length precisions = length recalls ->
    calculate_ap precisions recalls
    = Ok (ap_sum 0 (recalls ++ [1%Q]) (tl (envelope (0%Q :: precisions ++ [0%Q]))) 0%Q).
Proof.
  intros precisions recalls Hlen. unfold calculate_ap.
  rewrite monotone_loop_envelope. cbn [bind].
  pose proof (length_envelope ([0%Q] ++ precisions ++ [0%Q])) as Hle.
  cbn [app] in *.
  destruct (envelope (0%Q :: precisions ++ [0%Q])) as [| e0 es]; [discriminate Hle |].
  cbn [tl]. unfold range. cbn [length]. rewrite Nat.sub_succ, Nat.sub_0_r.
  apply (ap_loop_sum (recalls ++ [1%Q]) es [] [] 0%Q e0 0%Q); try reflexivity.
  cbn [length] in Hle. rewrite !length_app in *. cbn [length] in *. lia.
Qed.

Lemma nondecreasing_final :
  forall (l : list Q) (prev : Q), nondecreasing prev l -> (prev <= final prev l)%Q.
Proof.
  induction l as [| x l IH]; intros prev H; cbn [final].
  - apply Qle_refl.
  - destruct H as [Hx Hl]. eapply Qle_trans; [exact Hx | now apply IH].
Qed.

Lemma nondecreasing_weaken :
  forall (l : list Q) (prev prev' : Q),
    (prev' <= prev)%Q -> nondecreasing prev l -> nondecreasing prev' l.
Proof.
  intros [| x l] prev prev' Hle H; [exact I |].
  destruct H as [Hx Hl]. split; [eapply Qle_trans; eassumption | exact Hl].
Qed.

Lemma final_app_last : forall (l : list Q) (prev x : Q), final prev (l ++ [x]) = x.
Proof.
  induction l as [| y l IH]; intros prev x; cbn; [reflexivity | apply IH].
Qed.

(** With recalls that never decrease and precisions between 0 and 1, the sum
    grows by at most the span of the recalls. *)
Lemma ap_sum_bounds :
  forall (rs ps : list Q) (r_prev ap : Q),
    nondecreasing r_prev rs ->
    Forall unit_interval ps ->
    (ap <= ap_sum r_prev rs ps ap
     /\ ap_sum r_prev rs ps ap <= ap + (final r_prev rs - r_prev))%Q.
Proof.
  induction rs as [| r rs' IH]; intros ps r_prev ap Hmono Hunit.
  - cbn. split; lra.
  - destruct Hmono as [Hr Hmono].
    pose proof (nondecreasing_final rs' r Hmono) as Hfinal.
    destruct ps as [| p ps']; cbn [ap_sum final].
    + split; lra.
    + inversion Hunit as [| p' ps'' [Hp0 Hp1] Hunit']; subst.
      assert (Hterm : (0 <= (r - r_prev) * p /\ (r - r_prev) * p <= r - r_prev)%Q).
      { split; [apply Qmult_le_0_compat; lra |].
        apply Qle_trans with (1 * (r - r_prev))%Q; [| lra].
        rewrite (Qmult_comm (r - r_prev) p). apply Qmult_le_compat_r; lra. }
      destruct (negb (Qeq_bool r r_prev)).
      * destruct (IH ps' r (ap + (r - r_prev) * p)%Q Hmono Hunit') as [Hlo Hhi].
        split; lra.
      * destruct (IH ps' r ap Hmono Hunit') as [Hlo Hhi].
        split; lra.
Qed.

Lemma py_max_cases : forall a b : Q, py_max a b = a \/ py_max a b = b.
Proof.
  intros a b. unfold py_max. destruct (Qlt_bool a b); auto.
Qed.

Lemma envelope_unit :
  forall p : list Q, Forall unit_interval p -> Forall unit_interval (envelope p).
Proof.
  induction p as [| x rest IH]; intro H; [constructor |].
  inversion H as [| x' rest' Hx Hrest]; subst.
  specialize (IH Hrest). cbn [envelope].
  destruct (envelope rest) as [| q e]; [constructor; [exact Hx | constructor] |].
  constructor; [| exact IH].
  destruct (py_max_cases x q) as [-> | ->]; [exact Hx |].
  now inversion IH.
Qed.

Lemma inject_Z_div_unit :
  forall t s : Z, 0 <= t <= s -> 0 < s -> unit_interval (inject_Z t / inject_Z s).
Proof.
  intros t s Ht Hs.
  assert (Hs' : (0 < inject_Z s)%Q)
    by (change 0%Q with (inject_Z 0); rewrite <- Zlt_Qlt; exact Hs).
  split.
  - apply Qle_shift_div_l; [exact Hs' |]. rewrite Qmult_0_l.
    change 0%Q with (inject_Z 0). rewrite <- Zle_Qle. lia.
  - apply Qle_shift_div_r; [exact Hs' |]. rewrite Qmult_1_l. rewrite <- Zle_Qle. lia.
Qed.

Lemma inject_Z_div_le :
  forall t t' s : Z, t <= t' -> 0 < s -> (inject_Z t / inject_Z s <= inject_Z t' / inject_Z s)%Q.
Proof.
  intros t t' s Ht Hs. unfold Qdiv.
  apply Qmult_le_compat_r; [rewrite <- Zle_Qle; exact Ht |].
  apply Qinv_le_0_compat. change 0%Q with (inject_Z 0). rewrite <- Zle_Qle. lia.
Qed.

Lemma length_cumsum_from : forall l acc, length (cumsum_from acc l) = length l.
Proof.
  induction l as [| x l IH]; intro acc; cbn; [reflexivity | now rewrite IH].
Qed.

Lemma fold_left_add_b2z :
  forall (flags : list bool) (acc : Z),
    fold_left Z.add (map Z.b2z flags) acc = acc + Z.of_nat (count_true flags).
Proof.
  induction flags as [| f flags IH]; intro acc; cbn [map fold_left count_true].
  - lia.
  - rewrite IH. destruct f; cbn [Z.b2z]; lia.
Qed.

Lemma sumZ_b2z :
  forall flags : list bool, sumZ (map Z.b2z flags) = Z.of_nat (count_true flags).
Proof.
  intro flags. unfold sumZ. now rewrite fold_left_add_b2z.
Qed.

(** The cumulative precisions of a run of true/false positives. *)
Lemma precisions_unit :
  forall (flags : list bool) (a b : Z),
    0 <= a -> 0 <= b ->
    Forall unit_interval
      (precisions_of (cumsum_from a (map Z.b2z flags))
                     (cumsum_from b (map (fun f => Z.b2z (negb f)) flags))).
Proof.
  unfold precisions_of.
  induction flags as [| f flags IH]; intros a b Ha Hb; cbn [map cumsum_from combine].
  - constructor.
  - constructor.
    + apply inject_Z_div_unit; destruct f; cbn [Z.b2z negb]; lia.
    + apply IH; destruct f; cbn [Z.b2z negb]; lia.
Qed.

(** The cumulative recalls, closed by the sentinel 1, never decrease as long
    as the true positives do not outnumber the ground truths. *)
Lemma recalls_nondecreasing :
  forall (flags : list bool) (a num_gt : Z),
    0 <= a -> a + Z.of_nat (count_true flags) <= num_gt -> 0 < num_gt ->
    nondecreasing (inject_Z a / inject_Z num_gt)
      (recalls_of (cumsum_from a (map Z.b2z flags)) num_gt ++ [1%Q]).
Proof.
  unfold recalls_of.
  induction flags as [| f flags IH]; intros a n Ha Hle Hn;
    cbn [map cumsum_from count_true app nondecreasing] in *.
  - split; [| exact I]. apply inject_Z_div_unit; lia.
  - split.
    + apply inject_Z_div_le; [destruct f; cbn [Z.b2z]; lia | exact Hn].
    + apply IH; destruct f; cbn [Z.b2z] in *; lia.
Qed.

Lemma py_getitem_last :
  forall (A : Type) (l : list A), l <> [] -> exists a, py_getitem l (-1) = Ok a.
Proof.
  intros A l Hne. unfold py_getitem.
  assert (Hpos : (0 < length l)%nat) by (destruct l; [contradiction | cbn; lia]).
  rewrite py_index_last by exact Hpos.
  destruct (nth_error l (length l - 1)) as [a |] eqn:E; [now exists a |].
  apply nth_error_None in E. lia.
Qed.

(** ** [evaluate_detection] as a whole *)

Lemma last_or_zero_ok : forall xs : list Q, exists a, last_or_zero xs = Ok a.
Proof.
  intros [| x xs]; unfold last_or_zero; cbn [length Nat.ltb Nat.leb].
  - now exists 0%Q.
  - apply py_getitem_last. discriminate.
Qed.

Lemma count_true_repeat_false : forall n, count_true (repeat false n) = 0%nat.
Proof.
  induction n as [| n IH]; cbn; [reflexivity | exact IH].
Qed.

(** [evaluate_detection] never raises; and when the threshold is positive
    its AP lies between 0 and 1 and its true positives are at most the
    ground truths. *)
Lemma evaluate_detection_run :
  forall (predictions : list Prediction) (ground_truths : list GroundTruth)
         (iou_threshold : Q),
    exists r,
      evaluate_detection predictions ground_truths iou_threshold = Ok r
      /\ ((0 < iou_threshold)%Q ->
          unit_interval (ap r)
          /\ forall c, counts r = Some c ->
               0 <= true_positives c <= num_ground_truths c
               /\ 0 <= false_negatives c).
Proof.
  intros predictions ground_truths thr.
  destruct predictions as [| pred preds].
  { destruct ground_truths; eexists; (split; [reflexivity |]); intros _;
      (split; [unfold unit_interval; cbn [ap]; lra | intros c Hc; discriminate Hc]). }
  destruct ground_truths as [| gt gts].
  { eexists; split; [reflexivity |]; intros _;
      (split; [unfold unit_interval; cbn [ap]; lra | intros c Hc; discriminate Hc]). }
  unfold evaluate_detection. cbn [is_empty andb].
  assert (Hgts : (0 < length (gt :: gts))%nat) by (cbn; lia).
  generalize dependent (gt :: gts). intros ground_truths Hgts.
  set (sorted_preds := sorted_reverse confidence_key (pred :: preds)).
  destruct (match_predictions_ok ground_truths thr sorted_preds
              (mkMatchState (repeat false (length ground_truths)) [] []) Hgts)
    as (st & flags & Hrun & Hlen & Htp & Hfp & Hflags & Hcount).
  { cbn [gt_matched]. apply repeat_length. }
  cbn [gt_matched tp fp app] in Htp, Hfp, Hcount.
  rewrite Hrun. cbn [bind]. rewrite Htp, Hfp. unfold np_cumsum.
  set (tp_cumsum := cumsum_from 0 (map Z.b2z flags)).
  set (fp_cumsum := cumsum_from 0 (map (fun b => Z.b2z (negb b)) flags)).
  set (num_gt := Z.of_nat (length ground_truths)).
  rewrite calculate_ap_eq.
  2:{ unfold precisions_of, recalls_of, tp_cumsum, fp_cumsum.
      rewrite !length_map, length_combine, !length_cumsum_from, !length_map. lia. }
  cbn [bind].
  destruct (last_or_zero_ok (precisions_of tp_cumsum fp_cumsum)) as [final_precision ->].
  destruct (last_or_zero_ok (recalls_of tp_cumsum num_gt)) as [final_recall ->].
  cbn [bind]. eexists. split; [reflexivity |].
  intro Hthr. cbn [ap counts].
  assert (Hmatched : (count_true flags <= length ground_truths)%nat).
  { specialize (Hcount Hthr). rewrite count_true_repeat_false in Hcount.
    rewrite <- Hlen. cbn [Nat.add] in Hcount. rewrite <- Hcount.
    apply count_true_le_length. }
  split.
  - destruct (ap_sum_bounds (recalls_of tp_cumsum num_gt ++ [1%Q])
                (tl (envelope (0%Q :: precisions_of tp_cumsum fp_cumsum ++ [0%Q])))
                0%Q 0%Q) as [Hlo Hhi].
    + apply nondecreasing_weaken with (prev := (inject_Z 0 / inject_Z num_gt)%Q).
      * apply inject_Z_div_unit; unfold num_gt; lia.
      * apply recalls_nondecreasing; unfold num_gt; lia.
    + assert (Hall : Forall unit_interval
                       (envelope (0%Q :: precisions_of tp_cumsum fp_cumsum ++ [0%Q]))).
      { apply envelope_unit. constructor; [unfold unit_interval; lra |].
        apply Forall_app. split; [apply precisions_unit; lia |].
        constructor; [unfold unit_interval; lra | constructor]. }
      destruct (envelope (0%Q :: precisions_of tp_cumsum fp_cumsum ++ [0%Q]));
        [constructor | now inversion Hall].
    + rewrite final_app_last in Hhi. unfold unit_interval. split; lra.
  - intros c Hc. injection Hc as <-.
    cbn [true_positives num_ground_truths false_negatives].
    rewrite sumZ_b2z. unfold num_gt. lia.
Qed.

Lemma evaluate_detection_total :
  forall (predictions : list Prediction) (ground_truths : list GroundTruth)
         (iou_threshold : Q),
    exists r, evaluate_detection predictions ground_truths iou_threshold = Ok r.
Proof.
  intros predictions ground_truths thr.
  destruct (evaluate_detection_run predictions ground_truths thr) as (r & Hr & _).
  now exists r.
Qed.

(** X1: for a positive threshold the true positives of [evaluate_detection]
    never outnumber the ground truths, and the false negatives are not
    negative. *)
Theorem positive_threshold_true_positives_bounded :
  forall (predictions : list Prediction) (ground_truths : list GroundTruth)
         (iou_threshold : Q) (r : DetectionResult) (c : Counts),
    (0 < iou_threshold)%Q ->
    evaluate_detection predictions ground_truths iou_threshold = Ok r ->
    counts r = Some c ->
    0 <= true_positives c <= num_ground_truths c /\ 0 <= false_negatives c.
Proof.
  intros predictions ground_truths thr r c Hthr Hr Hc.
  destruct (evaluate_detection_run predictions ground_truths thr) as (r' & Hr' & Hfacts).
  rewrite Hr in Hr'. injection Hr' as <-.
  now apply (proj2 (Hfacts Hthr)).
Qed.

(** X2: for a positive threshold the Average Precision of
    [evaluate_detection] lies between 0 and 1. *)
Theorem positive_threshold_ap_bounds :
  forall (predictions : list Prediction) (ground_truths : list GroundTruth)
         (iou_threshold : Q) (r : DetectionResult),
    (0 < iou_threshold)%Q ->
    evaluate_detection predictions ground_truths iou_threshold = Ok r ->
    (0 <= ap r /\ ap r <= 1)%Q.
Proof.
  intros predictions ground_truths thr r Hthr Hr.
  destruct (evaluate_detection_run predictions ground_truths thr) as (r' & Hr' & Hfacts).
  rewrite Hr in Hr'. injection Hr' as <-.
  exact (proj1 (Hfacts Hthr)).
Qed.

Lemma positive_threshold_true_positives_bounded_witness :
  exists r c,
    (0 < 1 # 2)%Q
    /\ evaluate_detection demo_predictions demo_ground_truths (1 # 2) = Ok r
    /\ counts r = Some c
    /\ (0 <= true_positives c <= num_ground_truths c /\ 0 <= false_negatives c).
Proof.
  eexists. eexists.
  split; [reflexivity |].
  split; [vm_compute; reflexivity |].
  split; [reflexivity |].
  eapply (positive_threshold_true_positives_bounded
            demo_predictions demo_ground_truths (1 # 2)).
  - reflexivity.
  - vm_compute. reflexivity.
  - reflexivity.
Defined.

Lemma positive_threshold_ap_bounds_witness :
  exists r,
    (0 < 1 # 2)%Q
    /\ evaluate_detection demo_predictions demo_ground_truths (1 # 2) = Ok r
    /\ (0 <= ap r /\ ap r <= 1)%Q.
Proof.
  eexists.
  split; [reflexivity |].
  split; [vm_compute; reflexivity |].
  eapply (positive_threshold_ap_bounds demo_predictions demo_ground_truths (1 # 2)).
  - reflexivity.
  - vm_compute. reflexivity.
Defined.

(** ** A threshold of zero *)

(** C1, at [iou_threshold = 0.0] with two predictions and one ground truth:
    the second prediction has IoU 0 with the only ground truth, which the
    first prediction has matched already; [best_gt_idx] is still [-1], the
    test [best_iou >= iou_threshold] passes, and [gt_matched[-1] = True]
    marks the same ground truth again. Two true positives are counted for
    one ground truth, and the false negatives come out as [-1]. *)
Theorem zero_threshold_matches_twice :
  calculate_iou (mkBox 100 100 110 110) (mkBox 0 0 10 10) = 0%Q
  /\ match_predictions (sorted_reverse confidence_key stray_predictions)
       single_ground_truth 0 (mkMatchState [false] [] [])
     = Ok (mkMatchState [true] [1; 1] [0; 0])
  /\ exists r c,
       evaluate_detection stray_predictions single_ground_truth 0 = Ok r
       /\ counts r = Some c
       /\ true_positives c = 2
       /\ num_ground_truths c = 1
       /\ false_negatives c = -1.
Proof.
  split; [reflexivity | split; [reflexivity |]].
  eexists. eexists.
  split; [vm_compute; reflexivity |].
  repeat split.
Qed.

(** C2, on the same input: the recalls are 1 and 2, and the Average
    Precision returned is 2. *)
Theorem zero_threshold_ap_is_two :
  exists r,
    evaluate_detection stray_predictions single_ground_truth 0 = Ok r
    /\ (recall r == 2)%Q
    /\ (ap r == 2)%Q
    /\ ~ (ap r <= 1)%Q.
Proof.
  eexists.
  split; [vm_compute; reflexivity |].
  cbn [ap recall]. split; [reflexivity | split; [reflexivity |]].
  intro H. vm_compute in H. apply H. reflexivity.
Qed.

(** ** Character error rate *)

Section EditDistanceFacts.
Context {A : Type} (eqb : A -> A -> bool).
Hypothesis eqb_eq : forall x y, eqb x y = true <-> x = y.

Lemma editdistance_nil_r : forall a : list A, editdistance_eval eqb a [] = length a.
Proof. intros [| x a]; reflexivity. Qed.

Lemma editdistance_cons_cons :
  forall (x y : A) (a b : list A),
    editdistance_eval eqb (x :: a) (y :: b)
    = min3 (editdistance_eval eqb a (y :: b) + 1)
           (editdistance_eval eqb (x :: a) b + 1)
           (editdistance_eval eqb a b + (if eqb x y then 0 else 1)).
Proof. reflexivity. Qed.

Lemma edit_script_insert_all : forall b : list A, edit_script [] b (length b).
Proof.
  induction b as [| y b IH]; cbn [length]; [constructor | now apply edit_insert].
Qed.

Lemma edit_script_delete_all : forall a : list A, edit_script a [] (length a).
Proof.
  induction a as [| x a IH]; cbn [length]; [constructor | now apply edit_delete].
Qed.

(** The distance is the cost of some edit script. *)
Lemma editdistance_attained :
  forall a b : list A, edit_script a b (editdistance_eval eqb a b).
Proof.
  induction a as [| x a IHa]; intro b.
  - apply edit_script_insert_all.
  - induction b as [| y b IHb].
    + rewrite editdistance_nil_r. apply edit_script_delete_all.
    + rewrite editdistance_cons_cons. unfold min3.
      set (del := editdistance_eval eqb a (y :: b)).
      set (ins := editdistance_eval eqb (x :: a) b).
      set (sub := editdistance_eval eqb a b).
      destruct (Nat.min_spec (del + 1) (Nat.min (ins + 1)
                  (sub + (if eqb x y then 0 else 1)))) as [[_ ->] | [_ ->]].
      * rewrite Nat.add_1_r. apply edit_delete, IHa.
      * destruct (Nat.min_spec (ins + 1) (sub + (if eqb x y then 0 else 1)))
          as [[_ ->] | [_ ->]].
        -- rewrite Nat.add_1_r. apply edit_insert, IHb.
        -- destruct (eqb x y) eqn:E.
           ++ apply eqb_eq in E. subst y. rewrite Nat.add_0_r. apply edit_keep, IHa.
           ++ rewrite Nat.add_1_r. apply edit_substitute, IHa.
Qed.

(** No edit script is cheaper than the distance. *)
Lemma editdistance_least :
  forall (a b : list A) (n : nat),
    edit_script a b n -> (editdistance_eval eqb a b <= n)%nat.
Proof.
  intros a b n H. induction H as [| x a b n H IH | x y a b n H IH | x a b n H IH | y a b n H IH].
  - cbn. lia.
  - rewrite editdistance_cons_cons.
    replace (eqb x x) with true by (symmetry; now apply eqb_eq).
    unfold min3. lia.
  - rewrite editdistance_cons_cons. unfold min3. destruct (eqb x y); lia.
  - destruct b as [| y b].
    + rewrite editdistance_nil_r in *. cbn [length]. lia.
    + rewrite editdistance_cons_cons. unfold min3. lia.
  - destruct a as [| x a].
    + cbn [editdistance_eval length] in *. lia.
    + rewrite editdistance_cons_cons. unfold min3. lia.
Qed.

Lemma edit_script_zero : forall a b : list A, edit_script a b 0 -> a = b.
Proof.
  intros a b H. remember 0%nat as n eqn:Hn.
  induction H; try discriminate Hn; [reflexivity | f_equal; auto].
Qed.

Lemma edit_script_refl : forall a : list A, edit_script a a 0.
Proof.
  induction a as [| x a IH]; [constructor | now apply edit_keep].
Qed.

Lemma editdistance_refl : forall a : list A, editdistance_eval eqb a a = 0%nat.
Proof.
  intro a. pose proof (editdistance_least a a 0 (edit_script_refl a)). lia.
Qed.

Lemma editdistance_zero : forall a b : list A, editdistance_eval eqb a b = 0%nat -> a = b.
Proof.
  intros a b H. apply edit_script_zero. rewrite <- H. apply editdistance_attained.
Qed.
End EditDistanceFacts.

Lemma ascii_eqb_eq : forall x y : ascii, Ascii.eqb x y = true <-> x = y.
Proof. exact Ascii.eqb_eq. Qed.

Lemma hello_warld_distance :
  editdistance_eval Ascii.eqb (chars "Hello Warld") (chars "Hello World") = 1%nat.
Proof.
  assert (Hle : (editdistance_eval Ascii.eqb (chars "Hello Warld") (chars "Hello World")
                 <= 1)%nat).
  { apply (editdistance_least Ascii.eqb ascii_eqb_eq). cbn [chars list_ascii_of_string].
    do 7 apply edit_keep. apply edit_substitute. do 3 apply edit_keep. constructor. }
  assert (Hne : editdistance_eval Ascii.eqb (chars "Hello Warld") (chars "Hello World")
                <> 0%nat).
  { intro H0. apply (editdistance_zero Ascii.eqb ascii_eqb_eq) in H0. discriminate H0. }
  lia.
Qed.

Lemma calculate_cer_nonempty :
  forall prediction ground_truth : string,
    chars ground_truth <> [] ->
    calculate_cer prediction ground_truth
    = (inject_Z (Z.of_nat (editdistance_eval Ascii.eqb (chars prediction) (chars ground_truth)))
       / inject_Z (Z.of_nat (length (chars ground_truth))))%Q.
Proof.
  intros prediction ground_truth Hne. unfold calculate_cer.
  destruct (chars ground_truth); [contradiction | reflexivity].
Qed.

(** C7: for a non-empty reference, CER is the least number of
    single-character substitutions, insertions and deletions that turn the
    prediction into the reference, divided by the length of the reference;
    for an empty reference it is 0 when the prediction is empty too and 1
    otherwise; hence CER(s,s) = 0, and CER("Hello Warld","Hello World") is
    1/11. *)
Theorem calculate_cer_levenshtein :
  (forall prediction ground_truth : string,
      chars ground_truth <> [] ->
      exists d : nat,
        edit_script (chars prediction) (chars ground_truth) d
        /\ (forall n, edit_script (chars prediction) (chars ground_truth) n -> (d <= n)%nat)
        /\ calculate_cer prediction ground_truth
           = (inject_Z (Z.of_nat d) / inject_Z (Z.of_nat (length (chars ground_truth))))%Q)
  /\ calculate_cer EmptyString EmptyString = 0%Q
  /\ (forall prediction : string,
        prediction <> EmptyString -> calculate_cer prediction EmptyString = 1%Q)
  /\ (forall s : string, (calculate_cer s s == 0)%Q)
  /\ (calculate_cer "Hello Warld" "Hello World" == 1 # 11)%Q.
Proof.
  split; [| split; [| split; [| split]]].
  - intros prediction ground_truth Hne.
    exists (editdistance_eval Ascii.eqb (chars prediction) (chars ground_truth)).
    split; [apply (editdistance_attained Ascii.eqb ascii_eqb_eq) |].
    split; [apply (editdistance_least Ascii.eqb ascii_eqb_eq) |].
    now apply calculate_cer_nonempty.
  - reflexivity.
  - intros [| c prediction] Hne; [contradiction | reflexivity].
  - intros [| c s]; [reflexivity |].
    rewrite calculate_cer_nonempty by discriminate.
    rewrite (editdistance_refl Ascii.eqb ascii_eqb_eq). reflexivity.
  - rewrite calculate_cer_nonempty by discriminate.
    rewrite hello_warld_distance. reflexivity.
Qed.

(** ** mAP over several thresholds *)

Lemma dict_lookup_setitem_same :
  forall (d : dict) (k : string) (v : Q), dict_lookup (dict_setitem d k v) k = Some v.
Proof.
  induction d as [| [k' v'] d IH]; intros k v; cbn [dict_setitem dict_lookup].
  - now rewrite String.eqb_refl.
  - destruct (String.eqb k' k) eqn:E; cbn [dict_lookup]; rewrite E; [reflexivity | apply IH].
Qed.

Lemma dict_lookup_setitem_other :
  forall (d : dict) (k k' : string) (v : Q),
    k <> k' -> dict_lookup (dict_setitem d k v) k' = dict_lookup d k'.
Proof.
  induction d as [| [k0 v0] d IH]; intros k k' v Hne; cbn [dict_setitem dict_lookup].
  - destruct (String.eqb k k') eqn:E; [apply String.eqb_eq in E; contradiction | reflexivity].
  - destruct (String.eqb k0 k) eqn:E; cbn [dict_lookup].
    + apply String.eqb_eq in E. subst k0.
      destruct (String.eqb k k') eqn:E'; [apply String.eqb_eq in E'; contradiction | reflexivity].
    + destruct (String.eqb k0 k'); [reflexivity | now apply IH].
Qed.

Section MeanAveragePrecision.
Variable all_preds : list Prediction.
Variable all_gts : list GroundTruth.

(** The dict the loop over the thresholds builds. *)
Lemma ap_per_threshold_fold :
  forall (ts : list Q) (aps : dict),
    ap_per_threshold all_preds all_gts ts aps
    = Ok (fold_left (fun d t => dict_setitem d (ap_label t) (ap_at all_preds all_gts t))
                    ts aps).
Proof.
  induction ts as [| t rest IH]; intro aps; cbn [ap_per_threshold fold_left].
  - reflexivity.
  - destruct (evaluate_detection_total all_preds all_gts t) as [r Hr].
    replace (ap_at all_preds all_gts t) with (ap r) by (unfold ap_at; now rewrite Hr).
    rewrite Hr. cbn [bind]. apply IH.
Qed.

Lemma lookup_fold_other :
  forall (ts : list Q) (aps : dict) (k : string),
    ~ In k (map ap_label ts) ->
    dict_lookup
      (fold_left (fun d t => dict_setitem d (ap_label t) (ap_at all_preds all_gts t)) ts aps) k
    = dict_lookup aps k.
Proof.
  induction ts as [| t rest IH]; intros aps k Hk; cbn [fold_left]; [reflexivity |].
  cbn [map] in Hk. rewrite IH by (intro H; apply Hk; now right).
  apply dict_lookup_setitem_other. intro H. apply Hk. now left.
Qed.

(** With pairwise distinct labels every threshold finds its own AP. *)
Lemma lookup_fold_own :
  forall (ts : list Q) (aps : dict) (t : Q),
    NoDup (map ap_label ts) ->
    In t ts ->
    dict_lookup
      (fold_left (fun d t => dict_setitem d (ap_label t) (ap_at all_preds all_gts t)) ts aps)
      (ap_label t)
    = Some (ap_at all_preds all_gts t).
Proof.
  induction ts as [| t0 rest IH]; intros aps t Hnd Hin; [contradiction |].
  cbn [map] in Hnd. inversion Hnd as [| l ls Hfresh Hnd']; subst.
  cbn [fold_left]. destruct Hin as [-> | Hin].
  - rewrite lookup_fold_other by exact Hfresh. apply dict_lookup_setitem_same.
  - now apply IH.
Qed.

Lemma ap_values_map :
  forall (aps : dict) (ts : list Q),
    (forall t, In t ts -> dict_lookup aps (ap_label t) = Some (ap_at all_preds all_gts t)) ->
    ap_values aps ts = Ok (map (ap_at all_preds all_gts) ts).
Proof.
  intros aps. induction ts as [| t rest IH]; intro Hall; cbn [ap_values map].
  - reflexivity.
  - unfold dict_getitem. rewrite (Hall t) by now left. cbn [bind].
    rewrite IH by (intros t' Ht'; apply Hall; now right). reflexivity.
Qed.
End MeanAveragePrecision.

(** C9, as the code has it: for a non-empty list of thresholds whose labels
    [AP@d.dd] are pairwise distinct, [mAP@0.5:0.95] is the arithmetic mean of
    the per-threshold APs; [mAP@0.5] is the AP of the threshold labelled
    [AP@0.50] when the list has one, and 0 when it has none. A label is what
    [f'{t:.2f}'] makes of the double the threshold is. *)
Theorem calculate_map_mean :
  forall (all_predictions : list (list Prediction))
         (all_ground_truths : list (list GroundTruth))
         (iou_thresholds : option (list Q)),
    thresholds_of iou_thresholds <> [] ->
    NoDup (map ap_label (thresholds_of iou_thresholds)) ->
    exists res,
      calculate_map all_predictions all_ground_truths iou_thresholds = Ok res
      /\ mAP_50_95 res
         = Some (arithmetic_mean
                   (map (ap_at (concat all_predictions) (concat all_ground_truths))
                        (thresholds_of iou_thresholds)))
      /\ (forall t, In t (thresholds_of iou_thresholds) ->
                    ap_label t = "AP@0.50"%string ->
                    mAP_50 res = ap_at (concat all_predictions) (concat all_ground_truths) t)
      /\ ((forall t, In t (thresholds_of iou_thresholds) -> ap_label t <> "AP@0.50"%string) ->
          mAP_50 res = 0%Q)
      /\ (iou_thresholds = None ->
          mAP_50 res = ap_at (concat all_predictions) (concat all_ground_truths) (5 # 10)).
Proof.
  intros all_predictions all_ground_truths iou_thresholds Hne Hnd.
  unfold calculate_map. fold (thresholds_of iou_thresholds).
  set (ts := thresholds_of iou_thresholds) in *.
  set (all_preds := concat all_predictions).
  set (all_gts := concat all_ground_truths).
  rewrite ap_per_threshold_fold. cbn [bind].
  set (aps := fold_left (fun d t => dict_setitem d (ap_label t) (ap_at all_preds all_gts t))
                        ts []).
  rewrite (ap_values_map all_preds all_gts aps ts)
    by (intros t Ht; now apply lookup_fold_own).
  cbn [bind]. eexists. split; [reflexivity |].
  cbn [mAP_50_95 mAP_50].
  assert (Hhalf : forall t, In t ts -> ap_label t = "AP@0.50"%string ->
                            dict_get aps "AP@0.50" 0 = ap_at all_preds all_gts t).
  { intros t Ht Hlabel. unfold dict_get. rewrite <- Hlabel.
    unfold aps. now rewrite lookup_fold_own. }
  split; [| split; [exact Hhalf | split]].
  - unfold np_mean, arithmetic_mean.
    destruct ts as [| t0 rest]; [contradiction | reflexivity].
  - intro Hnone. unfold dict_get, aps. rewrite lookup_fold_other; [reflexivity |].
    intro Hin. apply in_map_iff in Hin. destruct Hin as (t & Hlabel & Ht).
    exact (Hnone t Ht Hlabel).
  - intro Hdefault. apply Hhalf; [| reflexivity].
    subst ts. rewrite Hdefault. cbn. now left.
Qed.

Lemma calculate_map_mean_witness :
  exists res,
    calculate_map [demo_predictions] [demo_ground_truths] None = Ok res
    /\ mAP_50_95 res
       = Some (arithmetic_mean
                 (map (ap_at (concat [demo_predictions]) (concat [demo_ground_truths]))
                      (thresholds_of None)))
    /\ (forall t, In t (thresholds_of None) ->
                  ap_label t = "AP@0.50"%string ->
                  mAP_50 res = ap_at (concat [demo_predictions]) (concat [demo_ground_truths]) t)
    /\ ((forall t, In t (thresholds_of None) -> ap_label t <> "AP@0.50"%string) ->
        mAP_50 res = 0%Q)
    /\ (@None (list Q) = None ->
        mAP_50 res = ap_at (concat [demo_predictions]) (concat [demo_ground_truths]) (5 # 10)).
Proof.
  apply (calculate_map_mean [demo_predictions] [demo_ground_truths] None).
  - discriminate.
  - vm_compute.
    repeat (apply NoDup_cons; [cbn; intuition discriminate |]).
    apply NoDup_nil.
Defined.

(** The claim as the specification states it fails: when the caller's
    thresholds do not include 0.5, [mAP@0.5] is the default 0.0 of
    [aps.get('AP@0.50', 0.0)], although the AP at threshold 0.5 is 1. *)
Lemma calculate_map_without_half :
  exists res,
    calculate_map [exact_prediction] [single_ground_truth] (Some [75 # 100]) = Ok res
    /\ mAP_50 res = 0%Q
    /\ (ap_at exact_prediction single_ground_truth (1 # 2) == 1)%Q
    /\ ~ (mAP_50 res == ap_at exact_prediction single_ground_truth (1 # 2))%Q.
Proof.
  eexists. split; [vm_compute; reflexivity |].
  cbn [mAP_50]. split; [reflexivity | split; [reflexivity |]].
  intro H. vm_compute in H. discriminate H.
Qed.

Lemma calculate_cer_levenshtein_witness :
  exists d : nat,
    edit_script (chars "Hello Warld") (chars "Hello World") d
    /\ (forall n, edit_script (chars "Hello Warld") (chars "Hello World") n -> (d <= n)%nat)
    /\ calculate_cer "Hello Warld" "Hello World"
       = (inject_Z (Z.of_nat d) / inject_Z (Z.of_nat (length (chars "Hello World"))))%Q.
Proof.
  apply (proj1 calculate_cer_levenshtein "Hello Warld"%string "Hello World"%string).
  discriminate.
Defined.

(** * Further properties of the two scripts *)

Import Geometry.

(** ** Intersection over Union *)

Lemma inject_Z_div_one :
  forall i u : Z, 0 < u -> ((inject_Z i / inject_Z u == 1)%Q <-> i = u).
Proof.
  intros i u Hu. destruct u as [| p | p]; try lia.
  unfold Qeq, Qdiv, Qmult, Qinv, inject_Z. cbn [Qnum Qden].
  rewrite Pos.mul_1_l, !Z.mul_1_r, Z.mul_1_l. reflexivity.
Qed.

Lemma calculate_iou_positive_branch :
  forall a b : Box,
    interiors_overlap a b ->
    let intersection := (Z.min (bx2 a) (bx2 b) - Z.max (bx1 a) (bx1 b))
                        * (Z.min (by2 a) (by2 b) - Z.max (by1 a) (by1 b)) in
    let union := (bx2 a - bx1 a) * (by2 a - by1 a)
                 + (bx2 b - bx1 b) * (by2 b - by1 b) - intersection in
    0 < intersection /\ intersection <= union
    /\ calculate_iou a b = (inject_Z intersection / inject_Z union)%Q.
Proof.
  intros a b [Hx Hy] intersection union.
  set (w := Z.min (bx2 a) (bx2 b) - Z.max (bx1 a) (bx1 b)) in *.
  set (h := Z.min (by2 a) (by2 b) - Z.max (by1 a) (by1 b)) in *.
  assert (Hw : 0 < w) by (unfold w; lia).
  assert (Hh : 0 < h) by (unfold h; lia).
  assert (Hwa : w <= bx2 a - bx1 a) by (unfold w; lia).
  assert (Hwb : w <= bx2 b - bx1 b) by (unfold w; lia).
  assert (Hha : h <= by2 a - by1 a) by (unfold h; lia).
  assert (Hhb : h <= by2 b - by1 b) by (unfold h; lia).
  assert (Hi : 0 < intersection) by (unfold intersection; nia).
  assert (Ha : intersection <= (bx2 a - bx1 a) * (by2 a - by1 a))
    by (unfold intersection; nia).
  assert (Hb : intersection <= (bx2 b - bx1 b) * (by2 b - by1 b))
    by (unfold intersection; nia).
  assert (Hu : intersection <= union) by (unfold union; lia).
  split; [exact Hi | split; [exact Hu |]].
  unfold calculate_iou. cbv zeta. fold w h.
  destruct (Z.leb_spec (Z.min (bx2 a) (bx2 b)) (Z.max (bx1 a) (bx1 b))); [lia |].
  destruct (Z.leb_spec (Z.min (by2 a) (by2 b)) (Z.max (by1 a) (by1 b))); [lia |].
  cbn [orb]. fold intersection. fold union.
  destruct (Z.ltb_spec 0 union); [reflexivity | lia].
Qed.

Lemma calculate_iou_zero_branch :
  forall a b : Box, ~ interiors_overlap a b -> calculate_iou a b = 0%Q.
Proof.
  intros a b Hno. unfold calculate_iou. cbv zeta.
  destruct (Z.leb_spec (Z.min (bx2 a) (bx2 b)) (Z.max (bx1 a) (bx1 b))); [reflexivity |].
  destruct (Z.leb_spec (Z.min (by2 a) (by2 b)) (Z.max (by1 a) (by1 b))); [reflexivity |].
  exfalso. apply Hno. split; assumption.
Qed.

Lemma interiors_overlap_dec :
  forall a b : Box, interiors_overlap a b \/ ~ interiors_overlap a b.
Proof.
  intros a b. unfold interiors_overlap.
  destruct (Z_lt_dec (Z.max (bx1 a) (bx1 b)) (Z.min (bx2 a) (bx2 b)));
    destruct (Z_lt_dec (Z.max (by1 a) (by1 b)) (Z.min (by2 a) (by2 b)));
    tauto.
Qed.

(** X3: the IoU of any two boxes, valid or not, lies between 0 and 1, and it
    is positive exactly when the boxes share a region of positive area. *)
Theorem calculate_iou_range :
  forall a b : Box,
    (0 <= calculate_iou a b /\ calculate_iou a b <= 1)%Q
    /\ ((0 < calculate_iou a b)%Q <-> interiors_overlap a b).
Proof.
  intros a b. destruct (interiors_overlap_dec a b) as [Hov | Hno].
  - destruct (calculate_iou_positive_branch a b Hov) as (Hi & Hu & ->).
    split.
    + apply inject_Z_div_unit; lia.
    + split; [intros _; exact Hov | intros _].
      apply Qlt_shift_div_l.
      * change 0%Q with (inject_Z 0). rewrite <- Zlt_Qlt. lia.
      * rewrite Qmult_0_l. change 0%Q with (inject_Z 0). rewrite <- Zlt_Qlt. exact Hi.
  - rewrite (calculate_iou_zero_branch a b Hno). split.
    + split; [apply Qle_refl | discriminate].
    + split; [intro H; discriminate H | intro H; contradiction].
Qed.

(** X4: the IoU does not depend on the order of its two arguments. *)
Theorem calculate_iou_symmetric :
  forall a b : Box, calculate_iou a b = calculate_iou b a.
Proof.
  intros a b. unfold calculate_iou. cbv zeta.
  rewrite (Z.max_comm (bx1 b) (bx1 a)), (Z.max_comm (by1 b) (by1 a)).
  rewrite (Z.min_comm (bx2 b) (bx2 a)), (Z.min_comm (by2 b) (by2 a)).
  rewrite (Z.add_comm ((bx2 b - bx1 b) * (by2 b - by1 b))).
  reflexivity.
Qed.


(** ** The metrics [evaluate_detection] reports *)

Lemma cumsum_from_app :
  forall (l : list Z) (x acc : Z),
    cumsum_from acc (l ++ [x]) = cumsum_from acc l ++ [fold_left Z.add l acc + x].
Proof.
  induction l as [| y l IH]; intros x acc; cbn [app cumsum_from fold_left].
  - reflexivity.
  - now rewrite IH.
Qed.

Lemma combine_snoc :
  forall (A B : Type) (l : list A) (l' : list B) (a : A) (b : B),
    length l = length l' ->
    combine (l ++ [a]) (l' ++ [b]) = combine l l' ++ [(a, b)].
Proof.
  intros A B. induction l as [| x l IH]; intros [| y l'] a b Hlen;
    try discriminate Hlen; cbn [app combine].
  - reflexivity.
  - rewrite IH by (cbn in Hlen; lia). reflexivity.
Qed.

Lemma last_or_zero_snoc :
  forall (l : list Q) (x : Q), last_or_zero (l ++ [x]) = Ok x.
Proof.
  intros l x. unfold last_or_zero.
  assert (Hlen : length (l ++ [x]) = S (length l))
    by (rewrite length_app; cbn; lia).
  rewrite Hlen. cbn [Nat.ltb Nat.leb].
  unfold py_getitem. rewrite py_index_last by lia. rewrite Hlen.
  replace (S (length l) - 1)%nat with (length l) by lia.
  rewrite nth_error_app2 by lia. now rewrite Nat.sub_diag.
Qed.

Lemma fold_left_add_negb_b2z :
  forall (flags : list bool) (acc : Z),
    fold_left Z.add (map (fun f => Z.b2z (negb f)) flags) acc
    = acc + Z.of_nat (length flags) - Z.of_nat (count_true flags).
Proof.
  induction flags as [| f flags IH]; intro acc; cbn [map fold_left count_true length].
  - lia.
  - rewrite IH. destruct f; cbn [Z.b2z negb]; lia.
Qed.

(** The general path of [evaluate_detection], spelled out: [flags] tells
    which predictions, in confidence order, were counted as true positives. *)
Lemma evaluate_detection_general :
  forall (pred : Prediction) (preds : list Prediction)
         (gt : GroundTruth) (gts : list GroundTruth) (iou_threshold : Q),
    exists (flags : list bool) (ap_value : Q),
      length flags = S (length preds)
      /\ ((0 < iou_threshold)%Q -> (count_true flags <= S (length gts))%nat)
      /\ let TP := Z.of_nat (count_true flags) in
         let FP := Z.of_nat (length flags - count_true flags) in
         let num_gt := Z.of_nat (S (length gts)) in
         let P := (inject_Z TP / inject_Z (TP + FP))%Q in
         let R := (inject_Z TP / inject_Z num_gt)%Q in
         evaluate_detection (pred :: preds) (gt :: gts) iou_threshold
         = Ok (mkDetectionResult P R ap_value
                 (if Qlt_bool 0 (P + R) then (2 * P * R / (P + R))%Q else 0%Q)
                 (Some (mkCounts (Z.of_nat (S (length preds))) num_gt TP FP (num_gt - TP)))).
Proof.
  intros pred preds gt gts thr.
  unfold evaluate_detection. cbn [is_empty andb].
  assert (Hgts : (0 < length (gt :: gts))%nat) by (cbn; lia).
  assert (Hgl : length (gt :: gts) = S (length gts)) by reflexivity.
  generalize dependent (gt :: gts). intros ground_truths Hgts Hgl.
  assert (Hpl : length (sorted_reverse confidence_key (pred :: preds)) = S (length preds)).
  { rewrite (Permutation_length (sorted_reverse_perm _ confidence_key (pred :: preds))).
    reflexivity. }
  assert (Hpl' : length (pred :: preds) = S (length preds)) by reflexivity.
  generalize dependent (sorted_reverse confidence_key (pred :: preds)).
  intros sorted_preds Hpl.
  generalize dependent (pred :: preds). intros predictions Hpl'.
  destruct (match_predictions_ok ground_truths thr sorted_preds
              (mkMatchState (repeat false (length ground_truths)) [] []) Hgts)
    as (st & flags & Hrun & Hlen & Htp & Hfp & Hflags & Hcount).
  { cbn [gt_matched]. apply repeat_length. }
  cbn [gt_matched tp fp app] in Htp, Hfp, Hcount.
  rewrite Hrun. cbn [bind]. rewrite Htp, Hfp. unfold np_cumsum.
  rewrite calculate_ap_eq.
  2:{ unfold precisions_of, recalls_of.
      rewrite !length_map, length_combine, !length_cumsum_from, !length_map. lia. }
  cbn [bind].
  assert (Hmatched : (0 < thr)%Q -> (count_true flags <= S (length gts))%nat).
  { intro Hthr. specialize (Hcount Hthr). rewrite count_true_repeat_false in Hcount.
    cbn [Nat.add] in Hcount. rewrite <- Hgl, <- Hlen, <- Hcount. apply count_true_le_length. }
  assert (Hne : flags <> []) by (intro H; subst flags; cbn in Hflags; lia).
  destruct (exists_last Hne) as (fl & f & Hsnoc).
  assert (HT : 0 + Z.of_nat (count_true fl) + Z.b2z f = Z.of_nat (count_true flags)).
  { rewrite Hsnoc, count_true_app. cbn [count_true]. destruct f; cbn [Z.b2z]; lia. }
  assert (HF : 0 + Z.of_nat (length fl) - Z.of_nat (count_true fl) + Z.b2z (negb f)
               = Z.of_nat (length flags - count_true flags)).
  { pose proof (count_true_le_length flags) as Hle.
    rewrite Hsnoc in *. rewrite count_true_app, length_app in *. cbn [count_true length] in *.
    destruct f; cbn [Z.b2z negb]; lia. }
  assert (Hlast :
            forall g : bool -> Z,
              cumsum_from 0 (map g flags)
              = cumsum_from 0 (map g fl) ++ [fold_left Z.add (map g fl) 0 + g f]).
  { intro g. rewrite Hsnoc, map_app. cbn [map]. apply cumsum_from_app. }
  assert (Hsum :
            forall g : bool -> Z,
              sumZ (map g flags) = fold_left Z.add (map g fl) 0 + g f).
  { intro g. unfold sumZ. rewrite Hsnoc, map_app, fold_left_app. reflexivity. }
  rewrite (Hlast Z.b2z), (Hlast (fun b => Z.b2z (negb b))).
  rewrite (Hsum Z.b2z), (Hsum (fun b => Z.b2z (negb b))).
  unfold precisions_of, recalls_of.
  rewrite combine_snoc by (rewrite !length_cumsum_from, !length_map; reflexivity).
  rewrite !map_app. cbn [map]. rewrite !last_or_zero_snoc. cbn [bind].
  rewrite fold_left_add_b2z, fold_left_add_negb_b2z.
  rewrite HT, HF, Hgl, Hpl'.
  exists flags. eexists.
  split; [lia | split; [exact Hmatched |]].
  cbv zeta. reflexivity.
Qed.

(** X6: on the general path (some prediction and some ground truth), for
    every threshold, the counts add up ([TP + FP] is the number of
    predictions, [FN] is the number of ground truths minus [TP]), the
    reported precision is [TP / (TP + FP)] and lies between 0 and 1, and the
    reported recall is [TP / num_ground_truths]. *)
Theorem evaluate_detection_counts :
  forall (pred : Prediction) (preds : list Prediction)
         (gt : GroundTruth) (gts : list GroundTruth) (iou_threshold : Q),
    exists r c,
      evaluate_detection (pred :: preds) (gt :: gts) iou_threshold = Ok r
      /\ counts r = Some c
      /\ num_predictions c = Z.of_nat (length (pred :: preds))
      /\ num_ground_truths c = Z.of_nat (length (gt :: gts))
      /\ 0 <= true_positives c
      /\ 0 <= false_positives c
      /\ true_positives c + false_positives c = num_predictions c
      /\ false_negatives c = num_ground_truths c - true_positives c
      /\ precision r
         = (inject_Z (true_positives c)
            / inject_Z (true_positives c + false_positives c))%Q
      /\ recall r = (inject_Z (true_positives c) / inject_Z (num_ground_truths c))%Q
      /\ unit_interval (precision r).
Proof.
  intros pred preds gt gts thr.
  destruct (evaluate_detection_general pred preds gt gts thr)
    as (flags & ap_value & Hlen & _ & Hrun).
  cbv zeta in Hrun. rewrite Hrun. eexists. eexists.
  split; [reflexivity | split; [reflexivity |]].
  cbn [num_predictions num_ground_truths true_positives false_positives false_negatives
       precision recall length].
  pose proof (count_true_le_length flags) as Hle.
  repeat (split; [first [reflexivity | lia] |]).
  apply inject_Z_div_unit; lia.
Qed.

Lemma f1_unit :
  forall P R : Q,
    unit_interval P -> unit_interval R ->
    unit_interval (if Qlt_bool 0 (P + R) then (2 * P * R / (P + R))%Q else 0%Q).
Proof.
  intros P R [HP0 HP1] [HR0 HR1].
  destruct (Qlt_bool 0 (P + R)) eqn:Hpos.
  - apply Qlt_bool_iff in Hpos.
    assert (HPR : (0 <= P * R)%Q) by (apply Qmult_le_0_compat; assumption).
    assert (HPR1 : (P * R <= P)%Q).
    { apply Qle_trans with (P * 1)%Q; [| lra].
      rewrite !(Qmult_comm P). apply Qmult_le_compat_r; assumption. }
    assert (HPR2 : (P * R <= R)%Q).
    { apply Qle_trans with (1 * R)%Q; [| lra].
      apply Qmult_le_compat_r; assumption. }
    split.
    + apply Qle_shift_div_l; [exact Hpos | lra].
    + apply Qle_shift_div_r; [exact Hpos | lra].
  - split; lra.
Qed.

(** X7: for a positive threshold the precision, the recall and the F1 score
    that [evaluate_detection] reports all lie between 0 and 1. *)
Theorem positive_threshold_metrics_unit :
  forall (predictions : list Prediction) (ground_truths : list GroundTruth)
         (iou_threshold : Q) (r : DetectionResult),
    (0 < iou_threshold)%Q ->
    evaluate_detection predictions ground_truths iou_threshold = Ok r ->
    unit_interval (precision r) /\ unit_interval (recall r) /\ unit_interval (f1 r).
Proof.
  intros predictions ground_truths thr r Hthr Hr.
  destruct predictions as [| pred preds].
  { destruct ground_truths; cbn in Hr; injection Hr as <-;
      cbn [precision recall f1]; unfold unit_interval; repeat split; lra. }
  destruct ground_truths as [| gt gts].
  { cbn in Hr. injection Hr as <-.
    cbn [precision recall f1]. unfold unit_interval. repeat split; lra. }
  destruct (evaluate_detection_general pred preds gt gts thr)
    as (flags & ap_value & Hlen & Hmatched & Hrun).
  cbv zeta in Hrun. rewrite Hrun in Hr. injection Hr as <-.
  cbn [precision recall f1].
  pose proof (count_true_le_length flags) as Hle.
  specialize (Hmatched Hthr).
  assert (HP : unit_interval
                 (inject_Z (Z.of_nat (count_true flags))
                  / inject_Z (Z.of_nat (count_true flags)
                              + Z.of_nat (length flags - count_true flags))))
    by (apply inject_Z_div_unit; lia).
  assert (HR : unit_interval
                 (inject_Z (Z.of_nat (count_true flags))
                  / inject_Z (Z.of_nat (S (length gts)))))
    by (apply inject_Z_div_unit; lia).
  split; [exact HP | split; [exact HR | now apply f1_unit]].
Qed.

Lemma positive_threshold_metrics_unit_witness :
  exists r,
    (0 < 1 # 2)%Q
    /\ evaluate_detection demo_predictions demo_ground_truths (1 # 2) = Ok r
    /\ (unit_interval (precision r) /\ unit_interval (recall r) /\ unit_interval (f1 r)).
Proof.
  eexists.
  split; [reflexivity |].
  split; [vm_compute; reflexivity |].
  eapply (positive_threshold_metrics_unit demo_predictions demo_ground_truths (1 # 2)).
  - reflexivity.
  - vm_compute. reflexivity.
Defined.

(** ** Error rates *)

Section EditScripts.
Context {A : Type}.

Lemma edit_script_lengths :
  forall (a b : list A) (n : nat),
    edit_script a b n ->
    (length a <= length b + n /\ length b <= length a + n)%nat.
Proof.
  intros a b n H. induction H; cbn [length]; lia.
Qed.

(** Substituting along the shorter sequence and then deleting or inserting
    what is left costs the greater of the two lengths. *)
Lemma edit_script_max :
  forall a b : list A, edit_script a b (Nat.max (length a) (length b)).
Proof.
  induction a as [| x a IH]; intro b.
  - cbn [length Nat.max]. apply edit_script_insert_all.
  - destruct b as [| y b].
    + cbn [length]. rewrite Nat.max_0_r. apply (edit_script_delete_all (x :: a)).
    + cbn [length]. rewrite <- Nat.succ_max_distr. apply edit_substitute, IH.
Qed.
End EditScripts.

Lemma chars_injective : forall s t : string, chars s = chars t -> s = t.
Proof.
  intros s t H. unfold chars in H.
  rewrite <- (string_of_list_ascii_of_string s), <- (string_of_list_ascii_of_string t).
  now rewrite H.
Qed.

Lemma inject_Z_div_zero :
  forall i u : Z, 0 < u -> ((inject_Z i / inject_Z u == 0)%Q <-> i = 0).
Proof.
  intros i u Hu. destruct u as [| p | p]; try lia.
  unfold Qeq, Qdiv, Qmult, Qinv, inject_Z. cbn [Qnum Qden].
  rewrite !Z.mul_1_r. reflexivity.
Qed.

Lemma calculate_cer_vanishes :
  forall prediction ground_truth : string,
    (calculate_cer prediction ground_truth == 0)%Q <-> prediction = ground_truth.
Proof.
  intros prediction ground_truth.
  destruct ground_truth as [| c g].
  - destruct prediction as [| c' p'].
    + split; reflexivity.
    + split; [intro H; discriminate H | intro H; discriminate H].
  - rewrite calculate_cer_nonempty by discriminate.
    rewrite inject_Z_div_zero by (cbn; lia).
    split.
    + intro H. apply chars_injective.
      apply (editdistance_zero Ascii.eqb ascii_eqb_eq). lia.
    + intros ->. rewrite (editdistance_refl Ascii.eqb ascii_eqb_eq). reflexivity.
Qed.

(** X8: the character error rate is zero exactly when the prediction is the
    reference (with [editdistance.eval] taken as the Levenshtein distance). *)
Theorem calculate_cer_zero_iff :
  forall prediction ground_truth : string,
    (calculate_cer prediction ground_truth == 0)%Q <-> prediction = ground_truth.
Proof.
  exact calculate_cer_vanishes.
Qed.

(** X9: the character error rate is never negative; it is at most 1 when the
    prediction is no longer than the reference; and against a non-empty
    reference it is at least the excess length of the prediction over the
    reference, divided by the reference length, so it grows without bound
    with the prediction. *)
Theorem calculate_cer_bounds :
  forall prediction ground_truth : string,
    (0 <= calculate_cer prediction ground_truth)%Q
    /\ ((length (chars prediction) <= length (chars ground_truth))%nat ->
        (calculate_cer prediction ground_truth <= 1)%Q)
    /\ (chars ground_truth <> [] ->
        (inject_Z (Z.of_nat (length (chars prediction))
                   - Z.of_nat (length (chars ground_truth)))
         / inject_Z (Z.of_nat (length (chars ground_truth)))
         <= calculate_cer prediction ground_truth)%Q).
Proof.
  intros prediction ground_truth.
  destruct (chars ground_truth) as [| c g] eqn:Hg.
  - unfold calculate_cer. rewrite Hg. cbn [is_empty].
    destruct (chars prediction); cbn [is_empty];
      (split; [lra | split; [intros _; lra | intro H; contradiction]]).
  - assert (Hne : chars ground_truth <> []) by (rewrite Hg; discriminate).
    rewrite (calculate_cer_nonempty prediction ground_truth Hne). rewrite Hg.
    set (d := editdistance_eval Ascii.eqb (chars prediction) (c :: g)).
    assert (Hmax : (d <= Nat.max (length (chars prediction)) (length (c :: g)))%nat)
      by (apply (editdistance_least Ascii.eqb ascii_eqb_eq), edit_script_max).
    pose proof (edit_script_lengths _ _ _
                  (editdistance_attained Ascii.eqb ascii_eqb_eq (chars prediction) (c :: g)))
      as [Hlo _].
    fold d in Hlo.
    assert (Hlen : 0 < Z.of_nat (length (c :: g))) by (cbn [length]; lia).
    split; [| split].
    + apply Qle_shift_div_l.
      * change 0%Q with (inject_Z 0). rewrite <- Zlt_Qlt. exact Hlen.
      * rewrite Qmult_0_l. change 0%Q with (inject_Z 0). rewrite <- Zle_Qle. lia.
    + intro Hshort. apply inject_Z_div_unit; lia.
    + intros _. apply inject_Z_div_le; lia.
Qed.

Lemma calculate_cer_bounds_witness :
  (length (chars "Hello Warld") <= length (chars "Hello World"))%nat
  /\ (calculate_cer "Hello Warld" "Hello World" <= 1)%Q.
Proof.
  split; [cbn; lia |].
  apply (proj1 (proj2 (calculate_cer_bounds "Hello Warld" "Hello World"))).
  cbn. lia.
Defined.

Lemma word_eqb_eq : forall u v : list ascii, word_eqb u v = true <-> u = v.
Proof.
  intros u v. unfold word_eqb. rewrite String.eqb_eq. split.
  - intro H.
    rewrite <- (list_ascii_of_string_of_list_ascii u),
            <- (list_ascii_of_string_of_list_ascii v).
    now rewrite H.
  - now intros ->.
Qed.

Lemma calculate_wer_fallback_vanishes :
  forall (jiwer_wer : string -> string -> option Q) (prediction ground_truth : string),
    jiwer_wer ground_truth prediction = None ->
    ((calculate_wer jiwer_wer prediction ground_truth == 0)%Q
     <-> split prediction = split ground_truth)
    /\ (0 <= calculate_wer jiwer_wer prediction ground_truth)%Q.
Proof.
  intros jiwer_wer prediction ground_truth Hnone.
  unfold calculate_wer. rewrite Hnone.
  destruct (split ground_truth) as [| w ws] eqn:Hg; cbn [is_empty].
  - destruct (split prediction) as [| v vs]; cbn [is_empty].
    + split; [split; reflexivity | lra].
    + split; [split; intro H; discriminate H | lra].
  - set (d := editdistance_eval word_eqb (split prediction) (w :: ws)).
    assert (Hlen : 0 < Z.of_nat (length (w :: ws))) by (cbn [length]; lia).
    split.
    + rewrite inject_Z_div_zero by exact Hlen. split.
      * intro H. apply (editdistance_zero word_eqb word_eqb_eq). fold d. lia.
      * intro H. unfold d. rewrite H, (editdistance_refl word_eqb word_eqb_eq). reflexivity.
    + apply Qle_shift_div_l.
      * change 0%Q with (inject_Z 0). rewrite <- Zlt_Qlt. exact Hlen.
      * rewrite Qmult_0_l. change 0%Q with (inject_Z 0). rewrite <- Zle_Qle. lia.
Qed.

(** X10: when [jiwer] is unavailable or raises, the word error rate of the
    fallback is zero exactly when prediction and reference split into the
    same words, so it does not see differences in whitespace; it is never
    negative. *)
Theorem calculate_wer_fallback_zero_iff :
  forall (jiwer_wer : string -> string -> option Q) (prediction ground_truth : string),
    jiwer_wer ground_truth prediction = None ->
    ((calculate_wer jiwer_wer prediction ground_truth == 0)%Q
     <-> split prediction = split ground_truth)
    /\ (0 <= calculate_wer jiwer_wer prediction ground_truth)%Q.
Proof.
  exact calculate_wer_fallback_vanishes.
Qed.

Lemma calculate_wer_fallback_zero_iff_witness :
  ((calculate_wer (fun _ _ => None) "Hello   World " " Hello World" == 0)%Q
   <-> split "Hello   World " = split " Hello World")
  /\ (0 <= calculate_wer (fun _ _ => None) "Hello   World " " Hello World")%Q.
Proof.
  apply (calculate_wer_fallback_zero_iff (fun _ _ => None)). reflexivity.
Defined.

Lemma fold_left_Qplus_zero :
  forall (l : list Q) (acc : Q),
    Forall (fun x => x == 0)%Q l -> (fold_left Qplus l acc == acc)%Q.
Proof.
  induction l as [| x l IH]; intros acc Hall; cbn [fold_left].
  - reflexivity.
  - inversion Hall as [| x' l' Hx Hl]; subst.
    rewrite IH by exact Hl. rewrite Hx. lra.
Qed.

Lemma np_mean_zero :
  forall (x : Q) (l : list Q),
    Forall (fun x => x == 0)%Q (x :: l) ->
    exists m, np_mean (x :: l) = Some m /\ (m == 0)%Q.
Proof.
  intros x l Hall. eexists. split; [reflexivity |].
  unfold sumQ. rewrite (fold_left_Qplus_zero (x :: l) 0 Hall). reflexivity.
Qed.

Lemma combine_same :
  forall (A : Type) (l : list A), combine l l = map (fun x => (x, x)) l.
Proof.
  intros A. induction l as [| x l IH]; cbn; [reflexivity | now rewrite IH].
Qed.

(** X11: when every prediction is its reference, [evaluate_ocr] on a
    non-empty list reports a mean CER of 0 and as many samples as strings;
    and a mean WER of 0 too when [jiwer] is unavailable. *)
Theorem evaluate_ocr_perfect :
  forall (jiwer_wer : string -> string -> option Q) (np_sqrt : Q -> Q)
         (text : string) (texts : list string),
    exists r cer,
      evaluate_ocr jiwer_wer np_sqrt (text :: texts) (text :: texts) = Ok r
      /\ num_samples r = Z.of_nat (length (text :: texts))
      /\ CER r = Some cer /\ (cer == 0)%Q
      /\ ((forall t, In t (text :: texts) -> jiwer_wer t t = None) ->
          exists wer, WER r = Some wer /\ (wer == 0)%Q).
Proof.
  intros jiwer_wer np_sqrt text texts.
  unfold evaluate_ocr. rewrite Nat.eqb_refl. cbn [negb is_empty].
  rewrite combine_same, !map_map.
  destruct (np_mean_zero (calculate_cer text text)
              (map (fun x => calculate_cer x x) texts)) as (cer & Hcer & Hzero).
  { change (Forall (fun x => (x == 0)%Q)
              (map (fun x => calculate_cer x x) (text :: texts))).
    apply Forall_map, Forall_forall. intros t _.
    now apply calculate_cer_vanishes. }
  eexists. exists cer.
  split; [reflexivity |].
  cbn [num_samples CER WER]. split; [reflexivity |].
  split; [exact Hcer | split; [exact Hzero |]].
  intro Hjiwer.
  apply (np_mean_zero (calculate_wer jiwer_wer text text)
           (map (fun x => calculate_wer jiwer_wer x x) texts)).
  change (Forall (fun x => (x == 0)%Q)
            (map (fun x => calculate_wer jiwer_wer x x) (text :: texts))).
  apply Forall_map, Forall_forall. intros t Ht.
  apply (calculate_wer_fallback_vanishes jiwer_wer t t (Hjiwer t Ht)). reflexivity.
Qed.

(** ** [calculate_map] for arbitrary thresholds *)

Lemma ap_at_unit :
  forall (all_preds : list Prediction) (all_gts : list GroundTruth) (t : Q),
    (0 < t)%Q -> unit_interval (ap_at all_preds all_gts t).
Proof.
  intros all_preds all_gts t Ht. unfold ap_at.
  destruct (evaluate_detection_run all_preds all_gts t) as (r & -> & Hfacts).
  exact (proj1 (Hfacts Ht)).
Qed.

(** Whatever the labels, the entry found under the label of a threshold is
    the AP of some threshold of the list with that label. *)
Lemma lookup_fold_some :
  forall (all_preds : list Prediction) (all_gts : list GroundTruth)
         (ts : list Q) (aps : dict) (t : Q),
    In t ts ->
    exists t',
      In t' ts /\ ap_label t' = ap_label t
      /\ dict_lookup
           (fold_left (fun d t => dict_setitem d (ap_label t) (ap_at all_preds all_gts t)) ts aps)
           (ap_label t)
         = Some (ap_at all_preds all_gts t').
Proof.
  intros all_preds all_gts ts. induction ts as [| t_last init IH] using rev_ind;
    intros aps t Hin; [contradiction |].
  rewrite fold_left_app. cbn [fold_left].
  destruct (string_dec (ap_label t_last) (ap_label t)) as [Heq | Hne].
  - exists t_last. split; [apply in_or_app; right; now left |].
    split; [exact Heq |]. rewrite <- Heq. apply dict_lookup_setitem_same.
  - apply in_app_or in Hin. destruct Hin as [Hin | [-> | []]]; [| contradiction].
    destruct (IH aps t Hin) as (t' & Ht' & Hlabel & Hlookup).
    exists t'. split; [apply in_or_app; now left |].
    split; [exact Hlabel |].
    rewrite dict_lookup_setitem_other by exact Hne. exact Hlookup.
Qed.

Lemma lookup_fold_any :
  forall (all_preds : list Prediction) (all_gts : list GroundTruth)
         (ts : list Q) (k : string) (v : Q),
    dict_lookup
      (fold_left (fun d t => dict_setitem d (ap_label t) (ap_at all_preds all_gts t)) ts [])
      k = Some v ->
    exists t', In t' ts /\ v = ap_at all_preds all_gts t'.
Proof.
  intros all_preds all_gts ts k v Hlookup.
  destruct (in_dec string_dec k (map ap_label ts)) as [Hin | Hnotin].
  - apply in_map_iff in Hin. destruct Hin as (t & <- & Ht).
    destruct (lookup_fold_some all_preds all_gts ts [] t Ht) as (t' & Ht' & _ & Hl).
    exists t'. split; [exact Ht' | congruence].
  - rewrite lookup_fold_other in Hlookup by exact Hnotin. discriminate Hlookup.
Qed.

Lemma ap_values_forall :
  forall (P : Q -> Prop) (aps : dict) (ts : list Q),
    (forall t, In t ts -> exists v, dict_lookup aps (ap_label t) = Some v /\ P v) ->
    exists vs, ap_values aps ts = Ok vs /\ length vs = length ts /\ Forall P vs.
Proof.
  intros P aps. induction ts as [| t rest IH]; intro Hall; cbn [ap_values].
  - exists []. repeat split. constructor.
  - destruct (Hall t (or_introl eq_refl)) as (v & Hv & HP).
    destruct IH as (vs & Hvs & Hlen & HPs); [intros t' Ht'; apply Hall; now right |].
    unfold dict_getitem. rewrite Hv. cbn [bind]. rewrite Hvs. cbn [bind].
    exists (v :: vs). split; [reflexivity | split; [cbn; now rewrite Hlen |]].
    now constructor.
Qed.

Lemma fold_left_Qplus_bounds :
  forall (l : list Q) (acc : Q),
    Forall unit_interval l ->
    (acc <= fold_left Qplus l acc
     /\ fold_left Qplus l acc <= acc + inject_Z (Z.of_nat (length l)))%Q.
Proof.
  induction l as [| x l IH]; intros acc Hall; cbn [fold_left length].
  - change (inject_Z (Z.of_nat 0)) with 0%Q. split; lra.
  - inversion Hall as [| x' l' [Hx0 Hx1] Hl]; subst.
    destruct (IH (acc + x)%Q Hl) as [Hlo Hhi].
    assert (Hsucc : (inject_Z (Z.of_nat (S (length l)))
                     == inject_Z (Z.of_nat (length l)) + 1)%Q).
    { rewrite Nat2Z.inj_succ. unfold Z.succ. rewrite inject_Z_plus. reflexivity. }
    rewrite Hsucc. split; lra.
Qed.

Lemma np_mean_unit :
  forall (l : list Q) (m : Q),
    Forall unit_interval l -> np_mean l = Some m -> unit_interval m.
Proof.
  intros l m Hall Hm. destruct l as [| x l]; [discriminate Hm |].
  replace m with (sumQ (x :: l) / inject_Z (Z.of_nat (length (x :: l))))%Q
    by (unfold np_mean in Hm; congruence).
  clear Hm.
  destruct (fold_left_Qplus_bounds (x :: l) 0 Hall) as [Hlo Hhi].
  assert (Hlen : (0 < inject_Z (Z.of_nat (length (x :: l))))%Q).
  { change 0%Q with (inject_Z 0). rewrite <- Zlt_Qlt. cbn [length]. lia. }
  unfold sumQ.
  generalize dependent (inject_Z (Z.of_nat (length (x :: l)))). intros n Hhi Hlen.
  generalize dependent (fold_left Qplus (x :: l) 0%Q). intros total Hlo Hhi.
  split.
  - apply Qle_shift_div_l; [exact Hlen | lra].
  - apply Qle_shift_div_r; [exact Hlen | lra].
Qed.

(** X12: [calculate_map] never raises, whatever the thresholds and their
    labels; its [mAP@0.5:0.95] is [nan] exactly when the list of thresholds
    is empty; every threshold finds an entry under its label in
    [AP_per_threshold]; and when all thresholds are positive, [mAP@0.5] and
    [mAP@0.5:0.95] lie between 0 and 1. *)
Theorem calculate_map_total :
  forall (all_predictions : list (list Prediction))
         (all_ground_truths : list (list GroundTruth))
         (iou_thresholds : option (list Q)),
    exists res,
      calculate_map all_predictions all_ground_truths iou_thresholds = Ok res
      /\ (mAP_50_95 res = None <-> thresholds_of iou_thresholds = [])
      /\ (forall t, In t (thresholds_of iou_thresholds) ->
            exists v, dict_lookup (AP_per_threshold res) (ap_label t) = Some v)
      /\ ((forall t, In t (thresholds_of iou_thresholds) -> (0 < t)%Q) ->
          unit_interval (mAP_50 res)
          /\ forall m, mAP_50_95 res = Some m -> unit_interval m).
Proof.
  intros all_predictions all_ground_truths iou_thresholds.
  unfold calculate_map. fold (thresholds_of iou_thresholds).
  set (ts := thresholds_of iou_thresholds).
  set (all_preds := concat all_predictions).
  set (all_gts := concat all_ground_truths).
  rewrite ap_per_threshold_fold. cbn [bind].
  set (aps := fold_left (fun d t => dict_setitem d (ap_label t) (ap_at all_preds all_gts t))
                        ts []).
  destruct (ap_values_forall
              (fun v => exists t', In t' ts /\ v = ap_at all_preds all_gts t') aps ts)
    as (vs & Hvs & Hlen & Hall).
  { intros t Ht.
    destruct (lookup_fold_some all_preds all_gts ts [] t Ht) as (t' & Ht' & _ & Hl).
    exists (ap_at all_preds all_gts t'). split; [exact Hl | now exists t']. }
  rewrite Hvs. cbn [bind]. eexists. split; [reflexivity |].
  cbn [mAP_50_95 mAP_50 AP_per_threshold]. split; [| split].
  - destruct vs as [| v vs'], ts as [| t ts']; try discriminate Hlen; cbn [np_mean].
    + split; reflexivity.
    + split; intro H; discriminate H.
  - intros t Ht.
    destruct (lookup_fold_some all_preds all_gts ts [] t Ht) as (t' & _ & _ & Hl).
    eexists. exact Hl.
  - intro Hpos. split.
    + unfold dict_get. destruct (dict_lookup aps "AP@0.50") as [v |] eqn:Hl.
      * destruct (lookup_fold_any all_preds all_gts ts _ v Hl) as (t' & Ht' & ->).
        apply ap_at_unit, Hpos, Ht'.
      * unfold unit_interval. split; lra.
    + intros m Hm. apply (np_mean_unit vs m); [| exact Hm].
      eapply Forall_impl; [| exact Hall].
      intros v (t' & Ht' & ->). apply ap_at_unit, Hpos, Ht'.
Qed.

(** ** Overlap and distance of two boxes *)

Import Lines.

(** X13: the vertical overlap ratio is symmetric and lies between 0 and 1
    for any two boxes; it is 0 as soon as one of them has no positive height,
    and 1 when a box of positive height spans the other one vertically. *)
Theorem vertical_overlap_range :
  forall a b : DetectionBox,
    vertical_overlap a b = vertical_overlap b a
    /\ unit_interval (vertical_overlap a b)
    /\ (height a <= 0 \/ height b <= 0 -> vertical_overlap a b = 0%Q)
    /\ (0 < height b -> y1 a <= y1 b -> y2 b <= y2 a ->
        (vertical_overlap a b == 1)%Q).
Proof.
  intros a b. unfold vertical_overlap, height. split; [| split; [| split]].
  - rewrite (Z.min_comm (y2 b) (y2 a)), (Z.max_comm (y1 b) (y1 a)).
    rewrite (Z.min_comm (y2 b - y1 b)). reflexivity.
  - destruct (Z.ltb_spec 0 (Z.min (y2 a - y1 a) (y2 b - y1 b))).
    + apply inject_Z_div_unit; lia.
    + unfold unit_interval. split; lra.
  - intro Hflat.
    destruct (Z.ltb_spec 0 (Z.min (y2 a - y1 a) (y2 b - y1 b))); [lia | reflexivity].
  - intros Hb Htop Hbottom.
    destruct (Z.ltb_spec 0 (Z.min (y2 a - y1 a) (y2 b - y1 b))); [| lia].
    apply inject_Z_div_one; lia.
Qed.

Lemma vertical_overlap_range_witness :
  (vertical_overlap (mkDetectionBox 0 0 0 50 20 1 EmptyString 0 (-1))
                    (mkDetectionBox 1 60 5 110 15 1 EmptyString 0 (-1)) == 1)%Q.
Proof.
  apply (proj2 (proj2 (proj2 (vertical_overlap_range
                                (mkDetectionBox 0 0 0 50 20 1 EmptyString 0 (-1))
                                (mkDetectionBox 1 60 5 110 15 1 EmptyString 0 (-1)))))).
  - cbn. lia.
  - cbn. lia.
  - cbn. lia.
Defined.

(** X14: the horizontal distance of two boxes is never negative; for boxes
    whose x-intervals are not inverted it is symmetric, and it is 0 exactly
    when the x-intervals meet. *)
Theorem horizontal_distance_properties :
  forall a b : DetectionBox,
    0 <= horizontal_distance a b
    /\ (x_ordered a -> x_ordered b ->
        horizontal_distance a b = horizontal_distance b a
        /\ (horizontal_distance a b = 0 <-> (x1 b <= x2 a /\ x1 a <= x2 b))).
Proof.
  intros a b. unfold horizontal_distance, x_ordered. split.
  - destruct (Z.ltb_spec (x2 a) (x1 b)); [lia |].
    destruct (Z.ltb_spec (x2 b) (x1 a)); lia.
  - intros Ha Hb.
    destruct (Z.ltb_spec (x2 a) (x1 b)); destruct (Z.ltb_spec (x2 b) (x1 a)); lia.
Qed.

Lemma horizontal_distance_properties_witness :
  horizontal_distance (mkDetectionBox 0 0 0 50 20 1 EmptyString 0 (-1))
                      (mkDetectionBox 1 60 2 110 22 1 EmptyString 0 (-1))
  = horizontal_distance (mkDetectionBox 1 60 2 110 22 1 EmptyString 0 (-1))
                        (mkDetectionBox 0 0 0 50 20 1 EmptyString 0 (-1))
  /\ (horizontal_distance (mkDetectionBox 0 0 0 50 20 1 EmptyString 0 (-1))
                          (mkDetectionBox 1 60 2 110 22 1 EmptyString 0 (-1)) = 0
      <-> (60 <= 50 /\ 0 <= 110)).
Proof.
  apply (proj2 (horizontal_distance_properties
                  (mkDetectionBox 0 0 0 50 20 1 EmptyString 0 (-1))
                  (mkDetectionBox 1 60 2 110 22 1 EmptyString 0 (-1)))).
  - unfold x_ordered. cbn. lia.
  - unfold x_ordered. cbn. lia.
Defined.

(** ** Sorting sorts *)

Lemma Qlt_bool_false_le : forall a b : Q, Qlt_bool a b = false -> (b <= a)%Q.
Proof.
  intros a b H. apply Qnot_lt_le. intro Hlt. apply Qlt_bool_iff in Hlt. congruence.
Qed.

Lemma insert_asc_strongly_sorted :
  forall (A : Type) (key : A -> Q) (x : A) (l : list A),
    StronglySorted (fun a b => (key a <= key b)%Q) l ->
    StronglySorted (fun a b => (key a <= key b)%Q) (insert_asc key x l).
Proof.
  intros A key x. induction l as [| y l IH]; intro Hss; cbn [insert_asc].
  - constructor; constructor.
  - inversion Hss as [| y' l' Hl Hy]; subst.
    destruct (Qlt_bool (key y) (key x)) eqn:Hlt.
    + constructor; [now apply IH |].
      eapply Permutation_Forall; [apply Permutation_sym, insert_asc_perm |].
      constructor; [| exact Hy].
      apply Qlt_le_weak. now apply Qlt_bool_iff.
    + apply Qlt_bool_false_le in Hlt.
      constructor; [exact Hss |].
      constructor; [exact Hlt |].
      eapply Forall_impl; [| exact Hy].
      intros z Hz. cbv beta in *. eapply Qle_trans; eassumption.
Qed.

Lemma sorted_strongly_sorted :
  forall (A : Type) (key : A -> Q) (l : list A),
    StronglySorted (fun a b => (key a <= key b)%Q) (sorted key l).
Proof.
  intros A key. induction l as [| x l IH]; cbn [sorted fold_right].
  - constructor.
  - now apply insert_asc_strongly_sorted.
Qed.

(** ** Line clustering, whatever the ids *)

Lemma vertical_overlap_comm :
  forall a b : DetectionBox, vertical_overlap a b = vertical_overlap b a.
Proof.
  intros a b. unfold vertical_overlap, height.
  rewrite (Z.min_comm (y2 b) (y2 a)), (Z.max_comm (y1 b) (y1 a)).
  rewrite (Z.min_comm (y2 b - y1 b)). reflexivity.
Qed.

Lemma another_or_alone :
  forall (l : list loc) (b : loc),
    (exists other, In other l /\ other <> b) \/ (forall x, In x l -> x = b).
Proof.
  induction l as [| y l IH]; intro b.
  - right. intros x [].
  - destruct (Nat.eq_dec y b) as [-> | Hne].
    + destruct (IH b) as [(other & Hin & Hother) | Hall].
      * left. exists other. split; [now right | exact Hother].
      * right. intros x [<- | Hx]; [reflexivity | now apply Hall].
    + left. exists y. split; [now left | exact Hne].
Qed.

Section ClusteringAnyIds.
Variable h : heap.
Variable y_overlap_threshold : Q.
Variable sorted_boxes : list loc.

Lemma ids_inv_perm :
  forall assigned assigned' used,
    Permutation assigned assigned' ->
    ids_inv h sorted_boxes assigned used ->
    ids_inv h sorted_boxes assigned' used.
Proof.
  intros assigned assigned' used Hperm (Hnd & Hincl & Hused).
  pose proof (Permutation_map (id_at h) Hperm) as Hids.
  split; [| split].
  - eapply Permutation_NoDup; eassumption.
  - intros b Hb. apply Hincl. eapply Permutation_in; [apply Permutation_sym |]; eassumption.
  - intro i. rewrite Hused. split; intro Hi.
    + eapply Permutation_in; eassumption.
    + eapply Permutation_in; [apply Permutation_sym |]; eassumption.
Qed.

Lemma ids_inv_add :
  forall assigned used box,
    In box sorted_boxes ->
    mem (id (h box)) used = false ->
    ids_inv h sorted_boxes assigned used ->
    ids_inv h sorted_boxes (assigned ++ [box]) (id (h box) :: used).
Proof.
  intros assigned used box Hbox Hfresh (Hnd & Hincl & Hused).
  assert (Hnotin : ~ In (id_at h box) (map (id_at h) assigned)).
  { intro Hin. apply Hused in Hin. unfold id_at in Hin. congruence. }
  split; [| split].
  - rewrite map_app. cbn [map].
    eapply Permutation_NoDup; [apply Permutation_cons_append |].
    now constructor.
  - intros b Hb. apply in_app_or in Hb. destruct Hb as [Hb | [<- | []]]; auto.
  - intro i. rewrite map_app, in_app_iff. cbn [map In]. unfold mem. cbn [existsb].
    rewrite orb_true_iff, Z.eqb_eq. fold (mem i used). rewrite Hused.
    unfold id_at. intuition.
Qed.

Lemma collect_line_any_ids :
  forall others current_line used finished,
    incl others sorted_boxes ->
    ids_inv h sorted_boxes (finished ++ current_line) used ->
    grown h y_overlap_threshold current_line ->
    ids_inv h sorted_boxes
      (finished ++ fst (collect_line h y_overlap_threshold others current_line used))
      (snd (collect_line h y_overlap_threshold others current_line used))
    /\ (forall i, mem i used = true ->
                  mem i (snd (collect_line h y_overlap_threshold others current_line used)) = true)
    /\ grown h y_overlap_threshold
         (fst (collect_line h y_overlap_threshold others current_line used)).
Proof.
  induction others as [| other rest IH]; intros current_line used finished Hincl Hinv Hgrown;
    cbn [collect_line].
  - cbn [fst snd]. split; [assumption | split; [auto | assumption]].
  - assert (Hrest : incl rest sorted_boxes) by (intros b Hb; apply Hincl; now right).
    destruct (mem (id (h other)) used) eqn:Hused; [now apply IH |].
    destruct (joins h y_overlap_threshold current_line other) eqn:Hjoin; [| now apply IH].
    destruct (IH (current_line ++ [other]) (id (h other) :: used) finished Hrest)
      as (IHinv & IHmono & IHgrown).
    + rewrite app_assoc. apply ids_inv_add; [apply Hincl; now left | assumption ..].
    + now apply grown_join.
    + split; [assumption | split; [| assumption]].
      intros i Hi. apply IHmono. unfold mem. cbn [existsb]. apply orb_true_iff. now right.
Qed.

Lemma grown_nonempty :
  forall line, grown h y_overlap_threshold line -> line <> [].
Proof.
  intros line Hgrown. destruct Hgrown as [box | current_line other _ _].
  - discriminate.
  - intro H. apply app_eq_nil in H. destruct H as [_ H]. discriminate H.
Qed.

(** On a line as the inner loop grew it, every box with company has a
    partner it overlaps. *)
Lemma grown_overlap_partners :
  forall line,
    grown h y_overlap_threshold line ->
    NoDup line ->
    overlap_partners h y_overlap_threshold line.
Proof.
  intros line Hgrown. induction Hgrown as [box | current_line other Hgrown IH Hjoin];
    intros Hnd b Hb Hcompany.
  - destruct Hcompany as (o & [<- | []] & Hne). destruct Hb as [<- | []]. contradiction.
  - assert (Hnd' : NoDup current_line) by (eapply NoDup_app_remove_r; exact Hnd).
    assert (Hfresh : ~ In other current_line).
    { intro Hin. apply (NoDup_app_disjoint _ _ _ other Hnd Hin). now left. }
    unfold joins in Hjoin. apply existsb_exists in Hjoin.
    destruct Hjoin as (line_box & Hline_box & Hoverlap).
    apply Qle_bool_iff in Hoverlap.
    apply in_app_or in Hb. destruct Hb as [Hb | [<- | []]].
    + destruct (another_or_alone current_line b) as [Hother | Halone].
      * destruct (IH Hnd' b Hb Hother) as (partner & Hp & Hne & Hov).
        exists partner. split; [apply in_or_app; now left | split; assumption].
      * exists other. split; [apply in_or_app; right; now left |].
        split; [intro Heq; subst; contradiction |].
        rewrite vertical_overlap_comm. now rewrite <- (Halone line_box Hline_box).
    + exists line_box. split; [apply in_or_app; now left |].
      split; [intro Heq; subst; contradiction | exact Hoverlap].
Qed.

Lemma overlap_partners_perm :
  forall line line',
    Permutation line line' ->
    overlap_partners h y_overlap_threshold line ->
    overlap_partners h y_overlap_threshold line'.
Proof.
  intros line line' Hperm Hpartners b Hb (other & Hother & Hne).
  destruct (Hpartners b) as (partner & Hp & Hpne & Hov).
  - eapply Permutation_in; [apply Permutation_sym |]; eassumption.
  - exists other. split; [| exact Hne].
    eapply Permutation_in; [apply Permutation_sym |]; eassumption.
  - exists partner. split; [eapply Permutation_in; eassumption | split; assumption].
Qed.

Lemma build_lines_any_ids :
  forall todo lines used,
    incl todo sorted_boxes ->
    ids_inv h sorted_boxes (concat lines) used ->
    Forall (line_good h y_overlap_threshold) lines ->
    exists used',
      ids_inv h sorted_boxes
        (concat (build_lines h y_overlap_threshold sorted_boxes todo lines used)) used'
      /\ (forall i, mem i used = true -> mem i used' = true)
      /\ (forall b, In b todo -> mem (id (h b)) used' = true)
      /\ Forall (line_good h y_overlap_threshold)
           (build_lines h y_overlap_threshold sorted_boxes todo lines used).
Proof.
  induction todo as [| box rest IH]; intros lines used Hincl Hinv Hgood; cbn [build_lines].
  - exists used. split; [exact Hinv | split; [auto | split; [intros b [] | exact Hgood]]].
  - assert (Hrest : incl rest sorted_boxes) by (intros b Hb; apply Hincl; now right).
    destruct (mem (id (h box)) used) eqn:Hused.
    + destruct (IH lines used Hrest Hinv Hgood) as (used' & Hinv' & Hmono & Hdone & Hgood').
      exists used'. split; [exact Hinv' | split; [assumption | split; [| exact Hgood']]].
      intros b [Hb | Hb]; [subst; now apply Hmono | now apply Hdone].
    + pose proof (collect_line_any_ids sorted_boxes [box] (id (h box) :: used) (concat lines)
                    (incl_refl _)) as Hcollect.
      destruct (collect_line h y_overlap_threshold sorted_boxes [box] (id (h box) :: used))
        as [current_line used1] eqn:Hcl.
      cbn [fst snd] in Hcollect.
      destruct Hcollect as (Hinv1 & Hmono1 & Hgrown).
      { apply ids_inv_add; [apply Hincl; now left | assumption ..]. }
      { constructor. }
      set (line := sorted (fun b => center_x (h b)) current_line).
      assert (Hperm : Permutation line current_line) by apply sorted_perm.
      assert (Hnd : NoDup current_line).
      { destruct Hinv1 as (Hnd1 & _ & _). apply NoDup_map_inv in Hnd1.
        eapply NoDup_app_remove_l. exact Hnd1. }
      destruct (IH (lines ++ [line]) used1 Hrest) as (used' & Hinv' & Hmono & Hdone & Hgood').
      { rewrite concat_app. cbn [concat]. rewrite app_nil_r.
        eapply ids_inv_perm; [| exact Hinv1].
        apply Permutation_app_head, Permutation_sym, Hperm. }
      { apply Forall_app. split; [exact Hgood |].
        constructor; [| constructor]. split; [| split].
        - intro Hnil. rewrite Hnil in Hperm. apply Permutation_nil in Hperm.
          exact (grown_nonempty _ Hgrown Hperm).
        - apply sorted_strongly_sorted.
        - eapply overlap_partners_perm; [apply Permutation_sym, Hperm |].
          now apply grown_overlap_partners. }
      exists used'.
      assert (Hstep : forall i, mem i (id (h box) :: used) = true -> mem i used' = true)
        by (intros i Hi; now apply Hmono, Hmono1).
      split; [exact Hinv' | split; [| split; [| exact Hgood']]].
      * intros i Hi. apply Hstep. unfold mem. cbn [existsb]. apply orb_true_iff. now right.
      * intros b [Hb | Hb]; [| now apply Hdone].
        subst. apply Hstep. unfold mem. cbn [existsb]. now rewrite Z.eqb_refl.
Qed.
End ClusteringAnyIds.

Lemma group_into_lines_any_ids :
  forall (h : heap) (boxes : list loc) (y_overlap_threshold : Q),
    NoDup (map (id_at h) (concat (snd (group_into_lines h boxes y_overlap_threshold))))
    /\ incl (concat (snd (group_into_lines h boxes y_overlap_threshold))) boxes
    /\ (forall b, In b boxes ->
          In (id_at h b)
             (map (id_at h) (concat (snd (group_into_lines h boxes y_overlap_threshold)))))
    /\ Forall (line_good h y_overlap_threshold)
         (snd (group_into_lines h boxes y_overlap_threshold))
    /\ top_to_bottom h (snd (group_into_lines h boxes y_overlap_threshold)).
Proof.
  intros h boxes thr. unfold group_into_lines.
  destruct boxes as [| box0 rest] eqn:Hboxes; cbn [is_empty snd].
  { cbn. repeat split; try constructor. intros b []. intros b []. }
  rewrite <- Hboxes. clear Hboxes box0 rest.
  set (sorted_boxes := sorted (fun b => center_y (h b)) boxes).
  assert (Hsorted : Permutation sorted_boxes boxes) by apply sorted_perm.
  destruct (build_lines_any_ids h thr sorted_boxes sorted_boxes [] [] (incl_refl _))
    as (used' & (Hnd & Hincl & Hused) & _ & Hdone & Hgood).
  { split; [constructor | split; [intros b [] |]].
    intro i. cbn. split; [discriminate | intros []]. }
  { constructor. }
  set (built := build_lines h thr sorted_boxes sorted_boxes [] []) in *.
  assert (Hlines : Permutation (sorted (mean_center_y h) built) built) by apply sorted_perm.
  pose proof (Permutation_concat_lists _ _ _ Hlines) as Hconcat.
  split; [| split; [| split; [| split]]].
  - eapply Permutation_NoDup; [apply Permutation_map, Permutation_sym, Hconcat | exact Hnd].
  - intros b Hb. eapply Permutation_in; [exact Hsorted |]. apply Hincl.
    eapply Permutation_in; [exact Hconcat | exact Hb].
  - intros b Hb.
    eapply Permutation_in; [apply Permutation_map, Permutation_sym, Hconcat |].
    apply Hused, Hdone. eapply Permutation_in; [apply Permutation_sym, Hsorted | exact Hb].
  - eapply Permutation_Forall; [apply Permutation_sym, Hlines | exact Hgood].
  - apply sorted_strongly_sorted.
Qed.

Lemma length_concat_nonempty :
  forall (A : Type) (lines : list (list A)),
    Forall (fun line => line <> []) lines -> (length lines <= length (concat lines))%nat.
Proof.
  intros A. induction lines as [| line rest IH]; intro Hall; cbn [concat length].
  - lia.
  - inversion Hall as [| l ls Hne Hrest]; subst.
    rewrite length_app. specialize (IH Hrest).
    destruct line; [contradiction | cbn [length]; lia].
Qed.

(** X15: whatever the input, the lines [group_into_lines] returns are in
    reading order: no line is empty, the boxes of a line are ordered by
    their horizontal centre, the lines by the mean vertical centre of their
    boxes, and there are no more lines than input boxes. *)
Theorem group_into_lines_reading_order :
  forall (h : heap) (boxes : list loc) (y_overlap_threshold : Q),
    Forall (fun line => line <> [] /\ left_to_right h line)
           (snd (group_into_lines h boxes y_overlap_threshold))
    /\ top_to_bottom h (snd (group_into_lines h boxes y_overlap_threshold))
    /\ (length (snd (group_into_lines h boxes y_overlap_threshold)) <= length boxes)%nat.
Proof.
  intros h boxes thr.
  destruct (group_into_lines_any_ids h boxes thr) as (Hnd & Hincl & _ & Hgood & Htop).
  split; [| split; [exact Htop |]].
  - eapply Forall_impl; [| exact Hgood]. intros line (Hne & Hltr & _). now split.
  - apply Nat.le_trans with (length (concat (snd (group_into_lines h boxes thr)))).
    + apply length_concat_nonempty.
      eapply Forall_impl; [| exact Hgood]. now intros line (Hne & _).
    + apply NoDup_incl_length; [eapply NoDup_map_inv; exact Hnd | exact Hincl].
Qed.

(** X16: whatever the input, also when ids repeat, the boxes on the returned
    lines are input boxes with pairwise distinct ids, and every id of the
    input is the id of a box on some line: of several boxes sharing an id,
    one is kept and the others are left out. *)
Theorem group_into_lines_one_box_per_id :
  forall (h : heap) (boxes : list loc) (y_overlap_threshold : Q),
    NoDup (map (id_at h) (concat (snd (group_into_lines h boxes y_overlap_threshold))))
    /\ incl (concat (snd (group_into_lines h boxes y_overlap_threshold))) boxes
    /\ (forall b, In b boxes ->
          exists kept,
            In kept (concat (snd (group_into_lines h boxes y_overlap_threshold)))
            /\ id (h kept) = id (h b)).
Proof.
  intros h boxes thr.
  destruct (group_into_lines_any_ids h boxes thr) as (Hnd & Hincl & Hall & _ & _).
  split; [exact Hnd | split; [exact Hincl |]].
  intros b Hb. specialize (Hall b Hb). apply in_map_iff in Hall.
  destruct Hall as (kept & Hid & Hkept). now exists kept.
Qed.

(** X17: no box shares a line with others unless it overlaps one of them:
    on every returned line, a box that is not alone has a vertical overlap
    ratio of at least the threshold with some other box of that line. *)
Theorem group_into_lines_overlap_partners :
  forall (h : heap) (boxes : list loc) (y_overlap_threshold : Q),
    Forall (overlap_partners h y_overlap_threshold)
           (snd (group_into_lines h boxes y_overlap_threshold)).
Proof.
  intros h boxes thr.
  destruct (group_into_lines_any_ids h boxes thr) as (_ & _ & _ & Hgood & _).
  eapply Forall_impl; [| exact Hgood]. now intros line (_ & _ & Hp).
Qed.

Lemma NoDup_concat_member :
  forall (A : Type) (lines : list (list A)) (line : list A),
    NoDup (concat lines) -> In line lines -> NoDup line.
Proof.
  intros A. induction lines as [| l rest IH]; intros line Hnd Hin; [contradiction |].
  cbn [concat] in Hnd. destruct Hin as [-> | Hin].
  - eapply NoDup_app_remove_r. exact Hnd.
  - apply IH; [eapply NoDup_app_remove_l; exact Hnd | exact Hin].
Qed.

Lemma NoDup_all_equal :
  forall (l : list loc) (b : loc),
    NoDup l -> In b l -> (forall x, In x l -> x = b) -> l = [b].
Proof.
  intros [| x [| y l]] b Hnd Hb Hall.
  - contradiction.
  - now rewrite (Hall x (or_introl eq_refl)).
  - exfalso. inversion Hnd as [| x' l' Hx _]; subst. apply Hx.
    rewrite (Hall x (or_introl eq_refl)), (Hall y (or_intror (or_introl eq_refl))).
    now left.
Qed.

(** X18: for a positive threshold, a box without positive height is alone on
    its line: it joins no line and no box joins it. *)
Theorem flat_box_is_alone :
  forall (h : heap) (boxes : list loc) (y_overlap_threshold : Q) (line : list loc) (b : loc),
    (0 < y_overlap_threshold)%Q ->
    In line (snd (group_into_lines h boxes y_overlap_threshold)) ->
    In b line ->
    height (h b) <= 0 ->
    line = [b].
Proof.
  intros h boxes thr line b Hthr Hline Hb Hflat.
  destruct (group_into_lines_any_ids h boxes thr) as (Hnd & _ & _ & Hgood & _).
  apply NoDup_map_inv in Hnd.
  pose proof (NoDup_concat_member _ _ line Hnd Hline) as Hndline.
  rewrite Forall_forall in Hgood. destruct (Hgood line Hline) as (_ & _ & Hpartners).
  destruct (another_or_alone line b) as [Hother | Halone].
  - exfalso. destruct (Hpartners b Hb Hother) as (partner & _ & _ & Hov).
    replace (vertical_overlap (h partner) (h b)) with 0%Q in Hov.
    + exact (Qlt_not_le _ _ Hthr Hov).
    + unfold vertical_overlap.
      destruct (Z.ltb_spec 0 (Z.min (height (h partner)) (height (h b)))); [lia | reflexivity].
  - now apply NoDup_all_equal.
Qed.

Lemma flat_box_is_alone_witness :
  (0 < default_y_overlap_threshold)%Q
  /\ In [3%nat] (snd (group_into_lines (alloc sample_boxes) (refs sample_boxes)
                        default_y_overlap_threshold))
  /\ In 3%nat [3%nat]
  /\ height (alloc sample_boxes 3%nat) <= 0
  /\ [3%nat] = [3%nat].
Proof.
  assert (Hline : In [3%nat] (snd (group_into_lines (alloc sample_boxes) (refs sample_boxes)
                                     default_y_overlap_threshold)))
    by (vm_compute; intuition).
  assert (Hflat : height (alloc sample_boxes 3%nat) <= 0) by (vm_compute; discriminate).
  split; [reflexivity | split; [exact Hline | split; [now left | split; [exact Hflat |]]]].
  apply (flat_box_is_alone (alloc sample_boxes) (refs sample_boxes)
           default_y_overlap_threshold [3%nat] 3%nat).
  - reflexivity.
  - exact Hline.
  - now left.
  - exact Hflat.
Defined.

(** ** Parsing detections *)

Lemma parse_loop_ok :
  forall (detections : list Detection) (acc : list DetectionBox),
    (forall det, In det detections ->
                 (4 <= length (coords_of det))%nat) ->
    exists new,
      parse_loop detections acc = Ok (acc ++ new)
      /\ length new = length detections
      /\ forall i det,
           nth_error detections i = Some det ->
           exists b,
             nth_error new i = Some b
             /\ id b = get_default (det_id det) (Z.of_nat (length acc + i))
             /\ line_id b = -1
             /\ ocr_text b = get_default (det_ocr_text det) EmptyString.
Proof.
  induction detections as [| det rest IH]; intros acc Hlong; cbn [parse_loop].
  - exists []. rewrite app_nil_r. split; [reflexivity | split; [reflexivity |]].
    intros i det Hi. destruct i; discriminate Hi.
  - pose proof (Hlong det (or_introl eq_refl)) as Hdet.
    unfold coords_of in Hdet.
    destruct (get_default (det_box det) [0; 0; 0; 0]) as [| c0 [| c1 [| c2 [| c3 more]]]];
      cbn [length] in Hdet; try lia.
    pose proof (py_getitem_of_nat _ (c0 :: c1 :: c2 :: c3 :: more) 0 c0 eq_refl) as H0.
    pose proof (py_getitem_of_nat _ (c0 :: c1 :: c2 :: c3 :: more) 1 c1 eq_refl) as H1.
    pose proof (py_getitem_of_nat _ (c0 :: c1 :: c2 :: c3 :: more) 2 c2 eq_refl) as H2.
    pose proof (py_getitem_of_nat _ (c0 :: c1 :: c2 :: c3 :: more) 3 c3 eq_refl) as H3.
    cbn [Z.of_nat Pos.of_succ_nat Pos.succ] in H0, H1, H2, H3.
    rewrite H0, H1, H2, H3. cbn [bind].
    destruct (IH (acc ++ [mkDetectionBox
                            (get_default (det_id det) (Z.of_nat (length acc)))
                            c0 c1 c2 c3
                            (get_default (det_confidence det) 0%Q)
                            (get_default (det_ocr_text det) EmptyString)
                            (get_default (det_ocr_confidence det) 0%Q)
                            (-1)]))
      as (new & Hrun & Hlen & Hall).
    { intros det' Hdet'. apply Hlong. now right. }
    rewrite Hrun. eexists (_ :: new). split; [| split].
    + rewrite <- app_assoc. reflexivity.
    + cbn [length]. now rewrite Hlen.
    + intros i det' Hi. destruct i as [| i].
      * cbn in Hi. injection Hi as <-. eexists. split; [reflexivity |].
        cbn [id line_id ocr_text]. rewrite Nat.add_0_r. repeat split.
      * cbn in Hi. destruct (Hall i det' Hi) as (b & Hb & Hid & Hline & Htext).
        exists b. split; [exact Hb |].
        rewrite length_app in Hid. cbn [length] in Hid.
        replace (length acc + S i)%nat with (length acc + 1 + i)%nat by lia.
        repeat split; assumption.
Qed.

Lemma parse_loop_raises :
  forall (detections : list Detection) (acc : list DetectionBox),
    (exists det, In det detections
                 /\ (length (coords_of det) < 4)%nat) ->
    parse_loop detections acc = Raise IndexError.
Proof.
  induction detections as [| det rest IH]; intros acc (bad & Hin & Hshort).
  - contradiction.
  - cbn [parse_loop].
    destruct (get_default (det_box det) [0; 0; 0; 0]) as [| c0 [| c1 [| c2 [| c3 more]]]]
      eqn:Hcoords; try reflexivity.
    pose proof (py_getitem_of_nat _ (c0 :: c1 :: c2 :: c3 :: more) 0 c0 eq_refl) as H0.
    pose proof (py_getitem_of_nat _ (c0 :: c1 :: c2 :: c3 :: more) 1 c1 eq_refl) as H1.
    pose proof (py_getitem_of_nat _ (c0 :: c1 :: c2 :: c3 :: more) 2 c2 eq_refl) as H2.
    pose proof (py_getitem_of_nat _ (c0 :: c1 :: c2 :: c3 :: more) 3 c3 eq_refl) as H3.
    cbn [Z.of_nat Pos.of_succ_nat Pos.succ] in H0, H1, H2, H3.
    rewrite H0, H1, H2, H3. cbn [bind].
    apply IH. exists bad. split; [| exact Hshort].
    destruct Hin as [<- | Hin]; [| exact Hin].
    unfold coords_of in Hshort. rewrite Hcoords in Hshort. cbn [length] in Hshort. lia.
Qed.

(** X19: [parse_detections] raises IndexError when some detection carries a
    box of fewer than four coordinates; otherwise it returns one box per
    detection, in order, whose id is the detection's id or, when the key is
    missing, the detection's position, whose text defaults to the empty
    string and whose [line_id] is -1. A missing [detections] key reads as
    no detection. *)
Theorem parse_detections_behaviour :
  forall data : option (list Detection),
    ((forall det, In det (get_default data []) ->
                  (4 <= length (coords_of det))%nat) ->
     exists boxes,
       parse_detections data = Ok boxes
       /\ length boxes = length (get_default data [])
       /\ forall i det,
            nth_error (get_default data []) i = Some det ->
            exists b,
              nth_error boxes i = Some b
              /\ id b = get_default (det_id det) (Z.of_nat i)
              /\ line_id b = -1
              /\ ocr_text b = get_default (det_ocr_text det) EmptyString)
    /\ ((exists det, In det (get_default data [])
                     /\ (length (coords_of det) < 4)%nat) ->
        parse_detections data = Raise IndexError)
    /\ parse_detections None = Ok [].
Proof.
  intro data. unfold parse_detections. split; [| split].
  - intro Hlong.
    destruct (parse_loop_ok (get_default data []) [] Hlong) as (new & Hrun & Hlen & Hall).
    exists new. split; [exact Hrun | split; [exact Hlen | exact Hall]].
  - apply parse_loop_raises.
  - reflexivity.
Qed.

Lemma parse_detections_behaviour_witness :
  parse_detections
    (Some [mkDetection (Some 7) (Some [1; 2; 3]) None None None])
  = Raise IndexError.
Proof.
  apply (proj1 (proj2 (parse_detections_behaviour
                         (Some [mkDetection (Some 7) (Some [1; 2; 3]) None None None])))).
  eexists. split; [now left | unfold coords_of; cbn; lia].
Defined.

(** ** The text of a line, continued *)













(** ** The transcript *)

Import Transcript.





Lemma merge_all_loop_pieces :
  forall (lines : list (list DetectionBox)) (line_texts : list string),
    merge_all_loop lines line_texts = Ok (line_texts ++ transcript_pieces lines).
Proof.
  unfold transcript_pieces.
  induction lines as [| line rest IH]; intro line_texts; cbn [merge_all_loop map filter].
  - now rewrite app_nil_r.
  - rewrite merge_line_text_merged_text. cbn [bind].
    destruct (negb (is_empty (chars (strip (merged_text line default_space_threshold))))).
    + rewrite IH, <- app_assoc. reflexivity.
    + apply IH.
Qed.




(** ** The pipeline [postprocess_detections] *)

Lemma line_entries_ok :
  forall (h : heap) (space_threshold : Q) (lines : list (Z * list loc)),
    line_entries h space_threshold lines
    = Ok (map (fun kl => entry_of h space_threshold (fst kl) (snd kl)) lines).
Proof.
  intros h space_threshold.
  induction lines as [| [k line] rest IH]; cbn [line_entries map].
  - reflexivity.
  - rewrite merge_line_text_merged_text. cbn [bind]. rewrite IH. reflexivity.
Qed.

Lemma postprocess_detections_ok :
  forall (data : option (list DetectionDict)) (y_overlap_threshold space_threshold : Q)
         (boxes : list DetectionBox),
    parse_detections (option_map (map dd_detection) data) = Ok boxes ->
    boxes <> [] ->
    postprocess_detections data y_overlap_threshold space_threshold
    = Ok (mkPostprocessed
            (option_map
               (map (annotate
                       (fst (group_into_lines (alloc boxes) (refs boxes) y_overlap_threshold))
                       (make_box_dict
                          (fst (group_into_lines (alloc boxes) (refs boxes) y_overlap_threshold))
                          (refs boxes))))
               data)
            (map (fun kl =>
                    entry_of
                      (fst (group_into_lines (alloc boxes) (refs boxes) y_overlap_threshold))
                      space_threshold (fst kl) (snd kl))
                 (enumerate
                    (snd (group_into_lines (alloc boxes) (refs boxes) y_overlap_threshold))))
            (String.concat default_line_separator
               (transcript_pieces
                  (map (map (fst (group_into_lines (alloc boxes) (refs boxes)
                                    y_overlap_threshold)))
                       (snd (group_into_lines (alloc boxes) (refs boxes)
                               y_overlap_threshold)))))).
Proof.
  intros data thr sp boxes Hparse Hne. unfold postprocess_detections.
  rewrite Hparse. cbn [bind].
  destruct boxes as [| b boxes']; [contradiction |]. cbn [is_empty]. cbv zeta.
  rewrite line_entries_ok. cbn [bind].
  unfold merge_all_text. rewrite merge_all_loop_pieces. cbn [bind app]. reflexivity.
Qed.



Lemma map_snd_combine :
  forall (A B : Type) (l : list A) (l' : list B),
    length l = length l' -> map snd (combine l l') = l'.
Proof.
  intros A B. induction l as [| x l IH]; intros [| y l'] Hlen;
    try discriminate Hlen; cbn [combine map snd].
  - reflexivity.
  - rewrite IH by (cbn in Hlen; lia). reflexivity.
Qed.

Lemma map_snd_enumerate :
  forall (A : Type) (l : list A), map snd (enumerate l) = l.
Proof.
  intros A l. unfold enumerate. apply map_snd_combine.
  now rewrite length_map, length_seq.
Qed.

Lemma nth_error_combine_seq :
  forall (A : Type) (l : list A) (start k : nat) (p : Z * A),
    nth_error (combine (map Z.of_nat (seq start (length l))) l) k = Some p ->
    fst p = Z.of_nat (start + k) /\ nth_error l k = Some (snd p).
Proof.
  intros A. induction l as [| x l IH]; intros start k p Hk.
  - destruct k; discriminate Hk.
  - cbn [length seq map combine] in Hk. destruct k as [| k].
    + cbn in Hk. injection Hk as <-. cbn. split; [f_equal; lia | reflexivity].
    + cbn [nth_error] in Hk. destruct (IH (S start) k p Hk) as [Hfst Hsnd].
      split; [rewrite Hfst; f_equal; lia | exact Hsnd].
Qed.

Lemma nth_error_enumerate :
  forall (A : Type) (l : list A) (k : nat) (p : Z * A),
    nth_error (enumerate l) k = Some p ->
    fst p = Z.of_nat k /\ nth_error l k = Some (snd p).
Proof.
  intros A l k p Hk. unfold enumerate in Hk.
  now destruct (nth_error_combine_seq _ l 0 k p Hk).
Qed.

Lemma group_into_lines_keeps_ids :
  forall (h : heap) (boxes : list loc) (y_overlap_threshold : Q) (l : loc),
    id (fst (group_into_lines h boxes y_overlap_threshold) l) = id (h l).
Proof.
  intros h boxes thr l. unfold group_into_lines.
  destruct (is_empty boxes); cbn [fst]; [reflexivity |].
  symmetry. exact (proj1 (assign_line_ids_frame _ h l)).
Qed.

Lemma map_alloc_refs :
  forall (A : Type) (f : DetectionBox -> A) (boxes : list DetectionBox),
    map (fun b => f (alloc boxes b)) (refs boxes) = map f boxes.
Proof.
  intros A f boxes. unfold refs, alloc.
  apply nth_error_ext. intro n.
  rewrite !nth_error_map, nth_error_seq.
  destruct (Nat.ltb_spec n (length boxes)) as [Hlt | Hge].
  - cbn [option_map Nat.add]. now rewrite (nth_error_nth' boxes (mkDetectionBox 0 0 0 0 0 0 EmptyString 0 (-1)) Hlt).
  - now rewrite (proj2 (nth_error_None boxes n)) by lia.
Qed.

Lemma box_dict_lookup_setitem :
  forall (d : box_dict) (k k' : Z) (v : loc),
    box_dict_lookup (box_dict_setitem d k v) k'
    = if Z.eqb k k' then Some v else box_dict_lookup d k'.
Proof.
  induction d as [| [k0 v0] d IH]; intros k k' v; cbn [box_dict_setitem box_dict_lookup].
  - reflexivity.
  - destruct (Z.eqb_spec k0 k) as [-> | Hne]; cbn [box_dict_lookup].
    + destruct (Z.eqb k k'); reflexivity.
    + rewrite IH. destruct (Z.eqb_spec k0 k') as [-> | Hne'].
      * destruct (Z.eqb_spec k k'); [congruence | reflexivity].
      * reflexivity.
Qed.

(** What [{b.id: b for b in boxes}] holds under a key: the last box with
    that id, if there is one. *)
Lemma make_box_dict_lookup :
  forall (h : heap) (boxes : list loc) (d : box_dict) (i : Z),
    (exists b, In b boxes /\ id (h b) = i
               /\ box_dict_lookup
                    (fold_left (fun d b => box_dict_setitem d (id (h b)) b) boxes d) i
                  = Some b)
    \/ ((forall b, In b boxes -> id (h b) <> i)
        /\ box_dict_lookup
             (fold_left (fun d b => box_dict_setitem d (id (h b)) b) boxes d) i
           = box_dict_lookup d i).
Proof.
  intros h. induction boxes as [| b0 boxes IH]; intros d i; cbn [fold_left].
  - right. split; [intros b [] | reflexivity].
  - destruct (IH (box_dict_setitem d (id (h b0)) b0) i)
      as [(b & Hb & Hid & Hlook) | [Hnone Hlook]].
    + left. exists b. split; [now right | split; assumption].
    + rewrite box_dict_lookup_setitem in Hlook.
      destruct (Z.eqb_spec (id (h b0)) i) as [Heq | Hne].
      * left. exists b0. split; [now left | split; assumption].
      * right. split; [| exact Hlook].
        intros b [<- | Hb]; [exact Hne | now apply Hnone].
Qed.

Lemma group_into_lines_line_ids :
  forall (h : heap) (boxes : list loc) (y_overlap_threshold : Q) k line b,
    NoDup (concat (snd (group_into_lines h boxes y_overlap_threshold))) ->
    nth_error (snd (group_into_lines h boxes y_overlap_threshold)) k = Some line ->
    In b line ->
    line_id (fst (group_into_lines h boxes y_overlap_threshold) b) = Z.of_nat k.
Proof.
  intros h boxes thr k line b. unfold group_into_lines.
  destruct (is_empty boxes); cbn [fst snd].
  - intros _ Hk. destruct k; discriminate Hk.
  - intros Hnd Hk Hb. unfold enumerate.
    now rewrite (assign_line_ids_enumerated _ 0%nat h k line b Hnd Hk Hb).
Qed.

Lemma parse_detections_ids :
  forall (detections : list Detection) (boxes : list DetectionBox),
    parse_detections (Some detections) = Ok boxes ->
    forall n det,
      nth_error detections n = Some det ->
      exists b,
        nth_error boxes n = Some b
        /\ id b = get_default (det_id det) (Z.of_nat n).
Proof.
  intros detections boxes Hparse n det Hn.
  unfold parse_detections in Hparse. cbn [get_default] in Hparse.
  destruct (Forall_Exists_dec (fun det => (4 <= length (coords_of det))%nat)
              (fun det => le_dec 4 (length (coords_of det))) detections)
    as [Hall | Hsome].
  - rewrite Forall_forall in Hall.
    destruct (parse_loop_ok detections [] Hall) as (new & Hok & _ & Hnth).
    rewrite Hok in Hparse. injection Hparse as <-. cbn [app].
    destruct (Hnth n det Hn) as (b & Hb & Hid & _).
    exists b. split; [exact Hb | exact Hid].
  - rewrite (parse_loop_raises detections []) in Hparse; [discriminate Hparse |].
    apply Exists_exists in Hsome. destruct Hsome as (bad & Hbad & Hshort).
    exists bad. split; [exact Hbad | lia].
Qed.

Lemma entries_box_ids :
  forall (h : heap) (space_threshold : Q) (lines : list (list loc)),
    map le_box_ids
        (map (fun kl => entry_of h space_threshold (fst kl) (snd kl)) (enumerate lines))
    = map (map (fun b => id (h b))) lines.
Proof.
  intros h space_threshold lines. rewrite map_map. cbn [entry_of le_box_ids].
  rewrite <- (map_snd_enumerate _ lines) at 2. now rewrite map_map.
Qed.

Lemma parse_detections_length :
  forall (data : option (list DetectionDict)) (boxes : list DetectionBox),
    parse_detections (option_map (map dd_detection) data) = Ok boxes ->
    length boxes = length (detections_of data).
Proof.
  intros data boxes Hparse. unfold parse_detections in Hparse.
  apply parse_loop_keeps_all in Hparse. destruct Hparse as (new & -> & Hlen & _).
  exact Hlen.
Qed.

(** X23: when [postprocess_detections] succeeds, the entry at position [k] of
    its lines has [line_id] [k], a non-empty list of box ids and their
    number as [num_boxes]; over all entries the box ids are pairwise
    distinct and include the id of every parsed box, and there are no more
    entries than detections. The [space_threshold] argument changes
    neither the aggregated text, which is always merged with the default
    threshold, nor the line ids written to the detections, nor the box ids
    of the entries. *)
Theorem postprocess_detections_lines :
  forall (data : option (list DetectionDict)) (y_overlap_threshold space_threshold : Q)
         (out : Postprocessed),
    postprocess_detections data y_overlap_threshold space_threshold = Ok out ->
    (forall k entry,
        nth_error (pp_lines out) k = Some entry ->
        le_line_id entry = Z.of_nat k
        /\ le_num_boxes entry = Z.of_nat (length (le_box_ids entry))
        /\ le_box_ids entry <> [])
    /\ NoDup (concat (map le_box_ids (pp_lines out)))
    /\ (forall boxes b,
          parse_detections (option_map (map dd_detection) data) = Ok boxes ->
          In b boxes ->
          In (id b) (concat (map le_box_ids (pp_lines out))))
    /\ (length (pp_lines out) <= length (detections_of data))%nat
    /\ (forall space_threshold',
          exists out',
            postprocess_detections data y_overlap_threshold space_threshold' = Ok out'
            /\ pp_aggregated_text out' = pp_aggregated_text out
            /\ pp_detections out' = pp_detections out
            /\ map le_box_ids (pp_lines out') = map le_box_ids (pp_lines out)).
Proof.
  intros data thr sp out Hout.
  destruct (parse_detections (option_map (map dd_detection) data)) as [boxes | e] eqn:Hparse.
  2:{ unfold postprocess_detections in Hout. rewrite Hparse in Hout. discriminate Hout. }
  destruct boxes as [| box0 boxes'] eqn:Hboxes.
  { unfold postprocess_detections in *. rewrite Hparse in *. cbn [bind is_empty] in *.
    injection Hout as <-. cbn [pp_lines pp_aggregated_text pp_detections map concat].
    split; [intros k entry Hk; destruct k; discriminate Hk |].
    split; [constructor |].
    split; [intros bs b Hbs Hb; injection Hbs as <-; contradiction |].
    split; [cbn; lia |].
    intro sp'. eexists. split; [reflexivity | repeat split]. }
  rewrite <- Hboxes in *.
  assert (Hne : boxes <> []) by (rewrite Hboxes; discriminate).
  clear Hboxes box0 boxes'.
  rewrite (postprocess_detections_ok data thr sp boxes Hparse Hne) in Hout.
  injection Hout as <-. cbn [pp_lines pp_aggregated_text pp_detections].
  set (h0 := alloc boxes).
  set (h := fst (group_into_lines h0 (refs boxes) thr)).
  set (lines := snd (group_into_lines h0 (refs boxes) thr)).
  destruct (group_into_lines_any_ids h0 (refs boxes) thr)
    as (Hnd & Hincl & Hcover & Hgood & _).
  fold lines in Hnd, Hincl, Hcover, Hgood.
  assert (Hids : map (fun b => id (h b)) (concat lines) = map (id_at h0) (concat lines)).
  { apply map_ext. intro b. apply group_into_lines_keeps_ids. }
  split; [| split; [| split; [| split]]].
  - intros k entry Hk. rewrite nth_error_map in Hk.
    destruct (nth_error (enumerate lines) k) as [[k' line] |] eqn:Hline; [| discriminate Hk].
    cbn [option_map fst snd] in Hk. injection Hk as <-.
    apply nth_error_enumerate in Hline. cbn [fst snd] in Hline. destruct Hline as [-> Hline].
    cbn [entry_of le_line_id le_num_boxes le_box_ids]. rewrite length_map.
    split; [reflexivity | split; [reflexivity |]].
    rewrite Forall_forall in Hgood.
    destruct (Hgood line (nth_error_In _ _ Hline)) as (Hnonempty & _ & _).
    destruct line; [contradiction | discriminate].
  - rewrite entries_box_ids, <- concat_map, Hids. exact Hnd.
  - intros bs b Hbs Hb. injection Hbs as <-.
    rewrite entries_box_ids, <- concat_map, Hids.
    destruct (In_nth_error _ _ Hb) as [r Hr].
    assert (Hlt : (r < length boxes)%nat) by (apply nth_error_Some; congruence).
    replace (id b) with (id_at h0 r).
    + apply Hcover. unfold refs. apply in_seq. lia.
    + unfold id_at, h0, alloc. now rewrite (nth_error_nth _ _ _ Hr).
  - rewrite length_map. unfold enumerate.
    rewrite length_combine, length_map, length_seq, Nat.min_id.
    rewrite <- (parse_detections_length data boxes Hparse).
    replace (length boxes) with (length (refs boxes)) by (unfold refs; apply length_seq).
    apply Nat.le_trans with (length (concat lines)).
    + apply length_concat_nonempty.
      eapply Forall_impl; [| exact Hgood]. now intros line (Hnonempty & _).
    + apply NoDup_incl_length; [eapply NoDup_map_inv; exact Hnd | exact Hincl].
  - intro sp'. eexists.
    split; [apply (postprocess_detections_ok data thr sp' boxes Hparse Hne) |].
    cbn [pp_lines pp_aggregated_text pp_detections].
    split; [reflexivity | split; [reflexivity |]].
    now rewrite !entries_box_ids.
Qed.

Lemma postprocess_detections_lines_witness :
  exists out,
    postprocess_detections
      (Some (map (fun d => mkDetectionDict d None) sample_detections))
      default_y_overlap_threshold default_space_threshold = Ok out
    /\ NoDup (concat (map le_box_ids (pp_lines out))).
Proof.
  eexists. split; [vm_compute; reflexivity |].
  eapply (proj1 (proj2 (postprocess_detections_lines
                          (Some (map (fun d => mkDetectionDict d None) sample_detections))
                          default_y_overlap_threshold default_space_threshold _ _))).
  Unshelve. vm_compute. reflexivity.
Defined.

(** X24: when [postprocess_detections] succeeds on detections whose parsed
    boxes have pairwise distinct ids, it keeps the detections in place and
    changes nothing but [line_id]: a detection without an [id] key is left
    as it was, although its box is put on a line under its index; a
    detection with [id] [i] gets as [line_id] the position of an entry of
    the lines whose [box_ids] contain [i]. *)
Theorem postprocess_detections_line_ids :
  forall (l : list DetectionDict) (y_overlap_threshold space_threshold : Q)
         (out : Postprocessed) (boxes : list DetectionBox),
    postprocess_detections (Some l) y_overlap_threshold space_threshold = Ok out ->
    parse_detections (Some (map dd_detection l)) = Ok boxes ->
    NoDup (map id boxes) ->
    exists l',
      pp_detections out = Some l'
      /\ length l' = length l
      /\ forall n dd,
           nth_error l n = Some dd ->
           exists dd',
             nth_error l' n = Some dd'
             /\ dd_detection dd' = dd_detection dd
             /\ match det_id (dd_detection dd) with
                | None => dd' = dd
                | Some i =>
                    exists k entry,
                      dd_line_id dd' = Some (Z.of_nat k)
                      /\ nth_error (pp_lines out) k = Some entry
                      /\ In i (le_box_ids entry)
                end.
Proof.
  intros l thr sp out boxes Hout Hparse Hids.
  assert (Hlen : length boxes = length l).
  { rewrite (parse_detections_length (Some l) boxes Hparse).
    unfold detections_of. cbn [option_map get_default]. apply length_map. }
  destruct boxes as [| box0 boxes'] eqn:Hboxes.
  { destruct l; [| discriminate Hlen].
    unfold postprocess_detections in Hout. cbn [option_map] in Hout.
    rewrite Hparse in Hout. cbn [bind is_empty] in Hout. injection Hout as <-.
    exists []. cbn [pp_detections]. split; [reflexivity | split; [reflexivity |]].
    intros n dd Hn. destruct n; discriminate Hn. }
  rewrite <- Hboxes in *.
  assert (Hne : boxes <> []) by (rewrite Hboxes; discriminate).
  clear Hboxes box0 boxes'.
  rewrite (postprocess_detections_ok (Some l) thr sp boxes Hparse Hne) in Hout.
  injection Hout as <-. cbn [pp_lines pp_detections option_map].
  set (h0 := alloc boxes).
  set (h := fst (group_into_lines h0 (refs boxes) thr)).
  set (lines := snd (group_into_lines h0 (refs boxes) thr)).
  assert (Hids0 : NoDup (map (fun b => id (h0 b)) (refs boxes)))
    by (unfold h0; rewrite map_alloc_refs; exact Hids).
  assert (Hperm : Permutation (concat lines) (refs boxes))
    by (apply group_into_lines_perm; exact Hids0).
  assert (Hnd : NoDup (concat lines)).
  { eapply Permutation_NoDup; [apply Permutation_sym, Hperm |].
    eapply NoDup_map_inv. exact Hids0. }
  eexists. split; [reflexivity | split; [apply length_map |]].
  intros n dd Hn. exists (annotate h (make_box_dict h (refs boxes)) dd).
  split; [rewrite nth_error_map, Hn; reflexivity |].
  unfold annotate.
  destruct (det_id (dd_detection dd)) as [i |] eqn:Hid; [| split; reflexivity].
  assert (Hdet : nth_error (map dd_detection l) n = Some (dd_detection dd))
    by (rewrite nth_error_map, Hn; reflexivity).
  destruct (parse_detections_ids _ boxes Hparse n _ Hdet) as (bx & Hbx & Hbid).
  rewrite Hid in Hbid. cbn [get_default] in Hbid.
  assert (Hlt : (n < length boxes)%nat) by (apply nth_error_Some; congruence).
  assert (Hn_id : id (h n) = i).
  { unfold h. rewrite group_into_lines_keeps_ids. unfold h0, alloc.
    now rewrite (nth_error_nth _ _ _ Hbx). }
  assert (Hn_in : In n (refs boxes)) by (unfold refs; apply in_seq; lia).
  unfold make_box_dict.
  destruct (make_box_dict_lookup h (refs boxes) [] i)
    as [(r & Hr & Hrid & Hlook) | [Hnone _]].
  2:{ exfalso. exact (Hnone n Hn_in Hn_id). }
  rewrite Hlook. cbn [dd_detection dd_line_id]. split; [reflexivity |].
  assert (Hin : In r (concat lines))
    by (eapply Permutation_in; [apply Permutation_sym, Hperm | exact Hr]).
  apply in_concat in Hin. destruct Hin as (line & Hline & Hrline).
  apply In_nth_error in Hline. destruct Hline as [k Hk].
  exists k, (entry_of h sp (Z.of_nat k) line).
  split; [| split].
  - f_equal. unfold h. exact (group_into_lines_line_ids h0 _ thr k line r Hnd Hk Hrline).
  - rewrite nth_error_map.
    assert (Hen : nth_error (enumerate lines) k = Some (Z.of_nat k, line)).
    { destruct (nth_error (enumerate lines) k) as [[k' line'] |] eqn:He.
      - apply nth_error_enumerate in He. cbn [fst snd] in He.
        destruct He as [-> He]. congruence.
      - apply nth_error_None in He. unfold enumerate in He.
        rewrite length_combine, length_map, length_seq, Nat.min_id in He.
        assert (k < length lines)%nat by (apply nth_error_Some; congruence). lia. }
    rewrite Hen. reflexivity.
  - cbn [entry_of le_box_ids]. rewrite <- Hrid.
    exact (in_map (fun b => id (h b)) line r Hrline).
Qed.

Lemma postprocess_detections_line_ids_witness :
  exists out boxes,
    postprocess_detections
      (Some (map (fun d => mkDetectionDict d None) sample_detections))
      default_y_overlap_threshold default_space_threshold = Ok out
    /\ parse_detections
         (Some (map dd_detection (map (fun d => mkDetectionDict d None) sample_detections)))
       = Ok boxes
    /\ NoDup (map id boxes)
    /\ exists l', pp_detections out = Some l'
                  /\ length l' = length (map (fun d => mkDetectionDict d None) sample_detections).
Proof.
  eexists. eexists.
  split; [vm_compute; reflexivity |].
  split; [vm_compute; reflexivity |].
  split; [nodup_concrete |].
  destruct (postprocess_detections_line_ids
              (map (fun d => mkDetectionDict d None) sample_detections)
              default_y_overlap_threshold default_space_threshold _ _
              ltac:(vm_compute; reflexivity) ltac:(vm_compute; reflexivity)
              ltac:(nodup_concrete))
    as (l' & Hl' & Hlen & _).
  exists l'. split; [exact Hl' | exact Hlen].
Defined.
